(** * Heap allocators of C_portfolio: explicit.c and implicit.c

    A shallow embedding of the two allocators.  The managed region lives in a
    byte-addressed memory; the C globals ([segment_start], [freelist_start],
    [segment_size], [heap_end]) are the fields of a state record that every
    operation takes and returns.  [unsigned long], [size_t] and pointers are
    64-bit: arithmetic on them is written with its wrap-around ([wrap]).
    Loops that follow pointers stored in memory take a fuel argument and return
    [None] when it runs out. *)

From Stdlib Require Import ZArith List Lia Bool.
Import ListNotations.
Open Scope Z_scope.

(** ** Machine words *)

Definition wrap (x : Z) : Z := x mod 2 ^ 64.

(** Modelled from the spec: allocator.h is not part of the sources; the spec
    fixes the alignment unit at 8 bytes. *)
Definition ALIGNMENT : Z := 8.

(** ** Byte-addressed memory, little-endian 64-bit accesses *)

Definition memory := Z -> Z.

Definition load8 (m : memory) (a : Z) : Z := m a mod 256.

Definition store8 (m : memory) (a v : Z) : memory :=
  fun x => if x =? a then v mod 256 else m x.

Definition load64 (m : memory) (a : Z) : Z :=
  load8 m a + 2 ^ 8 * load8 m (a + 1) + 2 ^ 16 * load8 m (a + 2)
  + 2 ^ 24 * load8 m (a + 3) + 2 ^ 32 * load8 m (a + 4)
  + 2 ^ 40 * load8 m (a + 5) + 2 ^ 48 * load8 m (a + 6)
  + 2 ^ 56 * load8 m (a + 7).

Definition store64 (m : memory) (a v : Z) : memory :=
  fun x => if (a <=? x) && (x <? a + 8)
           then (v / 2 ^ (8 * (x - a))) mod 256 else m x.

(** [memcpy m dst src n]: the [n] bytes at [src] appear at [dst].  A copy
    whose source or destination runs past the end of the 64-bit address space
    cannot complete: [None].  (C leaves overlapping copies undefined; here all
    source bytes are read first.) *)
Definition memcpy (m : memory) (dst src n : Z) : option memory :=
  if (dst + n <=? 2 ^ 64) && (src + n <=? 2 ^ 64)
  then Some (fun x => if (dst <=? x) && (x <? dst + n)
                      then m (src + (x - dst)) else m x)
  else None.

(** Results of the operations that can run out of fuel or stop the program
    ([assert] failing in [myrealloc]). *)
Inductive outcome (A : Type) : Type :=
| Done (a : A)
| Crash
| Fuel.
Arguments Done {A} a.
Arguments Crash {A}.
Arguments Fuel {A}.

Definition of_option {A : Type} (o : option A) : outcome A :=
  match o with Some a => Done a | None => Fuel end.

(** ** explicit.c *)

Module Explicit.

(** The globals of explicit.c together with the memory they point into. *)
Record state := mkState {
  mem : memory;
  segment_start : Z;
  freelist_start : Z;
  segment_size : Z;
  heap_end : Z
}.

Definition set_mem (s : state) (m : memory) : state :=
  mkState m (segment_start s) (freelist_start s) (segment_size s) (heap_end s).

Definition set_freelist_start (s : state) (p : Z) : state :=
  mkState (mem s) (segment_start s) p (segment_size s) (heap_end s).

(** [struct header]: [payload] at offset 0, [prev] at offset 8, [next] at
    offset 16. *)
Definition payload_field (s : state) (h : Z) : Z := load64 (mem s) h.
Definition prev_field (s : state) (h : Z) : Z := load64 (mem s) (h + 8).
Definition next_field (s : state) (h : Z) : Z := load64 (mem s) (h + 16).

Definition set_payload (s : state) (h v : Z) : state :=
  set_mem s (store64 (mem s) h v).
Definition set_prev (s : state) (h v : Z) : state :=
  set_mem s (store64 (mem s) (h + 8) v).
Definition set_next (s : state) (h v : Z) : state :=
  set_mem s (store64 (mem s) (h + 16) v).

Definition FREE_MASK : Z := 7.
Definition PAYLOAD_MASK : Z := wrap (Z.lnot 7).

Definition myinit (s : state) (heap_start heap_size : Z) : state * bool :=
  if heap_size <? ALIGNMENT * 3 then (s, false)
  else
    let s1 := mkState (mem s) heap_start (freelist_start s) heap_size
                      (wrap (heap_start + heap_size)) in
    let s2 := set_payload s1 heap_start (wrap (heap_size - ALIGNMENT)) in
    let s3 := set_prev s2 heap_start 0 in
    let s4 := set_next s3 heap_start 0 in
    (set_freelist_start s4 heap_start, true).

Definition get_payload (s : state) (block : Z) : Z :=
  Z.land (payload_field s block) PAYLOAD_MASK.

Definition check_free (s : state) (block : Z) : bool :=
  if block =? 0 then false
  else Z.land (payload_field s block) FREE_MASK =? 0.

Definition roundup (sz mult : Z) : Z :=
  let corrected :=
    Z.land (wrap (sz + mult - 1)) (wrap (Z.lnot (wrap (mult - 1)))) in
  if corrected <? 16 then 16 else corrected.

Fixpoint search_from (fuel : nat) (s : state) (curr request : Z) : option Z :=
  match fuel with
  | O => None
  | S k =>
    if curr =? 0 then Some 0
    else if check_free s curr && (request <=? get_payload s curr)
         then Some curr
         else search_from k s (next_field s curr) request
  end.

Definition search_freelist (fuel : nat) (s : state) (request : Z) : option Z :=
  search_from fuel s (freelist_start s) request.

Definition remove_freelist (s : state) (new : Z) : state :=
  let curr_prev := prev_field s new in
  let curr_next := next_field s new in
  if curr_prev =? 0 then
    if curr_next =? 0 then set_freelist_start s 0
    else set_prev (set_freelist_start s curr_next) curr_next 0
  else
    let s1 := if curr_next =? 0 then s else set_prev s curr_next curr_prev in
    if curr_prev =? 0 then s1 else set_next s1 curr_prev curr_next.

Definition get_next_block (s : state) (block : Z) : Z :=
  let payload_val := get_payload s block in
  let next_location := wrap (block + payload_val + ALIGNMENT) in
  if next_location =? heap_end s then 0 else next_location.

Definition coalesce (s : state) (block : Z) : state :=
  let next_block := get_next_block s block in
  let free := check_free s next_block in
  if (next_block =? 0) || negb free then s
  else
    let next_payload_val := get_payload s next_block in
    let added_space := wrap (next_payload_val + ALIGNMENT) in
    let s1 := remove_freelist s next_block in
    set_payload s1 block (wrap (payload_field s1 block + added_space)).

Definition add_freelist (s : state) (new : Z) : state :=
  if freelist_start s =? 0 then
    set_next (set_prev (set_freelist_start s new) new 0) new 0
  else
    let s1 := set_prev s (freelist_start s) new in
    let s2 := set_next s1 new (freelist_start s1) in
    let s3 := set_prev s2 new 0 in
    set_freelist_start s3 new.

Definition add_block (s : state) (block request : Z) : state :=
  let free := check_free s block in
  let location := block in
  let payload_val := get_payload s block in
  let s1 := set_payload s block (wrap (request + 1)) in
  let new := wrap (location + request + ALIGNMENT) in
  let s2 := set_payload s1 new (wrap (payload_val - request - ALIGNMENT)) in
  let s3 := if free then remove_freelist s2 block else s2 in
  let s4 := add_freelist s3 new in
  coalesce s4 new.

Fixpoint coalesce_multiple_blocks (fuel : nat) (s : state) (block req : Z)
  : option state :=
  match fuel with
  | O => None
  | S k =>
    let next_block := get_next_block s block in
    if check_free s next_block && (get_payload s block <? req)
    then coalesce_multiple_blocks k (coalesce s block) block req
    else Some s
  end.

Definition myfree (s : state) (ptr : Z) : state :=
  if ptr =? 0 then s
  else
    let block := wrap (ptr - ALIGNMENT) in
    let s1 := set_payload s block (wrap (payload_field s block - 1)) in
    let s2 := add_freelist s1 block in
    coalesce s2 block.

Section Requests.

(** [MAX_REQUEST_SIZE] is defined in allocator.h, which is not part of the
    sources: the operations take it as a parameter. *)
Variable MAX_REQUEST_SIZE : Z.

Definition mymalloc (fuel : nat) (s : state) (requested_size : Z)
  : option (state * Z) :=
  let request := roundup requested_size ALIGNMENT in
  match search_freelist fuel s request with
  | None => None
  | Some free_location =>
    if free_location =? 0 then Some (s, 0)
    else if MAX_REQUEST_SIZE <? request then Some (s, 0)
    else
      let payload_val := get_payload s free_location in
      let location := free_location in
      if (wrap (location + payload_val + ALIGNMENT) =? heap_end s)
         && (wrap (request + ALIGNMENT * 3) <=? payload_val)
      then Some (add_block s free_location request, wrap (location + ALIGNMENT))
      else
        let s1 := set_payload s free_location
                    (wrap (payload_field s free_location + 1)) in
        Some (remove_freelist s1 free_location, wrap (location + ALIGNMENT))
  end.

Definition myrealloc (fuel : nat) (s : state) (old_ptr new_size : Z)
  : outcome (state * Z) :=
  if old_ptr =? 0 then of_option (mymalloc fuel s new_size)
  else
    let request := roundup new_size ALIGNMENT in
    let old_header := wrap (old_ptr - ALIGNMENT) in
    let old_size := get_payload s old_header in
    if new_size =? 0 then Done (myfree s old_ptr, 0)
    else
      match coalesce_multiple_blocks fuel s old_header request with
      | None => Fuel
      | Some s1 =>
        if request <=? get_payload s1 old_header then
          let block_end := wrap (get_payload s1 old_header + old_ptr) in
          let s2 :=
            if (block_end =? heap_end s1)
               && (wrap (request + ALIGNMENT * 3) <? get_payload s1 old_header)
            then
              let new := wrap (old_ptr + request) in
              let s1a := set_payload s1 new
                (wrap (get_payload s1 old_header - request - ALIGNMENT)) in
              let s1b := set_payload s1a old_header (wrap (request + 1)) in
              add_freelist s1b new
            else s1 in
          let s3 :=
            if negb (block_end =? heap_end s2)
               && (wrap (request + ALIGNMENT * 3) <=? old_size)
            then add_block s2 old_header request
            else s2 in
          Done (s3, old_ptr)
        else
          match mymalloc fuel s1 new_size with
          | None => Fuel
          | Some (s2, new_ptr) =>
            match memcpy (mem s2) new_ptr old_ptr old_size with
            | None => Crash
            | Some m3 =>
              let s3 := set_mem s2 m3 in
              if new_ptr =? 0 then Crash
              else Done (myfree s3 old_ptr, new_ptr)
            end
          end
      end.

End Requests.

(** First loop of [validate_heap]: [None] is out of fuel, [Some None] is
    [return false], [Some (Some total)] is the loop left at [heap_end]. *)
Fixpoint validate_blocks (fuel : nat) (s : state) (index total : Z)
  : option (option Z) :=
  if index =? heap_end s then Some (Some total)
  else
    match fuel with
    | O => None
    | S k =>
      let payload_val := get_payload s index in
      if heap_end s <? index then Some None
      else if negb (payload_val mod ALIGNMENT =? 0) then Some None
      else validate_blocks k s (wrap (index + (payload_val + ALIGNMENT)))
                           (wrap (total + (payload_val + ALIGNMENT)))
    end.

Fixpoint validate_freelist (fuel : nat) (s : state) (curr : Z) : option bool :=
  if curr =? 0 then Some true
  else
    match fuel with
    | O => None
    | S k =>
      if negb (check_free s curr)
         || negb (get_payload s curr mod ALIGNMENT =? 0)
      then Some false
      else validate_freelist k s (next_field s curr)
    end.

Definition validate_heap (fuel : nat) (s : state) : option bool :=
  match validate_blocks fuel s (segment_start s) 0 with
  | None => None
  | Some None => Some false
  | Some (Some total_heap_used) =>
    if negb (total_heap_used =? segment_size s) then Some false
    else validate_freelist fuel s (freelist_start s)
  end.

(** [dump_heap] prints one line per block.  The result lists the lines in
    the order printed, each with the three values printed: the address of the
    block, its payload size and whether it is free. *)
Fixpoint dump_heap (fuel : nat) (s : state) (index : Z)
  : option (list (Z * Z * bool)) :=
  if index =? heap_end s then Some []
  else
    match fuel with
    | O => None
    | S k =>
      let payload_val := get_payload s index in
      let free := check_free s index in
      match dump_heap k s (wrap (index + (payload_val + ALIGNMENT))) with
      | Some rows => Some ((index, payload_val, free) :: rows)
      | None => None
      end
    end.

End Explicit.

(** ** implicit.c *)

Module Implicit.

Record state := mkState {
  mem : memory;
  segment_start : Z;
  segment_size : Z;
  heap_end : Z
}.

Definition set_mem (s : state) (m : memory) : state :=
  mkState m (segment_start s) (segment_size s) (heap_end s).

Definition FREE_MASK : Z := 7.
Definition PAYLOAD_MASK : Z := wrap (Z.lnot 7).

Definition roundup (sz mult : Z) : Z :=
  Z.land (wrap (sz + mult - 1)) (wrap (Z.lnot (wrap (mult - 1)))).

Definition myinit (s : state) (heap_start heap_size : Z) : state * bool :=
  if heap_size <? ALIGNMENT * 2 then (s, false)
  else
    (mkState (store64 (mem s) heap_start (wrap (heap_size - ALIGNMENT)))
             heap_start heap_size (wrap (heap_start + heap_size)), true).

(** The [while] loop of [mymalloc]. *)
Fixpoint malloc_loop (fuel : nat) (s : state) (request index : Z)
  : option (state * Z) :=
  if index =? heap_end s then Some (s, 0)
  else
    match fuel with
    | O => None
    | S k =>
      let payload := load64 (mem s) index in
      let free := Z.land payload FREE_MASK =? 0 in
      let payload_value := Z.land payload PAYLOAD_MASK in
      if wrap (index + payload_value + ALIGNMENT) =? heap_end s then
        if negb free || (payload_value <? request) then Some (s, 0)
        else if free && (wrap (request + ALIGNMENT * 2) <=? payload_value) then
          let m1 := store64 (mem s) index (wrap (request + 1)) in
          let new := wrap (index + request + ALIGNMENT) in
          let m2 := store64 m1 new (wrap (payload_value - request - ALIGNMENT)) in
          Some (set_mem s m2, wrap (index + ALIGNMENT))
        else
          Some (set_mem s (store64 (mem s) index (wrap (request + 1))),
                wrap (index + ALIGNMENT))
      else if free && (request <=? payload_value) then
        Some (set_mem s (store64 (mem s) index (wrap (payload + 1))),
              wrap (index + ALIGNMENT))
      else malloc_loop k s request (wrap (index + (payload_value + ALIGNMENT)))
    end.

Definition mymalloc (fuel : nat) (s : state) (requested_size : Z)
  : option (state * Z) :=
  if requested_size =? 0 then Some (s, 0)
  else malloc_loop fuel s (roundup requested_size ALIGNMENT) (segment_start s).

Definition myfree (s : state) (ptr : Z) : state :=
  if ptr =? 0 then s
  else
    let block := wrap (ptr - ALIGNMENT) in
    set_mem s (store64 (mem s) block (wrap (load64 (mem s) block - 1))).

Definition myrealloc (fuel : nat) (s : state) (old_ptr new_size : Z)
  : outcome (state * Z) :=
  if old_ptr =? 0 then of_option (mymalloc fuel s new_size)
  else if negb (old_ptr =? 0) && (new_size =? 0) then Done (myfree s old_ptr, 0)
  else
    match mymalloc fuel s new_size with
    | None => Fuel
    | Some (s1, new_ptr) =>
      match memcpy (mem s1) new_ptr old_ptr new_size with
      | None => Crash
      | Some m2 =>
        let s2 := set_mem s1 m2 in
        if new_ptr =? 0 then Crash
        else Done (myfree s2 old_ptr, new_ptr)
      end
    end.

Fixpoint validate_heap (fuel : nat) (s : state) (index : Z) : option bool :=
  if index =? heap_end s then Some true
  else
    match fuel with
    | O => None
    | S k =>
      let payload_val := Z.land (load64 (mem s) index) PAYLOAD_MASK in
      if heap_end s <? index then Some false
      else validate_heap k s (wrap (index + (payload_val + ALIGNMENT)))
    end.

(** [dump_heap] prints one line per block: its address, its header word and
    its payload size. *)
Fixpoint dump_heap (fuel : nat) (s : state) (index : Z)
  : option (list (Z * Z * Z)) :=
  if index =? heap_end s then Some []
  else
    match fuel with
    | O => None
    | S k =>
      let payload := load64 (mem s) index in
      let payload_val := Z.land payload PAYLOAD_MASK in
      match dump_heap k s (wrap (index + (payload_val + ALIGNMENT))) with
      | Some rows => Some ((index, payload, payload_val) :: rows)
      | None => None
      end
    end.

End Implicit.

(** ** Abstract view of a heap

    A heap is described by the list of its blocks in address order and by the
    list of the addresses on the free list. *)

Record block := mkBlock { addr : Z; size : Z; is_free : bool }.

(** The header word of a block: its payload size, plus one when it is used. *)
Definition enc (b : block) : Z := size b + (if is_free b then 0 else 1).

(** The address one past the block: header and payload. *)
Definition next_addr (b : block) : Z := addr b + 8 + size b.

(** [layout m a bl e]: the headers in [m] split [a .. e) into the blocks [bl]. *)
Fixpoint layout (m : memory) (a : Z) (bl : list block) (e : Z) : Prop :=
  match bl with
  | [] => a = e
  | b :: bl' =>
    addr b = a /\ load64 m a = enc b /\ size b mod 8 = 0
    /\ layout m (a + 8 + size b) bl' e
  end.

(** [lseg m p c l e]: following [next] pointers from [c] visits exactly [l] and
    then reaches [e]; [p] is what the [prev] pointer of the first node holds,
    and every later [prev] points to the node before. *)
Fixpoint lseg (m : memory) (p c : Z) (l : list Z) (e : Z) : Prop :=
  match l with
  | [] => c = e
  | x :: l' =>
    c = x /\ x <> 0 /\ load64 m (x + 8) = p
    /\ lseg m x (load64 m (x + 16)) l' e
  end.

Definition free_addrs (bl : list block) : list Z :=
  map addr (filter is_free bl).

Definition used_ptrs (bl : list block) : list Z :=
  map (fun b => addr b + 8) (filter (fun b => negb (is_free b)) bl).

Definition total_size (bl : list block) : Z :=
  fold_right (fun b acc => size b + 8 + acc) 0 bl.

Definition spaced (l : list Z) : Prop :=
  forall y z, In y l -> In z l -> y = z \/ y + 24 <= z \/ z + 24 <= y.

(** [heap_pre s bl fl]: the region of [s] is split into the blocks [bl], no
    payload is smaller than the two link fields, and the free list is a
    well-formed doubly-linked list [fl] of block addresses. *)
Record heap_pre (s : Explicit.state) (bl : list block) (fl : list Z) : Prop := {
  pre_base : 0 < Explicit.segment_start s;
  pre_end : Explicit.heap_end s <= 2 ^ 63;
  pre_size : Explicit.heap_end s = Explicit.segment_start s + Explicit.segment_size s;
  pre_layout :
    layout (Explicit.mem s) (Explicit.segment_start s) bl (Explicit.heap_end s);
  pre_min : Forall (fun b => 16 <= size b) bl;
  pre_list : lseg (Explicit.mem s) 0 (Explicit.freelist_start s) fl 0;
  pre_nodup : NoDup fl;
  pre_incl : forall x, In x fl -> In x (map addr bl)
}.

(** [heap_wf s bl fl]: moreover the free list holds exactly the free blocks. *)
Definition heap_wf (s : Explicit.state) (bl : list block) (fl : list Z) : Prop :=
  heap_pre s bl fl /\ forall x, In x fl <-> In x (free_addrs bl).

(** The bounds of the region are the same in both states. *)
Definition same_globals (s s' : Explicit.state) : Prop :=
  Explicit.segment_start s' = Explicit.segment_start s
  /\ Explicit.segment_size s' = Explicit.segment_size s
  /\ Explicit.heap_end s' = Explicit.heap_end s.

(** What [coalesce] does to a block [b] followed by the blocks [l2]. *)
Definition merge_next (b : block) (l2 : list block) : list block :=
  match l2 with
  | nb :: l2' =>
    if is_free nb
    then mkBlock (addr b) (size b + 8 + size nb) (is_free b) :: l2'
    else b :: l2
  | [] => [b]
  end.

(** What [mymalloc] does to the free block [b] it found, followed by [l2],
    for the rounded request [r]. *)
Definition malloc_blocks (r : Z) (b : block) (l2 : list block) : list block :=
  match l2 with
  | [] =>
    if r + 24 <=? size b
    then [mkBlock (addr b) r false; mkBlock (addr b + 8 + r) (size b - r - 8) true]
    else [mkBlock (addr b) (size b) false]
  | _ :: _ => mkBlock (addr b) (size b) false :: l2
  end.

(** What the loop of [coalesce_multiple_blocks] does to [b] followed by [l2]. *)
Fixpoint absorb (req : Z) (b : block) (l2 : list block) : block * list block :=
  match l2 with
  | nb :: l2' =>
    if is_free nb && (size b <? req)
    then absorb req (mkBlock (addr b) (size b + 8 + size nb) (is_free b)) l2'
    else (b, l2)
  | [] => (b, [])
  end.

(** What an in-place [myrealloc] does to the used block [b] followed by
    [l2], for the rounded request [r]. *)
Definition realloc_blocks (r : Z) (b : block) (l2 : list block) : list block :=
  let b1 := fst (absorb r b l2) in
  let l2' := snd (absorb r b l2) in
  match l2' with
  | [] =>
    if r + 24 <? size b1
    then [mkBlock (addr b) r false; mkBlock (addr b + 8 + r) (size b1 - r - 8) true]
    else [b1]
  | _ :: _ =>
    if r + 24 <=? size b
    then mkBlock (addr b) r false
         :: merge_next (mkBlock (addr b + 8 + r) (size b - r - 8) true) l2'
    else b1 :: l2'
  end.

(** ** Runs of the explicit allocator

    [live] lists the pointers the caller owns: returned by [mymalloc] or
    [myrealloc] and not yet released. *)

Definition realloc_live (live : list Z) (p n p' : Z) : list Z :=
  if p =? 0 then (if p' =? 0 then live else p' :: live)
  else if n =? 0 then remove Z.eq_dec p live
  else if p' =? p then live
  else p' :: remove Z.eq_dec p live.

(** A region the allocator can be given: it does not start at the null
    pointer, its size is a multiple of the alignment, and it lies in the lower
    half of the address space. *)
Definition valid_region (heap_start heap_size : Z) : Prop :=
  0 < heap_start /\ heap_size mod 8 = 0 /\ heap_start + heap_size <= 2 ^ 63.

(** States reached from a successful [myinit] by calls with valid arguments:
    sizes are [size_t] values, pointers passed to [myfree] and [myrealloc] are
    null or owned by the caller.  Between calls the caller may write into the
    payload of a block it owns. *)
Inductive reachable (max : Z) : Explicit.state -> list Z -> Prop :=
| reach_init s heap_start heap_size s' :
    valid_region heap_start heap_size ->
    Explicit.myinit s heap_start heap_size = (s', true) ->
    reachable max s' []
| reach_malloc s live fuel n s' p :
    reachable max s live -> 0 <= n < 2 ^ 64 ->
    Explicit.mymalloc max fuel s n = Some (s', p) ->
    reachable max s' (if p =? 0 then live else p :: live)
| reach_free s live p :
    reachable max s live -> p = 0 \/ In p live ->
    reachable max (Explicit.myfree s p) (remove Z.eq_dec p live)
| reach_realloc s live fuel p n s' p' :
    reachable max s live -> p = 0 \/ In p live -> 0 <= n < 2 ^ 64 ->
    Explicit.myrealloc max fuel s p n = Done (s', p') ->
    reachable max s' (realloc_live live p n p')
| reach_write s live p i v :
    reachable max s live -> In p live ->
    0 <= i < Explicit.get_payload s (p - 8) ->
    reachable max (Explicit.set_mem s (store8 (Explicit.mem s) (p + i) v)) live.

(** The invariant of the runs: the heap is well formed and the used blocks
    are exactly the ones the caller owns. *)
Definition Inv (s : Explicit.state) (live : list Z) : Prop :=
  exists bl fl, heap_wf s bl fl /\ forall p, In p live <-> In p (used_ptrs bl).

(** Nodes visited when following [next] from [curr] until the null pointer. *)
Fixpoint freelist_nodes (fuel : nat) (s : Explicit.state) (curr : Z)
  : option (list Z) :=
  if curr =? 0 then Some []
  else
    match fuel with
    | O => None
    | S k =>
      match freelist_nodes k s (Explicit.next_field s curr) with
      | Some l => Some (curr :: l)
      | None => None
      end
    end.

(** Block addresses visited when walking the region from [index] by header
    plus payload until [heap_end]; [None] on overshoot or without fuel. *)
Fixpoint block_addrs (fuel : nat) (s : Explicit.state) (index : Z)
  : option (list Z) :=
  if index =? Explicit.heap_end s then Some []
  else
    match fuel with
    | O => None
    | S k =>
      if Explicit.heap_end s <? index then None
      else
        match block_addrs k s (index + ALIGNMENT + Explicit.get_payload s index) with
        | Some l => Some (index :: l)
        | None => None
        end
    end.

(** ** Scripts of calls, for concrete runs *)

Inductive call : Type :=
| Malloc (n : Z)
| Free (p : Z)
| Realloc (p n : Z)
| Store (p i v : Z).

Definition owned (live : list Z) (p : Z) : bool := existsb (Z.eqb p) live.

Definition is_size (n : Z) : bool := (0 <=? n) && (n <? 2 ^ 64).

(** One call on a state and the pointers owned; [None] when the arguments
    are not valid or the call does not return. *)
Definition step_call (max : Z) (fuel : nat) (sl : Explicit.state * list Z)
  (c : call) : option (Explicit.state * list Z) :=
  let (s, live) := sl in
  match c with
  | Malloc n =>
    if is_size n then
      match Explicit.mymalloc max fuel s n with
      | Some (s', p) => Some (s', if p =? 0 then live else p :: live)
      | None => None
      end
    else None
  | Free p =>
    if (p =? 0) || owned live p
    then Some (Explicit.myfree s p, remove Z.eq_dec p live)
    else None
  | Realloc p n =>
    if ((p =? 0) || owned live p) && is_size n then
      match Explicit.myrealloc max fuel s p n with
      | Done (s', p') => Some (s', realloc_live live p n p')
      | _ => None
      end
    else None
  | Store p i v =>
    if owned live p && (0 <=? i) && (i <? Explicit.get_payload s (p - 8))
    then Some (Explicit.set_mem s (store8 (Explicit.mem s) (p + i) v), live)
    else None
  end.

Fixpoint run_calls (max : Z) (fuel : nat) (sl : Explicit.state * list Z)
  (cs : list call) : option (Explicit.state * list Z) :=
  match cs with
  | [] => Some sl
  | c :: cs' =>
    match step_call max fuel sl c with
    | Some sl' => run_calls max fuel sl' cs'
    | None => None
    end
  end.

(** A memory of zero bytes and no heap yet. *)
Definition blank : Explicit.state := Explicit.mkState (fun _ => 0) 0 0 0 0.

(** [myinit] on the blank state followed by a script. *)
Definition heap_after (max : Z) (fuel : nat) (heap_start heap_size : Z)
  (cs : list call) : option (Explicit.state * list Z) :=
  let (s, ok) := Explicit.myinit blank heap_start heap_size in
  if ok then run_calls max fuel (s, []) cs else None.

Definition state_of (o : option (Explicit.state * list Z)) : Explicit.state :=
  match o with Some (s, _) => s | None => blank end.

Definition live_of (o : option (Explicit.state * list Z)) : list Z :=
  match o with Some (_, live) => live | None => [] end.

Definition returns {A : Type} (o : option A) : bool :=
  match o with Some _ => true | None => false end.

(** The value of [MAX_REQUEST_SIZE] used in the concrete runs. *)
Definition example_max : Z := 2 ^ 30.

(** A 64-byte heap at address 8, fresh from [myinit]. *)
Definition heap64 : option (Explicit.state * list Z) :=
  heap_after example_max 8 8 64 [].

(** The same heap after [mymalloc(40)], which takes its only block whole. *)
Definition heap64_full : option (Explicit.state * list Z) :=
  heap_after example_max 8 8 64 [Malloc 40].

(** ** Well-formed heaps of implicit.c *)

(** [iheap s bl]: the headers of [s] split its region into the blocks [bl]. *)
Definition iheap (s : Implicit.state) (bl : list block) : Prop :=
  0 < Implicit.segment_start s /\ Implicit.heap_end s <= 2 ^ 63
  /\ layout (Implicit.mem s) (Implicit.segment_start s) bl (Implicit.heap_end s).

(** A 128-byte heap at address 8 with two blocks of 16 bytes handed out (at
    16 and 40) and the byte 77 written at offset 3 of the first. *)
Definition heap128_two : option (Explicit.state * list Z) :=
  heap_after example_max 8 8 128 [Malloc 16; Malloc 16; Store 16 3 77].

(** The same heap after more traffic, ending with a block moved by
    [myrealloc] and a release. *)
Definition heap128_busy : option (Explicit.state * list Z) :=
  heap_after example_max 8 8 128
    [Malloc 16; Malloc 16; Store 16 3 77; Realloc 16 40; Free 40].

(** A 128-byte heap with one block of 16 bytes handed out (at 16), followed
    by one free block. *)
Definition heap128_one : option (Explicit.state * list Z) :=
  heap_after example_max 8 8 128 [Malloc 16].

(** A 128-byte heap with a used block of 64 bytes (at 16) followed by a used
    block of 16 bytes. *)
Definition heap128_wide : option (Explicit.state * list Z) :=
  heap_after example_max 8 8 128 [Malloc 64; Malloc 16].

(** A 128-byte heap with a used block of 16 bytes (at 16), then a free block
    of 48 bytes, then a used block, then the free tail. *)
Definition heap128_gap : option (Explicit.state * list Z) :=
  heap_after example_max 8 8 128 [Malloc 16; Malloc 48; Malloc 16; Free 40].

Definition is_done {A : Type} (o : outcome A) : bool :=
  match o with Done _ => true | _ => false end.

Definition done_state {S : Type} (d : S) (o : outcome (S * Z)) : S :=
  match o with Done (s, _) => s | _ => d end.

Definition done_ptr {S : Type} (o : outcome (S * Z)) : Z :=
  match o with Done (_, p) => p | _ => 0 end.

(** The state in which the implicit [mymalloc] leaves the heap when it hands
    out the free block [c] for the rounded request [r]; [last] tells whether
    [c] is the last block of the region. *)
Definition itake (s : Implicit.state) (r : Z) (c : block) (last : bool)
  : Implicit.state :=
  if last then
    if r + 16 <=? size c
    then Implicit.set_mem s
           (store64 (store64 (Implicit.mem s) (addr c) (r + 1))
                    (addr c + 8 + r) (size c - r - 8))
    else Implicit.set_mem s (store64 (Implicit.mem s) (addr c) (r + 1))
  else Implicit.set_mem s (store64 (Implicit.mem s) (addr c) (size c + 1)).

(** The blocks that replace the free block [c], followed by [l2], when the
    implicit [mymalloc] hands it out for the rounded request [r]. *)
Definition imalloc_blocks (r : Z) (c : block) (l2 : list block) : list block :=
  match l2 with
  | [] =>
    if r + 16 <=? size c
    then [mkBlock (addr c) r false; mkBlock (addr c + 8 + r) (size c - r - 8) true]
    else [mkBlock (addr c) r false]
  | _ :: _ => mkBlock (addr c) (size c) false :: l2
  end.

(** The test of the search loops: a free block with room for [r] bytes. *)
Definition fits (r : Z) (c : block) : bool := is_free c && (r <=? size c).

(** An implicit heap of 128 bytes at address 8 with two blocks of 16 bytes
    handed out (at 16 and 40), the byte 77 written at offset 3 of the first,
    and a free tail. *)
Definition iblank : Implicit.state := Implicit.mkState (fun _ => 0) 0 0 0.

Definition imalloc_state (s : Implicit.state) (n : Z) : Implicit.state :=
  match Implicit.mymalloc 8 s n with Some (s', _) => s' | None => s end.

Definition iheap128 : Implicit.state :=
  let s := imalloc_state (imalloc_state (fst (Implicit.myinit iblank 8 128)) 16) 16 in
  Implicit.set_mem s (store8 (Implicit.mem s) 19 77).

Definition iheap128_blocks : list block :=
  [mkBlock 8 16 false; mkBlock 32 16 false; mkBlock 56 72 true].

(** The state and the pointer of a call that returned. *)
Definition some_fst {S : Type} (d : S) (o : option (S * Z)) : S :=
  match o with Some (s, _) => s | None => d end.

Definition some_snd {S : Type} (o : option (S * Z)) : Z :=
  match o with Some (_, p) => p | None => 0 end.

(** An implicit heap of 32 bytes at address 8, fresh from [myinit]: one free
    block with a payload of 24 bytes. *)
Definition iheap32 : Implicit.state := fst (Implicit.myinit iblank 8 32).

Definition iheap32_blocks : list block := [mkBlock 8 24 true].

(** ** A run of the implicit allocator that loses eight bytes

    A 128-byte heap at address 8.  The caller takes the whole heap (120
    bytes, at 16), writes the word [2^64 - 119] into its last eight bytes
    (address 128) and releases it. *)
Definition iwrite64 (s : Implicit.state) (a v : Z) : Implicit.state :=
  Implicit.set_mem s (store64 (Implicit.mem s) a v).

Definition igap_init : Implicit.state := fst (Implicit.myinit iblank 8 128).

Definition igap_stale : Implicit.state :=
  Implicit.myfree (iwrite64 (imalloc_state igap_init 120) 128 (2 ^ 64 - 119)) 16.

(** A block of 16 bytes is handed out at 16, then one of 88 bytes at 40: the
    last block had a payload of 96, one header more than the request, and
    [mymalloc] writes the request into its header; the bytes 128..135 belong
    to no block any more. *)
Definition igap_one : Implicit.state := imalloc_state igap_stale 16.

Definition igap_two : Implicit.state := imalloc_state igap_one 88.

(** The caller writes the word 16 into the block at 16 and the byte 77 at
    offset 8 of the block at 40. *)
Definition igap_heap : Implicit.state :=
  let s := iwrite64 igap_two 16 16 in
  Implicit.set_mem s (store8 (Implicit.mem s) 48 77).

(** ** Facts about words and memory *)

Lemma wrap_small x : 0 <= x < 2 ^ 64 -> wrap x = x.
Proof. intros; unfold wrap; apply Z.mod_small; assumption. Qed.

Lemma wrap_range x : 0 <= wrap x < 2 ^ 64.
Proof. unfold wrap; apply Z.mod_pos_bound; lia. Qed.

Lemma load8_range m a : 0 <= load8 m a < 256.
Proof. unfold load8; apply Z.mod_pos_bound; lia. Qed.

Lemma load64_range m a : 0 <= load64 m a < 2 ^ 64.
Proof.
  unfold load64.
  pose proof (load8_range m a). pose proof (load8_range m (a + 1)).
  pose proof (load8_range m (a + 2)). pose proof (load8_range m (a + 3)).
  pose proof (load8_range m (a + 4)). pose proof (load8_range m (a + 5)).
  pose proof (load8_range m (a + 6)). pose proof (load8_range m (a + 7)).
  lia.
Qed.

Lemma load64_ext m m' a :
  (forall i, 0 <= i < 8 -> m' (a + i) = m (a + i)) -> load64 m' a = load64 m a.
Proof.
  intros H. unfold load64, load8.
  pose proof (H 0) as H0. rewrite Z.add_0_r in H0.
  rewrite H0, (H 1), (H 2), (H 3), (H 4), (H 5), (H 6), (H 7) by lia.
  reflexivity.
Qed.

Lemma store64_other m a v x : x < a \/ a + 8 <= x -> store64 m a v x = m x.
Proof.
  intros H. unfold store64.
  destruct (a <=? x) eqn:E1; destruct (x <? a + 8) eqn:E2; simpl; try reflexivity.
  apply Z.leb_le in E1. apply Z.ltb_lt in E2. lia.
Qed.

Lemma store64_byte m a v i :
  0 <= i < 8 -> store64 m a v (a + i) = (v / 2 ^ (8 * i)) mod 256.
Proof.
  intros H. unfold store64.
  replace (a <=? a + i) with true by (symmetry; apply Z.leb_le; lia).
  replace (a + i <? a + 8) with true by (symmetry; apply Z.ltb_lt; lia).
  simpl. replace (a + i - a) with i by lia. reflexivity.
Qed.

Lemma load64_store64_other m a v b :
  b + 8 <= a \/ a + 8 <= b -> load64 (store64 m a v) b = load64 m b.
Proof.
  intros H. apply load64_ext. intros i Hi. apply store64_other. lia.
Qed.

Lemma mod_split v k :
  0 <= k -> v mod 2 ^ (k + 8) = v mod 2 ^ k + 2 ^ k * ((v / 2 ^ k) mod 256).
Proof.
  intros Hk. rewrite Z.pow_add_r by lia.
  apply Z.rem_mul_r; [apply Z.pow_nonzero; lia | reflexivity].
Qed.

Lemma bytes_of_word v :
  (v mod 256) + 2 ^ 8 * ((v / 2 ^ 8) mod 256) + 2 ^ 16 * ((v / 2 ^ 16) mod 256)
  + 2 ^ 24 * ((v / 2 ^ 24) mod 256) + 2 ^ 32 * ((v / 2 ^ 32) mod 256)
  + 2 ^ 40 * ((v / 2 ^ 40) mod 256) + 2 ^ 48 * ((v / 2 ^ 48) mod 256)
  + 2 ^ 56 * ((v / 2 ^ 56) mod 256) = v mod 2 ^ 64.
Proof.
  pose proof (mod_split v 56 ltac:(lia)) as H7. change (56 + 8) with 64 in H7.
  pose proof (mod_split v 48 ltac:(lia)) as H6. change (48 + 8) with 56 in H6.
  pose proof (mod_split v 40 ltac:(lia)) as H5. change (40 + 8) with 48 in H5.
  pose proof (mod_split v 32 ltac:(lia)) as H4. change (32 + 8) with 40 in H4.
  pose proof (mod_split v 24 ltac:(lia)) as H3. change (24 + 8) with 32 in H3.
  pose proof (mod_split v 16 ltac:(lia)) as H2. change (16 + 8) with 24 in H2.
  pose proof (mod_split v 8 ltac:(lia)) as H1. change (8 + 8) with 16 in H1.
  change (v mod 2 ^ 8) with (v mod 256) in H1.
  rewrite H7, H6, H5, H4, H3, H2, H1. reflexivity.
Qed.

Lemma load64_store64_same m a v : load64 (store64 m a v) a = wrap v.
Proof.
  unfold load64, load8.
  pose proof (store64_byte m a v 0) as H0. rewrite Z.add_0_r in H0.
  rewrite H0, !store64_byte by lia.
  rewrite !Z.mod_mod by lia. simpl Z.mul.
  rewrite Z.pow_0_r, Z.div_1_r. apply bytes_of_word.
Qed.

(** ** Header masks *)

Lemma payload_mask_val : wrap (Z.lnot 7) = 2 ^ 64 - 8.
Proof. reflexivity. Qed.

Lemma land_free_mask v : 0 <= v -> Z.land v 7 = v mod 8.
Proof. intros _. change 7 with (Z.ones 3). rewrite Z.land_ones by lia. reflexivity. Qed.

Lemma land_payload_mask v : 0 <= v < 2 ^ 64 -> Z.land v (2 ^ 64 - 8) = v - v mod 8.
Proof.
  intros Hv.
  change (2 ^ 64 - 8) with (Z.land (Z.ones 64) (Z.lnot (Z.ones 3))).
  rewrite Z.land_assoc, Z.land_ones by lia.
  rewrite (Z.mod_small v) by lia.
  rewrite <- Z.ldiff_land.
  rewrite Z.ldiff_ones_r by lia.
  rewrite Z.shiftr_div_pow2, Z.shiftl_mul_pow2 by lia.
  change (2 ^ 3) with 8. pose proof (Z.div_mod v 8). lia.
Qed.

Lemma enc_range_payload b :
  size b mod 8 = 0 -> 0 <= enc b < 2 ^ 64 -> Z.land (enc b) (2 ^ 64 - 8) = size b.
Proof.
  intros Hm Hr. rewrite land_payload_mask by assumption.
  unfold enc in *. destruct (is_free b).
  - rewrite Z.add_0_r, Hm. lia.
  - replace ((size b + 1) mod 8) with 1; [lia|].
    rewrite <- Z.add_mod_idemp_l, Hm by lia. reflexivity.
Qed.

Lemma enc_range_free b :
  size b mod 8 = 0 -> 0 <= enc b -> (Z.land (enc b) 7 =? 0) = is_free b.
Proof.
  intros Hm Hr. rewrite land_free_mask by assumption.
  unfold enc. destruct (is_free b).
  - rewrite Z.add_0_r, Hm. reflexivity.
  - rewrite <- Z.add_mod_idemp_l, Hm by lia. reflexivity.
Qed.

Lemma enc_size_nonneg b : size b mod 8 = 0 -> 0 <= enc b -> 0 <= size b.
Proof.
  intros Hm Hr. unfold enc in Hr.
  pose proof (Z.div_mod (size b) 8). destruct (is_free b); lia.
Qed.

(** ** List segments *)

Lemma last_cons {A} (x : A) l d : last (x :: l) d = last l x.
Proof.
  revert x d. induction l as [|y l IH]; intros x d; [reflexivity|].
  change (last (x :: y :: l) d) with (last (y :: l) d).
  rewrite !IH. reflexivity.
Qed.

Lemma lseg_app m l1 : forall p c l2 e,
  lseg m p c (l1 ++ l2) e <->
  exists c', lseg m p c l1 c' /\ lseg m (last l1 p) c' l2 e.
Proof.
  induction l1 as [|x l1 IH]; intros p c l2 e; simpl app.
  - simpl. split.
    + intros H. exists c. split; [reflexivity | exact H].
    + intros [c' [-> H]]. exact H.
  - rewrite last_cons. cbn [lseg]. split.
    + intros (Hc & Hx & Hp & H). apply IH in H. destruct H as [c' [H1 H2]].
      exists c'. repeat split; assumption.
    + intros [c' [(Hc & Hx & Hp & H1) H2]]. repeat split; try assumption.
      apply IH. exists c'. split; assumption.
Qed.

Lemma lseg_nonzero m l : forall p c e y, lseg m p c l e -> In y l -> y <> 0.
Proof.
  induction l as [|x l IH]; intros p c e y H Hin; [destruct Hin|].
  destruct H as (Hc & Hx & Hp & H). destruct Hin as [<- | Hin]; [assumption|].
  eapply IH; eassumption.
Qed.

Lemma lseg_frame m m' l : forall p c e,
  lseg m p c l e ->
  (forall y, In y l ->
     load64 m' (y + 8) = load64 m (y + 8) /\ load64 m' (y + 16) = load64 m (y + 16)) ->
  lseg m' p c l e.
Proof.
  induction l as [|x l IH]; intros p c e H Hf; [exact H|].
  destruct H as (Hc & Hx & Hp & H).
  destruct (Hf x (or_introl eq_refl)) as [E1 E2].
  cbn [lseg]. rewrite E1, E2. repeat split; try assumption.
  apply IH; [assumption|]. intros y Hy. apply Hf. right. assumption.
Qed.

Lemma lseg_store m h v l p c e :
  lseg m p c l e ->
  (forall y, In y l -> h <= y \/ y + 24 <= h) ->
  lseg (store64 m h v) p c l e.
Proof.
  intros H Hs. eapply lseg_frame; [exact H|].
  intros y Hy. specialize (Hs y Hy).
  split; apply load64_store64_other; lia.
Qed.

Lemma lseg_head_nil m p c l : lseg m p c l 0 -> c = 0 -> l = [].
Proof.
  destruct l as [|x l]; [reflexivity|]. intros (Hc & Hx & _) E. congruence.
Qed.

Lemma spaced_incl l l' : spaced l -> incl l' l -> spaced l'.
Proof. intros H Hi y z Hy Hz. apply H; apply Hi; assumption. Qed.

Ltac splits := repeat match goal with |- _ /\ _ => split end.

Lemma NoDup_app_disjoint {A} (l1 l2 : list A) a :
  NoDup (l1 ++ l2) -> In a l1 -> In a l2 -> False.
Proof.
  induction l1 as [|b l1 IH]; intros ND H1 H2; [destruct H1|].
  simpl in ND. apply NoDup_cons_iff in ND. destruct ND as [Hb ND].
  destruct H1 as [-> | H1].
  - apply Hb. apply in_or_app. right. assumption.
  - apply IH; assumption.
Qed.

Lemma mod8_sum a b : a mod 8 = 0 -> b mod 8 = 0 -> (a + 8 + b) mod 8 = 0.
Proof.
  intros Ha Hb. pose proof (Z.div_mod a 8). pose proof (Z.div_mod b 8).
  replace (a + 8 + b) with ((a / 8 + 1 + b / 8) * 8) by lia.
  apply Z.mod_mul. lia.
Qed.

Lemma mod8_diff a b : a mod 8 = 0 -> b mod 8 = 0 -> (a - b - 8) mod 8 = 0.
Proof.
  intros Ha Hb. pose proof (Z.div_mod a 8). pose proof (Z.div_mod b 8).
  replace (a - b - 8) with ((a / 8 - b / 8 - 1) * 8) by lia.
  apply Z.mod_mul. lia.
Qed.

Lemma wrap_0 : wrap 0 = 0.
Proof. reflexivity. Qed.

(** ** The free list of explicit.c *)

Section ExplicitFreeList.
Import Explicit.

Lemma remove_freelist_fields s x :
  segment_start (remove_freelist s x) = segment_start s
  /\ segment_size (remove_freelist s x) = segment_size s
  /\ heap_end (remove_freelist s x) = heap_end s.
Proof.
  unfold remove_freelist.
  destruct (prev_field s x =? 0); destruct (next_field s x =? 0);
    simpl; repeat split; reflexivity.
Qed.

(** Unlinking a node of a well-formed list leaves the list without it, and
    writes only into the link fields of its two neighbours. *)
Lemma remove_freelist_lseg s l1 x l2 :
  lseg (mem s) 0 (freelist_start s) (l1 ++ x :: l2) 0 ->
  NoDup (l1 ++ x :: l2) -> spaced (l1 ++ x :: l2) ->
  lseg (mem (remove_freelist s x)) 0 (freelist_start (remove_freelist s x))
       (l1 ++ l2) 0
  /\ (forall a, (forall y, In y (l1 ++ l2) -> a < y + 8 \/ y + 24 <= a) ->
        mem (remove_freelist s x) a = mem s a).
Proof.
  intros H ND SP.
  apply lseg_app in H. destruct H as [c' [H1 (Hc & Hx & Hp & H2)]]. subst c'.
  pose proof (NoDup_remove _ _ _ ND) as [ND' Hnx].
  assert (Hr : forall v, 0 <= load64 (mem s) v < 2 ^ 64) by (intro; apply load64_range).
  unfold remove_freelist, prev_field, next_field.
  destruct l1 as [|z0 l1' _] using rev_ind.
  - simpl in *. rewrite Hp. simpl.
    destruct l2 as [|y l2'].
    + simpl in H2. rewrite H2. simpl. split; [reflexivity|]. intros; reflexivity.
    + destruct H2 as (E & Hy & Hpy & H2). rewrite E.
      replace (y =? 0) with false by (symmetry; apply Z.eqb_neq; assumption).
      simpl. split.
      * repeat split; try assumption.
        { rewrite load64_store64_same. reflexivity. }
        rewrite load64_store64_other by lia.
        apply lseg_store; [exact H2|]. intros y' Hy'.
        assert (y' <> y).
        { intros ->. apply NoDup_cons_iff in ND. destruct ND as [_ ND].
          apply NoDup_cons_iff in ND. tauto. }
        destruct (SP y y') as [|[|]]; simpl; auto; lia.
      * intros a Ha. apply store64_other.
        destruct (Ha y); [left; reflexivity| |]; lia.
  - rewrite last_last in Hp.
    apply lseg_app in H1. destruct H1 as [c1 [H1 (Hc1 & Hz & Hpz & Hnz)]].
    simpl in Hnz. subst c1.
    assert (Hz0 : (load64 (mem s) (x + 8) =? 0) = false)
      by (apply Z.eqb_neq; congruence).
    rewrite !Hz0, Hp.
    assert (Hxz : x <> z0).
    { intros ->. apply Hnx. apply in_or_app. left. apply in_or_app. right.
      left. reflexivity. }
    assert (Sxz : x + 24 <= z0 \/ z0 + 24 <= x).
    { destruct (SP x z0) as [|[|]]; try lia.
      - apply in_or_app; right; left; reflexivity.
      - apply in_or_app; left; apply in_or_app; right; left; reflexivity. }
    assert (Hl1 : forall y', In y' l1' -> y' <> z0 /\ (y' + 24 <= z0 \/ z0 + 24 <= y')).
    { intros y' Hy'.
      assert (y' <> z0).
      { intros ->. rewrite <- app_assoc in ND. apply NoDup_remove_2 in ND.
        apply ND. apply in_or_app. left. assumption. }
      destruct (SP y' z0) as [|[|]]; try lia.
      - apply in_or_app; left; apply in_or_app; left; assumption.
      - apply in_or_app; left; apply in_or_app; right; left; reflexivity. }
    destruct l2 as [|y l2'].
    + simpl in H2. rewrite H2. simpl. rewrite app_nil_r. split.
      * apply lseg_app. exists z0. split.
        { apply lseg_store; [exact H1|]. intros y' Hy'.
          destruct (Hl1 y' Hy'); lia. }
        simpl. repeat split; try assumption.
        { rewrite load64_store64_other by lia. assumption. }
        rewrite load64_store64_same. reflexivity.
      * intros a Ha. apply store64_other.
        destruct (Ha z0); [apply in_or_app; right; left; reflexivity| |]; lia.
    + destruct H2 as (E & Hy & Hpy & H2). rewrite E.
      replace (y =? 0) with false by (symmetry; apply Z.eqb_neq; assumption).
      simpl.
      assert (Hyz : y <> z0 /\ (y + 24 <= z0 \/ z0 + 24 <= y)).
      { assert (y <> z0).
        { intros ->. rewrite <- app_assoc in ND. apply NoDup_remove_2 in ND.
          apply ND. apply in_or_app. right. simpl. auto. }
        destruct (SP y z0) as [|[|]]; try lia.
        - apply in_or_app; right; right; left; reflexivity.
        - apply in_or_app; left; apply in_or_app; right; left; reflexivity. }
      assert (Hl2 : forall y', In y' l2' ->
                (y' + 24 <= z0 \/ z0 + 24 <= y') /\ (y' + 24 <= y \/ y + 24 <= y')).
      { intros y' Hy'.
        assert (y' <> z0).
        { intros ->. rewrite <- app_assoc in ND. apply NoDup_remove_2 in ND.
          apply ND. apply in_or_app. right. simpl. auto. }
        assert (y' <> y).
        { intros ->. apply NoDup_app_remove_l in ND.
          apply NoDup_cons_iff in ND. destruct ND as [_ ND].
          apply NoDup_cons_iff in ND. tauto. }
        split.
        - destruct (SP y' z0) as [|[|]]; try lia.
          + apply in_or_app; right; right; right; assumption.
          + apply in_or_app; left; apply in_or_app; right; left; reflexivity.
        - destruct (SP y' y) as [|[|]]; try lia.
          + apply in_or_app; right; right; right; assumption.
          + apply in_or_app; right; right; left; reflexivity. }
      assert (Hl1y : forall y', In y' l1' -> y' + 24 <= y \/ y + 24 <= y').
      { intros y' Hy'.
        assert (y' <> y).
        { intros ->. apply (NoDup_app_disjoint _ _ y ND);
            [apply in_or_app; left; assumption | simpl; auto]. }
        destruct (SP y' y) as [|[|]]; try lia.
        - apply in_or_app; left; apply in_or_app; left; assumption.
        - apply in_or_app; right; right; left; reflexivity. }
      split.
      * rewrite <- app_assoc. apply lseg_app. exists z0. split.
        { apply lseg_store; [apply lseg_store; [exact H1|]|];
            intros y' Hy'; destruct (Hl1 y' Hy'); pose proof (Hl1y y' Hy'); lia. }
        simpl. repeat split; try assumption.
        { rewrite !load64_store64_other by lia. assumption. }
        { rewrite load64_store64_same. apply wrap_small. rewrite <- E. apply Hr. }
        { rewrite load64_store64_other by lia.
          rewrite load64_store64_same. apply wrap_small. rewrite <- Hp. apply Hr. }
        rewrite !load64_store64_other by lia.
        apply lseg_store; [apply lseg_store; [exact H2|]|];
          intros y' Hy'; destruct (Hl2 y' Hy'); lia.
      * intros a Ha.
        rewrite store64_other.
        { apply store64_other.
          destruct (Ha y); [apply in_or_app; right; left; reflexivity| |]; lia. }
        destruct (Ha z0); [apply in_or_app; left; apply in_or_app; right; left; reflexivity| |]; lia.
Qed.

Lemma add_freelist_fields s x :
  segment_start (add_freelist s x) = segment_start s
  /\ segment_size (add_freelist s x) = segment_size s
  /\ heap_end (add_freelist s x) = heap_end s
  /\ freelist_start (add_freelist s x) = x.
Proof.
  unfold add_freelist. destruct (freelist_start s =? 0); simpl; repeat split.
Qed.

(** Pushing a node in front of a well-formed list. *)
Lemma add_freelist_lseg s fl x :
  lseg (mem s) 0 (freelist_start s) fl 0 ->
  0 < x < 2 ^ 64 -> 0 <= freelist_start s < 2 ^ 64 ->
  NoDup (x :: fl) -> spaced (x :: fl) ->
  lseg (mem (add_freelist s x)) 0 (freelist_start (add_freelist s x)) (x :: fl) 0
  /\ (forall a, (forall y, In y (x :: fl) -> a < y + 8 \/ y + 24 <= a) ->
        mem (add_freelist s x) a = mem s a).
Proof.
  intros H Hx Hh ND SP.
  apply NoDup_cons_iff in ND. destruct ND as [Hnin ND].
  unfold add_freelist, set_next, set_prev, set_freelist_start.
  destruct (freelist_start s =? 0) eqn:E.
  - apply Z.eqb_eq in E. pose proof (lseg_head_nil _ _ _ _ H E) as ->. simpl.
    split.
    + repeat split; try lia.
      * rewrite load64_store64_other by lia. rewrite load64_store64_same. reflexivity.
      * rewrite load64_store64_same. reflexivity.
    + intros a Ha. destruct (Ha x (or_introl eq_refl));
        rewrite !store64_other by lia; reflexivity.
  - apply Z.eqb_neq in E. destruct fl as [|h fl']; [simpl in H; congruence|].
    destruct H as (Hc & Hh0 & Hp & H). simpl.
    assert (Sxh : x + 24 <= h \/ h + 24 <= x).
    { destruct (SP x h) as [|[|]]; simpl; auto; try lia.
      subst. exfalso. apply Hnin. left. reflexivity. }
    apply NoDup_cons_iff in ND. destruct ND as [Hnh ND].
    rewrite Hc in *.
    split.
    + repeat split; try lia.
      * rewrite load64_store64_same. reflexivity.
      * rewrite load64_store64_other by lia. rewrite load64_store64_same.
        apply wrap_small. lia.
      * rewrite !load64_store64_other by lia. rewrite load64_store64_same.
        apply wrap_small. lia.
      * rewrite !load64_store64_other by lia.
        eapply lseg_frame; [exact H|]. intros y' Hy'.
        assert (y' + 24 <= x \/ x + 24 <= y').
        { destruct (SP y' x) as [|[|]]; simpl; auto; try lia.
          subst. exfalso. apply Hnin. right. assumption. }
        assert (y' + 24 <= h \/ h + 24 <= y').
        { destruct (SP y' h) as [|[|]]; simpl; auto; try lia.
          subst. exfalso. apply Hnh. assumption. }
        rewrite !load64_store64_other by lia. split; reflexivity.
    + intros a Ha.
      destruct (Ha x (or_introl eq_refl)); destruct (Ha h (or_intror (or_introl eq_refl)));
        rewrite !store64_other by lia; reflexivity.
Qed.

End ExplicitFreeList.

(** ** Block layouts *)

Lemma layout_app m l1 : forall a l2 e,
  layout m a (l1 ++ l2) e <-> exists c, layout m a l1 c /\ layout m c l2 e.
Proof.
  induction l1 as [|b l1 IH]; intros a l2 e; simpl app.
  - simpl. split.
    + intros H. exists a. split; [reflexivity | exact H].
    + intros [c [-> H]]. exact H.
  - cbn [layout]. split.
    + intros (Ha & Hl & Hm & H). apply IH in H. destruct H as [c [H1 H2]].
      exists c. repeat split; assumption.
    + intros [c [(Ha & Hl & Hm & H1) H2]]. repeat split; try assumption.
      apply IH. exists c. split; assumption.
Qed.

Lemma layout_head_size m a b bl e :
  layout m a (b :: bl) e -> 0 <= size b /\ 0 <= enc b < 2 ^ 64.
Proof.
  intros (Ha & Hl & Hm & H). pose proof (load64_range m a) as Hr.
  rewrite Hl in Hr. split; [|exact Hr].
  apply enc_size_nonneg; [assumption | lia].
Qed.

Lemma layout_le m bl : forall a e, layout m a bl e -> a <= e.
Proof.
  induction bl as [|b bl IH]; intros a e H.
  - simpl in H. lia.
  - pose proof (layout_head_size _ _ _ _ _ H) as [Hs _].
    destruct H as (Ha & Hl & Hm & H). apply IH in H. lia.
Qed.

Lemma layout_in m bl : forall a e b,
  layout m a bl e -> In b bl ->
  a <= addr b /\ next_addr b <= e /\ load64 m (addr b) = enc b
  /\ size b mod 8 = 0 /\ 0 <= size b.
Proof.
  induction bl as [|c bl IH]; intros a e b H Hin; [destruct Hin|].
  pose proof (layout_head_size _ _ _ _ _ H) as [Hs _].
  destruct H as (Ha & Hl & Hm & H).
  destruct Hin as [<- | Hin].
  - pose proof (layout_le _ _ _ _ H). unfold next_addr.
    rewrite Ha. repeat split; try assumption; lia.
  - destruct (IH _ _ _ H Hin) as (H1 & H2 & H3 & H4 & H5).
    repeat split; try assumption; lia.
Qed.

Lemma layout_frame m m' bl : forall a e,
  layout m a bl e -> (forall x, a <= x < e -> m' x = m x) -> layout m' a bl e.
Proof.
  induction bl as [|b bl IH]; intros a e H Hf; [exact H|].
  pose proof (layout_head_size _ _ _ _ _ H) as [Hs _].
  destruct H as (Ha & Hl & Hm & H).
  pose proof (layout_le _ _ _ _ H) as Hle.
  cbn [layout]. repeat split; try assumption.
  - rewrite <- Hl. apply load64_ext. intros i Hi. apply Hf. lia.
  - apply IH; [assumption|]. intros x Hx. apply Hf. lia.
Qed.

Lemma layout_store m h v bl a e :
  layout m a bl e -> h + 8 <= a \/ e <= h -> layout (store64 m h v) a bl e.
Proof.
  intros H Hh. eapply layout_frame; [exact H|].
  intros x Hx. apply store64_other. lia.
Qed.

Lemma layout_sep m bl : forall a e b1 b2,
  layout m a bl e -> In b1 bl -> In b2 bl ->
  b1 = b2 \/ next_addr b1 <= addr b2 \/ next_addr b2 <= addr b1.
Proof.
  induction bl as [|c bl IH]; intros a e b1 b2 H H1 H2; [destruct H1|].
  pose proof H as (Ha & Hl & Hm & H').
  destruct H1 as [<- | H1]; destruct H2 as [<- | H2].
  - left; reflexivity.
  - right; left. destruct (layout_in _ _ _ _ _ H' H2) as [Hb _].
    unfold next_addr. lia.
  - right; right. destruct (layout_in _ _ _ _ _ H' H1) as [Hb _].
    unfold next_addr. lia.
  - eapply IH; eassumption.
Qed.

Lemma layout_addr_inj m bl a e b1 b2 :
  layout m a bl e -> In b1 bl -> In b2 bl -> addr b1 = addr b2 -> b1 = b2.
Proof.
  intros H H1 H2 E.
  destruct (layout_in _ _ _ _ _ H H1) as (_ & _ & _ & _ & S1).
  destruct (layout_in _ _ _ _ _ H H2) as (_ & _ & _ & _ & S2).
  destruct (layout_sep _ _ _ _ _ _ H H1 H2) as [|[|]];
    [assumption | unfold next_addr in *; lia ..].
Qed.

Lemma layout_total m bl : forall a e, layout m a bl e -> e = a + total_size bl.
Proof.
  induction bl as [|b bl IH]; intros a e H.
  - simpl in *. lia.
  - destruct H as (Ha & Hl & Hm & H). apply IH in H. simpl. lia.
Qed.

Lemma free_addrs_app l1 l2 : free_addrs (l1 ++ l2) = free_addrs l1 ++ free_addrs l2.
Proof. unfold free_addrs. rewrite filter_app, map_app. reflexivity. Qed.

Lemma used_ptrs_app l1 l2 : used_ptrs (l1 ++ l2) = used_ptrs l1 ++ used_ptrs l2.
Proof. unfold used_ptrs. rewrite filter_app, map_app. reflexivity. Qed.

Lemma in_free_addrs bl x :
  In x (free_addrs bl) <-> exists b, In b bl /\ addr b = x /\ is_free b = true.
Proof.
  unfold free_addrs. rewrite in_map_iff. split.
  - intros [b [E Hb]]. apply filter_In in Hb. exists b. tauto.
  - intros [b (Hb & E & Hf)]. exists b. split; [assumption|].
    apply filter_In. tauto.
Qed.

Lemma in_used_ptrs bl p :
  In p (used_ptrs bl) <-> exists b, In b bl /\ addr b + 8 = p /\ is_free b = false.
Proof.
  unfold used_ptrs. rewrite in_map_iff. split.
  - intros [b [E Hb]]. apply filter_In in Hb. exists b.
    destruct Hb as [Hb Hf]. apply negb_true_iff in Hf. tauto.
  - intros [b (Hb & E & Hf)]. exists b. split; [assumption|].
    apply filter_In. rewrite Hf. tauto.
Qed.

(** ** Well-formed heaps of explicit.c *)

Section ExplicitHeap.
Import Explicit.

Lemma same_globals_refl s : same_globals s s.
Proof. repeat split. Qed.

Lemma same_globals_trans s1 s2 s3 :
  same_globals s1 s2 -> same_globals s2 s3 -> same_globals s1 s3.
Proof. unfold same_globals. intuition congruence. Qed.

Lemma pre_block s bl fl b :
  heap_pre s bl fl -> In b bl ->
  segment_start s <= addr b /\ next_addr b <= heap_end s
  /\ 0 < addr b /\ next_addr b <= 2 ^ 63
  /\ 16 <= size b /\ size b mod 8 = 0 /\ load64 (mem s) (addr b) = enc b.
Proof.
  intros H Hb.
  destruct (layout_in _ _ _ _ _ (pre_layout _ _ _ H) Hb) as (H1 & H2 & H3 & H4 & H5).
  pose proof (pre_base _ _ _ H). pose proof (pre_end _ _ _ H).
  pose proof (pre_min _ _ _ H) as Hm. rewrite Forall_forall in Hm.
  specialize (Hm b Hb). simpl in Hm.
  repeat split; try assumption; lia.
Qed.

Lemma pre_fl_block s bl fl x :
  heap_pre s bl fl -> In x fl -> exists b, In b bl /\ addr b = x.
Proof.
  intros H Hx. apply (pre_incl _ _ _ H) in Hx. apply in_map_iff in Hx.
  destruct Hx as [b [E Hb]]. exists b. split; assumption.
Qed.

Lemma pre_spaced s bl fl : heap_pre s bl fl -> spaced fl.
Proof.
  intros H y z Hy Hz.
  destruct (pre_fl_block _ _ _ _ H Hy) as [by_ [Hby <-]].
  destruct (pre_fl_block _ _ _ _ H Hz) as [bz [Hbz <-]].
  destruct (pre_block _ _ _ _ H Hby) as (_ & _ & _ & _ & Sy & _).
  destruct (pre_block _ _ _ _ H Hbz) as (_ & _ & _ & _ & Sz & _).
  destruct (layout_sep _ _ _ _ _ _ (pre_layout _ _ _ H) Hby Hbz) as [->|[|]];
    unfold next_addr in *; [left; reflexivity | right; left; lia | right; right; lia].
Qed.

Lemma pre_head_range s bl fl : heap_pre s bl fl -> 0 <= freelist_start s < 2 ^ 64.
Proof.
  intros H. pose proof (pre_list _ _ _ H) as Hl.
  destruct fl as [|x fl].
  - simpl in Hl. rewrite Hl. lia.
  - destruct Hl as (-> & _).
    destruct (pre_fl_block _ _ _ x H (or_introl eq_refl)) as [b [Hb <-]].
    destruct (pre_block _ _ _ _ H Hb) as (_ & _ & B1 & B2 & B3 & _).
    unfold next_addr in B2. lia.
Qed.

Lemma block_get_payload s bl fl b :
  heap_pre s bl fl -> In b bl -> get_payload s (addr b) = size b.
Proof.
  intros H Hb. destruct (pre_block _ _ _ _ H Hb) as (_ & _ & _ & _ & _ & Hm & Hl).
  unfold get_payload, payload_field, PAYLOAD_MASK. rewrite payload_mask_val, Hl.
  apply enc_range_payload; [assumption|]. rewrite <- Hl. apply load64_range.
Qed.

Lemma block_check_free s bl fl b :
  heap_pre s bl fl -> In b bl -> check_free s (addr b) = is_free b.
Proof.
  intros H Hb. destruct (pre_block _ _ _ _ H Hb) as (_ & _ & Hp & _ & _ & Hm & Hl).
  unfold check_free, payload_field, FREE_MASK.
  replace (addr b =? 0) with false by (symmetry; apply Z.eqb_neq; lia).
  rewrite Hl. apply enc_range_free; [assumption|].
  rewrite <- Hl. apply load64_range.
Qed.

(** Rewriting the headers inside a run of blocks. *)
Lemma pre_replace s s' l1 mid mid' l2 fl A E :
  heap_pre s (l1 ++ mid ++ l2) fl ->
  layout (mem s) (segment_start s) l1 A -> layout (mem s) A mid E ->
  same_globals s s' -> freelist_start s' = freelist_start s ->
  (forall x, x < A \/ E <= x -> mem s' x = mem s x) ->
  (forall c, In c mid -> In (addr c) fl ->
     forall x, addr c + 8 <= x < addr c + 24 -> mem s' x = mem s x) ->
  layout (mem s') A mid' E -> Forall (fun b => 16 <= size b) mid' ->
  (forall c, In c mid -> In (addr c) fl -> In (addr c) (map addr mid')) ->
  heap_pre s' (l1 ++ mid' ++ l2) fl.
Proof.
  intros H HA HE (G1 & G2 & G3) Gh Hout Hlinks Hmid' Hmin' Hincl.
  pose proof (pre_layout _ _ _ H) as HL.
  apply layout_app in HL. destruct HL as [A' [HL1 HL]].
  apply layout_app in HL. destruct HL as [E' [HLm HL2]].
  assert (A' = A) by (apply layout_total in HL1; apply layout_total in HA; lia).
  subst A'.
  assert (E' = E) by (apply layout_total in HLm; apply layout_total in HE; lia).
  subst E'.
  pose proof (layout_le _ _ _ _ HA). pose proof (layout_le _ _ _ _ HE).
  pose proof (layout_le _ _ _ _ HL2).
  pose proof (pre_min _ _ _ H) as Hmin.
  apply Forall_app in Hmin. destruct Hmin as [Hmin1 Hmin].
  apply Forall_app in Hmin. destruct Hmin as [_ Hmin2].
  constructor.
  - rewrite G1. exact (pre_base _ _ _ H).
  - rewrite G3. exact (pre_end _ _ _ H).
  - rewrite G1, G2, G3. exact (pre_size _ _ _ H).
  - rewrite G1, G3. apply layout_app. exists A. split.
    + eapply layout_frame; [exact HA|]. intros x Hx. apply Hout. lia.
    + apply layout_app. exists E. split; [exact Hmid'|].
      eapply layout_frame; [exact HL2|]. intros x Hx. apply Hout. lia.
  - apply Forall_app. split; [assumption|]. apply Forall_app. split; assumption.
  - rewrite Gh. eapply lseg_frame; [exact (pre_list _ _ _ H)|].
    intros y Hy.
    destruct (pre_fl_block _ _ _ _ H Hy) as [c [Hc <-]].
    destruct (pre_block _ _ _ _ H Hc) as (_ & _ & _ & _ & Sc & _).
    apply in_app_or in Hc. destruct Hc as [Hc | Hc];
      [|apply in_app_or in Hc; destruct Hc as [Hc | Hc]].
    + destruct (layout_in _ _ _ _ _ HA Hc) as (_ & B & _). unfold next_addr in B.
      split; apply load64_ext; intros i Hi; apply Hout; lia.
    + split; apply load64_ext; intros i Hi; apply (Hlinks c Hc Hy); lia.
    + destruct (layout_in _ _ _ _ _ HL2 Hc) as (B & _).
      split; apply load64_ext; intros i Hi; apply Hout; lia.
  - exact (pre_nodup _ _ _ H).
  - intros x Hx. destruct (pre_fl_block _ _ _ _ H Hx) as [c [Hc <-]].
    rewrite !map_app, !in_app_iff.
    apply in_app_or in Hc. destruct Hc as [Hc | Hc];
      [|apply in_app_or in Hc; destruct Hc as [Hc | Hc]].
    + left. apply in_map. assumption.
    + right; left. apply Hincl; assumption.
    + right; right. apply in_map. assumption.
Qed.

Lemma layout_frame_headers m m' bl : forall a e,
  layout m a bl e ->
  (forall b i, In b bl -> 0 <= i < 8 -> m' (addr b + i) = m (addr b + i)) ->
  layout m' a bl e.
Proof.
  induction bl as [|b bl IH]; intros a e H Hf; [exact H|].
  destruct H as (Ha & Hl & Hm & H).
  cbn [layout]. repeat split; try assumption.
  - rewrite <- Hl, <- Ha. apply load64_ext. intros i Hi. apply Hf; [left; reflexivity | lia].
  - apply IH; [assumption|]. intros c i Hc Hi. apply Hf; [right; assumption | assumption].
Qed.

Lemma layout_mid m l1 b l2 a e :
  layout m a (l1 ++ b :: l2) e ->
  layout m a l1 (addr b) /\ layout m (addr b) [b] (next_addr b)
  /\ layout m (next_addr b) l2 e.
Proof.
  intros H. apply layout_app in H. destruct H as [c [H1 (Ha & Hl & Hm & H2)]].
  subst c. unfold next_addr. simpl. repeat split; assumption.
Qed.

Lemma layout_fresh m l1 b l2 a e :
  layout m a (l1 ++ b :: l2) e ->
  ~ In (addr b) (map addr l1) /\ ~ In (addr b) (map addr l2).
Proof.
  intros H. pose proof (layout_mid _ _ _ _ _ _ H) as (H1 & _ & H2).
  assert (Hb : In b (l1 ++ b :: l2)) by (apply in_or_app; right; left; reflexivity).
  destruct (layout_in _ _ _ _ _ H Hb) as (_ & _ & _ & _ & Sb).
  split; intros Hin; apply in_map_iff in Hin; destruct Hin as [c [E Hc]].
  - destruct (layout_in _ _ _ _ _ H1 Hc) as (_ & B & _ & _ & Sc).
    unfold next_addr in B. lia.
  - destruct (layout_in _ _ _ _ _ H2 Hc) as (B & _).
    unfold next_addr in B. lia.
Qed.

Lemma free_addrs_cons b l :
  free_addrs (b :: l) = if is_free b then addr b :: free_addrs l else free_addrs l.
Proof. unfold free_addrs. simpl. destruct (is_free b); reflexivity. Qed.

Lemma used_ptrs_cons b l :
  used_ptrs (b :: l) = if is_free b then used_ptrs l else (addr b + 8) :: used_ptrs l.
Proof. unfold used_ptrs. simpl. destruct (is_free b); reflexivity. Qed.

Lemma free_addrs_incl bl x : In x (free_addrs bl) -> In x (map addr bl).
Proof.
  intros H. apply in_free_addrs in H. destruct H as [b (Hb & <- & _)].
  apply in_map. assumption.
Qed.

Lemma get_next_block_spec s l1 b l2 fl :
  heap_pre s (l1 ++ b :: l2) fl ->
  get_next_block s (addr b) = match l2 with [] => 0 | nb :: _ => addr nb end.
Proof.
  intros H.
  assert (Hb : In b (l1 ++ b :: l2)) by (apply in_or_app; right; left; reflexivity).
  destruct (pre_block _ _ _ _ H Hb) as (B1 & B2 & B3 & B4 & B5 & _).
  pose proof (layout_mid _ _ _ _ _ _ (pre_layout _ _ _ H)) as (_ & _ & H2).
  unfold get_next_block. rewrite (block_get_payload _ _ _ _ H Hb).
  unfold ALIGNMENT, next_addr in *. rewrite wrap_small by lia.
  destruct l2 as [|nb l2'].
  - simpl in H2. replace (addr b + size b + 8) with (heap_end s) by lia.
    rewrite Z.eqb_refl. reflexivity.
  - pose proof (layout_head_size _ _ _ _ _ H2) as [Sn _].
    destruct H2 as (Ha & _ & _ & H2). apply layout_le in H2.
    replace (addr b + size b + 8 =? heap_end s) with false
      by (symmetry; apply Z.eqb_neq; lia).
    lia.
Qed.

(** Unlinking a block of the free list in a heap. *)
Lemma pre_remove s bl fl x :
  heap_pre s bl fl -> In x fl ->
  exists fl',
    heap_pre (remove_freelist s x) bl fl'
    /\ (forall y, In y fl' <-> In y fl /\ y <> x)
    /\ (forall a, (forall y, In y fl' -> a < y + 8 \/ y + 24 <= a) ->
          mem (remove_freelist s x) a = mem s a)
    /\ same_globals s (remove_freelist s x).
Proof.
  intros H Hx. apply in_split in Hx. destruct Hx as [l1 [l2 ->]].
  pose proof (pre_nodup _ _ _ H) as ND.
  destruct (remove_freelist_lseg s l1 x l2 (pre_list _ _ _ H) ND (pre_spaced _ _ _ H))
    as [HL HF].
  destruct (remove_freelist_fields s x) as (G1 & G2 & G3).
  pose proof (NoDup_remove _ _ _ ND) as [ND' Hnx].
  assert (Hsub : forall y, In y (l1 ++ l2) -> In y (l1 ++ x :: l2)).
  { intros y Hy. apply in_app_or in Hy. apply in_or_app. simpl. tauto. }
  exists (l1 ++ l2). split; [|split; [|split]].
  - constructor.
    + rewrite G1. exact (pre_base _ _ _ H).
    + rewrite G3. exact (pre_end _ _ _ H).
    + rewrite G1, G2, G3. exact (pre_size _ _ _ H).
    + rewrite G1, G3. eapply layout_frame_headers; [exact (pre_layout _ _ _ H)|].
      intros b i Hb Hi. apply HF. intros y Hy.
      destruct (pre_fl_block _ _ _ _ H (Hsub y Hy)) as [c [Hc <-]].
      destruct (pre_block _ _ _ _ H Hc) as (_ & _ & _ & _ & Sc & _).
      destruct (pre_block _ _ _ _ H Hb) as (_ & _ & _ & _ & Sb & _).
      destruct (layout_sep _ _ _ _ _ _ (pre_layout _ _ _ H) Hb Hc) as [->|[|]];
        unfold next_addr in *; lia.
    + exact (pre_min _ _ _ H).
    + exact HL.
    + exact ND'.
    + intros y Hy. apply (pre_incl _ _ _ H). apply Hsub. assumption.
  - intros y. rewrite !in_app_iff. simpl. split.
    + intros Hy. split; [tauto|]. intros ->. apply Hnx. apply in_or_app. assumption.
    + intros [[Hy|[Hy|Hy]] Hne]; try tauto. congruence.
  - exact HF.
  - repeat split; assumption.
Qed.

(** Pushing a block of the heap onto the free list. *)
Lemma pre_add s bl fl x :
  heap_pre s bl fl -> In x (map addr bl) -> ~ In x fl ->
  heap_pre (add_freelist s x) bl (x :: fl)
  /\ (forall a, (forall y, In y (x :: fl) -> a < y + 8 \/ y + 24 <= a) ->
        mem (add_freelist s x) a = mem s a)
  /\ same_globals s (add_freelist s x).
Proof.
  intros H Hx Hnx.
  destruct (add_freelist_fields s x) as (G1 & G2 & G3 & G4).
  assert (HP : heap_pre s bl fl /\ forall y, In y (x :: fl) -> In y (map addr bl)).
  { split; [assumption|]. intros y [<-|Hy]; [assumption|]. apply (pre_incl _ _ _ H). assumption. }
  destruct HP as [_ Hincl].
  assert (Hblk : forall y, In y (x :: fl) -> exists c, In c bl /\ addr c = y).
  { intros y Hy. apply Hincl in Hy. apply in_map_iff in Hy.
    destruct Hy as [c [E Hc]]. exists c. tauto. }
  assert (SP : spaced (x :: fl)).
  { intros y z Hy Hz.
    destruct (Hblk y Hy) as [cy [Hcy <-]]. destruct (Hblk z Hz) as [cz [Hcz <-]].
    destruct (pre_block _ _ _ _ H Hcy) as (_ & _ & _ & _ & Sy & _).
    destruct (pre_block _ _ _ _ H Hcz) as (_ & _ & _ & _ & Sz & _).
    destruct (layout_sep _ _ _ _ _ _ (pre_layout _ _ _ H) Hcy Hcz) as [->|[|]];
      unfold next_addr in *; [left; reflexivity | right; left; lia | right; right; lia]. }
  assert (Hxr : 0 < x < 2 ^ 64).
  { destruct (Hblk x (or_introl eq_refl)) as [c [Hc <-]].
    destruct (pre_block _ _ _ _ H Hc) as (_ & _ & B1 & B2 & B3 & _).
    unfold next_addr in B2. lia. }
  assert (ND : NoDup (x :: fl)) by (constructor; [assumption | exact (pre_nodup _ _ _ H)]).
  destruct (add_freelist_lseg s fl x (pre_list _ _ _ H) Hxr (pre_head_range _ _ _ H) ND SP)
    as [HL HF].
  split; [|split].
  - constructor.
    + rewrite G1. exact (pre_base _ _ _ H).
    + rewrite G3. exact (pre_end _ _ _ H).
    + rewrite G1, G2, G3. exact (pre_size _ _ _ H).
    + rewrite G1, G3. eapply layout_frame_headers; [exact (pre_layout _ _ _ H)|].
      intros b i Hb Hi. apply HF. intros y Hy.
      destruct (Hblk y Hy) as [c [Hc <-]].
      destruct (pre_block _ _ _ _ H Hc) as (_ & _ & _ & _ & Sc & _).
      destruct (pre_block _ _ _ _ H Hb) as (_ & _ & _ & _ & Sb & _).
      destruct (layout_sep _ _ _ _ _ _ (pre_layout _ _ _ H) Hb Hc) as [->|[|]];
        unfold next_addr in *; lia.
    + exact (pre_min _ _ _ H).
    + exact HL.
    + exact ND.
    + exact Hincl.
  - exact HF.
  - repeat split; assumption.
Qed.

Lemma wf_free_block s bl fl y :
  heap_wf s bl fl -> In y fl -> exists c, In c bl /\ addr c = y /\ is_free c = true.
Proof. intros [_ H] Hy. apply H in Hy. apply in_free_addrs. assumption. Qed.

(** [coalesce] on a block of a well-formed heap. *)
Lemma coalesce_wf s l1 b l2 fl :
  heap_wf s (l1 ++ b :: l2) fl ->
  exists fl',
    heap_wf (coalesce s (addr b)) (l1 ++ merge_next b l2) fl'
    /\ same_globals s (coalesce s (addr b))
    /\ (forall a,
          (forall c, In c (l1 ++ b :: l2) -> is_free c = true ->
             a < addr c + 8 \/ addr c + 24 <= a) ->
          a < addr b \/ addr b + 8 <= a ->
          mem (coalesce s (addr b)) a = mem s a).
Proof.
  intros W. pose proof W as [H Hfl].
  assert (Hb : In b (l1 ++ b :: l2)) by (apply in_or_app; right; left; reflexivity).
  unfold coalesce. rewrite (get_next_block_spec _ _ _ _ _ H).
  destruct l2 as [|nb l2'].
  - simpl. exists fl. split; [exact W|]. split; [apply same_globals_refl|]. reflexivity.
  - assert (Hnb : In nb (l1 ++ b :: nb :: l2'))
      by (apply in_or_app; right; right; left; reflexivity).
    destruct (pre_block _ _ _ _ H Hnb) as (N1 & N2 & N3 & N4 & N5 & N6 & N7).
    destruct (pre_block _ _ _ _ H Hb) as (B1 & B2 & B3 & B4 & B5 & B6 & B7).
    replace (addr nb =? 0) with false by (symmetry; apply Z.eqb_neq; lia).
    rewrite (block_check_free _ _ _ _ H Hnb). cbn [orb].
    cbn [merge_next].
    destruct (is_free nb) eqn:Fnb; cbn [negb].
    2:{ exists fl. split; [exact W|]. split; [apply same_globals_refl|]. reflexivity. }
    rewrite (block_get_payload _ _ _ _ H Hnb).
    assert (Hin : In (addr nb) fl).
    { apply Hfl. apply in_free_addrs. exists nb. tauto. }
    destruct (pre_remove _ _ _ _ H Hin) as [fl' (H' & Hfl' & HF & HG)].
    set (s1 := remove_freelist s (addr nb)) in *.
    destruct (pre_block _ _ _ _ H' Hb) as (_ & _ & _ & _ & _ & _ & B7').
    pose proof (layout_mid _ _ _ _ _ _ (pre_layout _ _ _ H')) as (HA & _ & HE).
    destruct HE as (Ea & Eln & Emn & HE). unfold next_addr in Ea.
    set (b' := mkBlock (addr b) (size b + 8 + size nb) (is_free b)).
    assert (Eenc : wrap (payload_field s1 (addr b) + wrap (size nb + ALIGNMENT)) = enc b').
    { unfold payload_field. rewrite B7'. unfold ALIGNMENT, next_addr in *.
      rewrite (wrap_small (size nb + 8)) by lia.
      unfold enc, b'. simpl. destruct (is_free b); rewrite wrap_small; lia. }
    rewrite Eenc.
    assert (Hpre : heap_pre (set_payload s1 (addr b) (enc b')) (l1 ++ [b'] ++ l2') fl').
    { apply (pre_replace s1 _ l1 [b; nb] [b'] l2' fl' (addr b) (next_addr nb)).
      - exact H'.
      - exact HA.
      - simpl. unfold next_addr in *. repeat split; try assumption; try lia.
      - repeat split.
      - reflexivity.
      - intros x Hx. simpl. apply store64_other. unfold next_addr in *. lia.
      - intros c Hc Hcf x Hx. simpl. apply store64_other.
        destruct Hc as [<- | [<- | []]]; [lia|].
        apply Hfl' in Hcf. tauto.
      - simpl. unfold next_addr in *. repeat split.
        + rewrite load64_store64_same. apply wrap_small.
          rewrite <- Eenc. apply wrap_range.
        + apply mod8_sum; assumption.
        + lia.
      - constructor; [simpl; lia | constructor].
      - intros c Hc Hcf. destruct Hc as [<- | [<- | []]]; [left; reflexivity|].
        apply Hfl' in Hcf. tauto. }
    exists fl'. split; [|split].
    + split; [exact Hpre|].
      intros y. rewrite Hfl', Hfl.
      destruct (layout_fresh _ _ _ _ _ _ (pre_layout _ _ _ H)) as [Fr1 Fr2].
      assert (Hnb1 : ~ In (addr nb) (map addr l1)).
      { intros Hc. apply in_map_iff in Hc. destruct Hc as [c [E Hc]].
        pose proof (layout_mid _ _ _ _ _ _ (pre_layout _ _ _ H)) as (HA0 & _).
        destruct (layout_in _ _ _ _ _ HA0 Hc) as (_ & Bc & _ & _ & Sc).
        unfold next_addr in *. lia. }
      assert (Hnb2 : ~ In (addr nb) (map addr l2')).
      { assert (HL' : layout (mem s) (segment_start s) ((l1 ++ [b]) ++ nb :: l2') (heap_end s)).
        { rewrite <- app_assoc. exact (pre_layout _ _ _ H). }
        apply (layout_fresh _ _ _ _ _ _ HL'). }
      simpl in Fr2.
      rewrite !free_addrs_app, !in_app_iff, !free_addrs_cons, Fnb.
      change (is_free b') with (is_free b). change (addr b') with (addr b).
      pose proof (free_addrs_incl l1 (addr nb)). pose proof (free_addrs_incl l2' (addr nb)).
      destruct (is_free b); simpl; split; intros; intuition (try congruence; subst; tauto).
    + eapply same_globals_trans; [exact HG|]. repeat split.
    + intros a Ha Hab. simpl. rewrite store64_other by lia.
      apply HF. intros y Hy. apply Hfl' in Hy. destruct Hy as [Hy _].
      destruct (wf_free_block _ _ _ _ W Hy) as [c (Hc & <- & Fc)].
      apply Ha; assumption.
Qed.

(** [add_block] on a block with room for the request and a remainder. *)
Lemma add_block_wf s l1 b l2 fl r :
  heap_wf s (l1 ++ b :: l2) fl ->
  16 <= r -> r mod 8 = 0 -> r + 24 <= size b ->
  let b1 := mkBlock (addr b) r false in
  let b2 := mkBlock (addr b + 8 + r) (size b - r - 8) true in
  exists fl',
    heap_wf (add_block s (addr b) r) (l1 ++ b1 :: merge_next b2 l2) fl'
    /\ same_globals s (add_block s (addr b) r)
    /\ (forall a,
          (forall c, In c (l1 ++ b :: l2) -> is_free c = true ->
             a < addr c + 8 \/ addr c + 24 <= a) ->
          a < addr b \/ addr b + 8 <= a ->
          a < addr b2 \/ addr b2 + 24 <= a ->
          mem (add_block s (addr b) r) a = mem s a).
Proof.
  intros W Hr16 Hr8 Hrs b1 b2. pose proof W as [H Hfl].
  assert (Hb : In b (l1 ++ b :: l2)) by (apply in_or_app; right; left; reflexivity).
  destruct (pre_block _ _ _ _ H Hb) as (B1 & B2 & B3 & B4 & B5 & B6 & B7).
  pose proof (layout_mid _ _ _ _ _ _ (pre_layout _ _ _ H)) as (HA & HB & HE).
  destruct (layout_fresh _ _ _ _ _ _ (pre_layout _ _ _ H)) as [Fr1 Fr2].
  unfold add_block.
  rewrite (block_check_free _ _ _ _ H Hb), (block_get_payload _ _ _ _ H Hb).
  unfold ALIGNMENT, next_addr in *.
  rewrite (wrap_small (addr b + r + 8)) by lia.
  replace (addr b + r + 8) with (addr b2) by (simpl; lia).
  rewrite (wrap_small (r + 1)) by lia.
  rewrite (wrap_small (size b - r - 8)) by lia.
  set (s2 := set_payload (set_payload s (addr b) (r + 1)) (addr b2) (size b - r - 8)).
  assert (H2 : heap_pre s2 (l1 ++ [b1; b2] ++ l2) fl).
  { apply (pre_replace s _ l1 [b] [b1; b2] l2 fl (addr b) (addr b + 8 + size b)).
    - exact H.
    - exact HA.
    - exact HB.
    - repeat split.
    - reflexivity.
    - intros x Hx. simpl. rewrite !store64_other by lia. reflexivity.
    - intros c [<- | []] _ x Hx. simpl. rewrite !store64_other by lia. reflexivity.
    - simpl. repeat split; try assumption; try lia.
      + rewrite load64_store64_other by lia. rewrite load64_store64_same.
        unfold enc; simpl. apply wrap_small. lia.
      + rewrite load64_store64_same. unfold enc; simpl. rewrite wrap_small; lia.
      + apply mod8_diff; assumption.
    - repeat constructor; simpl; lia.
    - intros c [<- | []] _. left. reflexivity. }
  simpl app in H2.
  assert (Hnew_old : ~ In (addr b2) (map addr (l1 ++ b :: l2))).
  { intros Hc. apply in_map_iff in Hc. destruct Hc as [c [E Hc]].
    destruct (pre_block _ _ _ _ H Hc) as (_ & _ & _ & _ & Sc & _).
    destruct (layout_sep _ _ _ _ _ _ (pre_layout _ _ _ H) Hb Hc) as [<-|[|]];
      unfold next_addr in *; simpl in E; lia. }
  assert (H3 : exists fl3,
             heap_pre (if is_free b then remove_freelist s2 (addr b) else s2)
                      (l1 ++ b1 :: b2 :: l2) fl3
             /\ (forall y, In y fl3 <-> In y fl /\ y <> addr b)
             /\ (forall a, (forall y, In y fl3 -> a < y + 8 \/ y + 24 <= a) ->
                   mem (if is_free b then remove_freelist s2 (addr b) else s2) a = mem s2 a)
             /\ same_globals s2 (if is_free b then remove_freelist s2 (addr b) else s2)).
  { destruct (is_free b) eqn:Fb.
    - apply pre_remove; [exact H2|]. apply Hfl. apply in_free_addrs. exists b. tauto.
    - exists fl. split; [exact H2|]. split; [|split; [reflexivity | apply same_globals_refl]].
      intros y. split; [|tauto]. intros Hy. split; [assumption|]. intros ->.
      apply Hfl in Hy. apply in_free_addrs in Hy. destruct Hy as [c (Hc & E & Fc)].
      rewrite (layout_addr_inj _ _ _ _ _ _ (pre_layout _ _ _ H) Hc Hb E) in Fc. congruence. }
  destruct H3 as [fl3 (H3 & Hfl3 & HF3 & HG3)].
  set (s3 := if is_free b then remove_freelist s2 (addr b) else s2) in *.
  assert (Hin2 : In (addr b2) (map addr (l1 ++ b1 :: b2 :: l2))).
  { apply in_map. apply in_or_app. right. right. left. reflexivity. }
  assert (Hnin3 : ~ In (addr b2) fl3).
  { intros Hc. apply Hfl3 in Hc. destruct Hc as [Hc _].
    apply Hnew_old. apply (pre_incl _ _ _ H). assumption. }
  destruct (pre_add _ _ _ _ H3 Hin2 Hnin3) as (H4 & HF4 & HG4).
  set (s4 := add_freelist s3 (addr b2)) in *.
  assert (W4 : heap_wf s4 ((l1 ++ [b1]) ++ b2 :: l2) (addr b2 :: fl3)).
  { rewrite <- app_assoc. simpl app. split; [exact H4|].
    intros y. simpl. rewrite Hfl3, Hfl.
    rewrite !free_addrs_app, !in_app_iff, !free_addrs_cons. simpl.
    pose proof (free_addrs_incl l1 (addr b)). pose proof (free_addrs_incl l2 (addr b)).
    destruct (is_free b); simpl; intuition (try congruence; subst; tauto). }
  destruct (coalesce_wf _ _ _ _ _ W4) as [fl' (W' & HG' & HF')].
  rewrite <- app_assoc in W'. simpl app in W'.
  exists fl'. split; [exact W'|]. split.
  - eapply same_globals_trans; [|exact HG'].
    eapply same_globals_trans; [|exact HG4].
    eapply same_globals_trans; [|exact HG3]. repeat split.
  - intros a Ha Hab Hab2.
    assert (Hfl3a : forall y, In y fl3 -> a < y + 8 \/ y + 24 <= a).
    { intros y Hy. apply Hfl3 in Hy. destruct Hy as [Hy _].
      destruct (wf_free_block _ _ _ _ W Hy) as [c (Hc & <- & Fc)]. apply Ha; assumption. }
    rewrite HF'.
    + rewrite HF4.
      * rewrite HF3 by assumption. unfold s2. simpl. simpl in Hab2.
        rewrite !store64_other by lia. reflexivity.
      * intros y [<- | Hy]; [lia|]. apply Hfl3a. assumption.
    + intros c Hc Fc. rewrite <- app_assoc in Hc. simpl in Hc.
      apply in_app_or in Hc. destruct Hc as [Hc | [<- | [<- | Hc]]].
      * apply Ha; [apply in_or_app; left; assumption | assumption].
      * simpl in Fc. discriminate.
      * lia.
      * apply Ha; [apply in_or_app; right; right; assumption | assumption].
    + lia.
Qed.

Lemma roundup_eq n :
  0 <= n < 2 ^ 64 ->
  roundup n ALIGNMENT =
  Z.max 16 (wrap (n + 7) - wrap (n + 7) mod 8).
Proof.
  intros Hn. unfold roundup, ALIGNMENT.
  change (wrap (Z.lnot (wrap (8 - 1)))) with (2 ^ 64 - 8).
  replace (n + 8 - 1) with (n + 7) by lia.
  rewrite land_payload_mask by apply wrap_range.
  destruct (wrap (n + 7) - wrap (n + 7) mod 8 <? 16) eqn:E.
  - apply Z.ltb_lt in E. lia.
  - apply Z.ltb_ge in E. lia.
Qed.

Lemma roundup_props n :
  0 <= n < 2 ^ 64 ->
  16 <= roundup n ALIGNMENT < 2 ^ 64 /\ roundup n ALIGNMENT mod 8 = 0.
Proof.
  intros Hn. rewrite roundup_eq by assumption.
  pose proof (wrap_range (n + 7)) as Hw.
  pose proof (Z.mod_pos_bound (wrap (n + 7)) 8 ltac:(lia)) as Hm.
  assert (Hd : (wrap (n + 7) - wrap (n + 7) mod 8) mod 8 = 0).
  { pose proof (Z.div_mod (wrap (n + 7)) 8 ltac:(lia)) as D.
    replace (wrap (n + 7) - wrap (n + 7) mod 8) with ((wrap (n + 7) / 8) * 8) by lia.
    apply Z.mod_mul. lia. }
  destruct (Z.max_spec 16 (wrap (n + 7) - wrap (n + 7) mod 8)) as [[? ->] | [? ->]].
  - split; [lia | assumption].
  - split; [lia | reflexivity].
Qed.

(** First fit over a well-formed free list. *)
Lemma search_from_spec s bl fl0 request :
  heap_wf s bl fl0 ->
  forall l p c fuel,
    lseg (mem s) p c l 0 -> (forall y, In y l -> In y fl0) ->
    (length l < fuel)%nat ->
    (search_from fuel s c request = Some 0
     /\ forall y, In y l -> get_payload s y < request)
    \/ (exists l1 r l2,
          l = l1 ++ r :: l2 /\ search_from fuel s c request = Some r
          /\ request <= get_payload s r
          /\ forall y, In y l1 -> get_payload s y < request).
Proof.
  intros W. induction l as [|x l IH]; intros p c fuel Hl Hsub Hfuel.
  - left. simpl in Hl. subst c. destruct fuel; [simpl in Hfuel; lia|].
    split; [reflexivity | intros y []].
  - destruct Hl as (-> & Hx & Hp & Hl).
    destruct fuel; [simpl in Hfuel; lia|]. simpl in Hfuel.
    simpl. replace (x =? 0) with false by (symmetry; apply Z.eqb_neq; assumption).
    destruct (wf_free_block _ _ _ _ W (Hsub x (or_introl eq_refl))) as [b (Hb & <- & Fb)].
    destruct W as [H Hfl]. rewrite (block_check_free _ _ _ _ H Hb), Fb. simpl.
    destruct (request <=? get_payload s (addr b)) eqn:E.
    + right. exists [], (addr b), l. apply Z.leb_le in E.
      repeat split; try assumption. intros y [].
    + apply Z.leb_gt in E.
      destruct (IH (addr b) (next_field s (addr b)) fuel Hl
                   (fun y Hy => Hsub y (or_intror Hy)) ltac:(lia))
        as [[E1 E2] | [l1 [r [l2 (E1 & E2 & E3 & E4)]]]].
      * left. split; [assumption|]. intros y [<- | Hy]; [assumption | apply E2; assumption].
      * right. exists (addr b :: l1), r, l2. subst l.
        repeat split; try assumption.
        intros y [<- | Hy]; [assumption | apply E4; assumption].
Qed.

Lemma tail_test s l1 b l2 fl :
  heap_pre s (l1 ++ b :: l2) fl ->
  (wrap (addr b + size b + ALIGNMENT) =? heap_end s)
  = match l2 with [] => true | _ :: _ => false end.
Proof.
  intros H. pose proof (get_next_block_spec _ _ _ _ _ H) as G.
  assert (Hb : In b (l1 ++ b :: l2)) by (apply in_or_app; right; left; reflexivity).
  unfold get_next_block in G. rewrite (block_get_payload _ _ _ _ H Hb) in G.
  destruct (wrap (addr b + size b + ALIGNMENT) =? heap_end s) eqn:E.
  - destruct l2 as [|nb l2']; [reflexivity|].
    assert (Hnb : In nb (l1 ++ b :: nb :: l2'))
      by (apply in_or_app; right; right; left; reflexivity).
    destruct (pre_block _ _ _ _ H Hnb) as (_ & _ & N & _). lia.
  - destruct l2 as [|nb l2']; [|reflexivity].
    destruct (pre_block _ _ _ _ H Hb) as (_ & B2 & B3 & B4 & B5 & _).
    unfold ALIGNMENT, next_addr in *. rewrite wrap_small in G by lia. lia.
Qed.

(** Marking a free block used and unlinking it. *)
Lemma take_block_wf s l1 b l2 fl :
  heap_wf s (l1 ++ b :: l2) fl -> is_free b = true ->
  let s' := remove_freelist
              (set_payload s (addr b) (wrap (payload_field s (addr b) + 1)))
              (addr b) in
  exists fl',
    heap_wf s' (l1 ++ mkBlock (addr b) (size b) false :: l2) fl'
    /\ same_globals s s'
    /\ (forall a,
          (forall c, In c (l1 ++ b :: l2) -> is_free c = true ->
             a < addr c + 8 \/ addr c + 24 <= a) ->
          a < addr b \/ addr b + 8 <= a ->
          mem s' a = mem s a).
Proof.
  intros W Fb. pose proof W as [H Hfl].
  assert (Hb : In b (l1 ++ b :: l2)) by (apply in_or_app; right; left; reflexivity).
  destruct (pre_block _ _ _ _ H Hb) as (B1 & B2 & B3 & B4 & B5 & B6 & B7).
  set (ub := mkBlock (addr b) (size b) false).
  set (s1 := set_payload s (addr b) (wrap (payload_field s (addr b) + 1))).
  pose proof (layout_mid _ _ _ _ _ _ (pre_layout _ _ _ H)) as (HA & HB & HE).
  unfold next_addr in *.
  assert (Eenc : wrap (payload_field s (addr b) + 1) = enc ub).
  { unfold payload_field. rewrite B7. unfold enc. rewrite Fb. simpl.
    rewrite wrap_small; lia. }
  assert (H1 : heap_pre s1 (l1 ++ [ub] ++ l2) fl).
  { apply (pre_replace s _ l1 [b] [ub] l2 fl (addr b) (addr b + 8 + size b));
      try assumption.
    - repeat split.
    - reflexivity.
    - intros x0 Hx0. simpl. apply store64_other. lia.
    - intros c [<- | []] _ x0 Hx0. simpl. apply store64_other. lia.
    - simpl. repeat split; try assumption.
      rewrite load64_store64_same, Eenc. apply wrap_small.
      rewrite <- Eenc. apply wrap_range.
    - repeat constructor. simpl. lia.
    - intros c [<- | []] _. left. reflexivity. }
  assert (Hx : In (addr b) fl).
  { apply Hfl. apply in_free_addrs. exists b. tauto. }
  destruct (pre_remove _ _ _ _ H1 Hx) as [fl' (H' & Hfl' & HF & HG)].
  exists fl'. simpl app in H'.
  destruct (layout_fresh _ _ _ _ _ _ (pre_layout _ _ _ H)) as [Fr1 Fr2].
  pose proof (free_addrs_incl l1 (addr b)).
  pose proof (free_addrs_incl l2 (addr b)).
  split; [split; [exact H'|]|split].
  - intros y. rewrite Hfl', Hfl.
    rewrite !free_addrs_app, !in_app_iff, (free_addrs_cons b), (free_addrs_cons ub), Fb.
    simpl. intuition (try congruence; subst; tauto).
  - eapply same_globals_trans; [|exact HG]. repeat split.
  - intros a Ha Hab. rewrite HF.
    + simpl. apply store64_other. lia.
    + intros y Hy. apply Hfl' in Hy. destruct Hy as [Hy _].
      destruct (wf_free_block _ _ _ _ W Hy) as [c (Hc & <- & Fc)].
      apply Ha; assumption.
Qed.

(** [mymalloc] on a well-formed heap: it fails and changes nothing, or it
    takes a free block that fits. *)
Lemma mymalloc_wf max s bl fl n fuel :
  heap_wf s bl fl -> 0 <= n < 2 ^ 64 -> (length fl < fuel)%nat ->
  let r := roundup n ALIGNMENT in
  (mymalloc max fuel s n = Some (s, 0)
   /\ (max < r
       \/ (search_freelist fuel s r = Some 0
           /\ forall c, In c bl -> is_free c = true -> size c < r)))
  \/ (exists l1 b l2 s' fl',
        bl = l1 ++ b :: l2 /\ is_free b = true /\ r <= size b /\ r <= max
        /\ search_freelist fuel s r = Some (addr b)
        /\ mymalloc max fuel s n = Some (s', addr b + 8)
        /\ heap_wf s' (l1 ++ malloc_blocks r b l2) fl'
        /\ same_globals s s'
        /\ (forall a,
              (forall c, In c bl -> is_free c = true -> a < addr c \/ next_addr c <= a) ->
              mem s' a = mem s a)).
Proof.
  intros W Hn Hfuel r. pose proof W as [H Hfl].
  destruct (roundup_props n Hn) as [Hr Hr8]. fold r in Hr, Hr8.
  unfold mymalloc. fold r. unfold search_freelist.
  destruct (search_from_spec s bl fl r W fl 0 (freelist_start s) fuel
              (pre_list _ _ _ H) (fun y Hy => Hy) Hfuel)
    as [[E1 E2] | [f1 [x [f2 (Efl & E1 & E2 & E3)]]]].
  - left. rewrite E1. simpl. split; [reflexivity|]. right.
    split; [reflexivity|]. intros c Hc Fc.
    rewrite <- (block_get_payload _ _ _ _ H Hc). apply E2. apply Hfl.
    apply in_free_addrs. exists c. tauto.
  - rewrite E1.
    assert (Hx : In x fl) by (rewrite Efl; apply in_or_app; right; left; reflexivity).
    destruct (wf_free_block _ _ _ _ W Hx) as [b (Hb & <- & Fb)].
    destruct (pre_block _ _ _ _ H Hb) as (B1 & B2 & B3 & B4 & B5 & B6 & B7).
    replace (addr b =? 0) with false by (symmetry; apply Z.eqb_neq; lia).
    destruct (max <? r) eqn:Emax.
    { left. split; [reflexivity|]. left. apply Z.ltb_lt. assumption. }
    apply Z.ltb_ge in Emax.
    rewrite (block_get_payload _ _ _ _ H Hb) in *.
    destruct (in_split _ _ Hb) as [l1 [l2 Ebl]]. subst bl.
    right. rewrite (tail_test _ _ _ _ _ H).
    unfold ALIGNMENT, next_addr in *.
    rewrite (wrap_small (r + 8 * 3)) by lia.
    rewrite (wrap_small (addr b + 8)) by lia.
    assert (Hfree_frame : forall a,
      (forall c, In c (l1 ++ b :: l2) -> is_free c = true ->
         a < addr c \/ addr c + 8 + size c <= a) ->
      forall c, In c (l1 ++ b :: l2) -> is_free c = true ->
         a < addr c + 8 \/ addr c + 24 <= a).
    { intros a Ha c Hc Fc. specialize (Ha c Hc Fc).
      destruct (pre_block _ _ _ _ H Hc) as (_ & _ & _ & _ & Sc & _). lia. }
    assert (Hwhole : exists s' fl',
      Some (remove_freelist
              (set_payload s (addr b) (wrap (payload_field s (addr b) + 1)))
              (addr b), addr b + 8) = Some (s', addr b + 8)
      /\ heap_wf s' (l1 ++ mkBlock (addr b) (size b) false :: l2) fl'
      /\ same_globals s s'
      /\ (forall a,
            (forall c, In c (l1 ++ b :: l2) -> is_free c = true ->
               a < addr c \/ addr c + 8 + size c <= a) ->
            mem s' a = mem s a)).
    { destruct (take_block_wf s l1 b l2 fl W Fb) as [fl' (W' & G' & F')].
      eexists _, fl'. split; [reflexivity|]. split; [exact W'|]. split; [exact G'|].
      intros a Ha. pose proof (Ha b Hb Fb). apply F'; [|lia].
      apply Hfree_frame. assumption. }
    destruct l2 as [|nb l2']; simpl andb; [destruct (r + 8 * 3 <=? size b) eqn:Esp|].
    + apply Z.leb_le in Esp.
      destruct (add_block_wf s l1 b [] fl r W ltac:(lia) Hr8 ltac:(lia))
        as [fl' (W' & G' & F')].
      exists l1, b, [], (add_block s (addr b) r), fl'.
      simpl merge_next in W'. unfold malloc_blocks.
      replace (r + 24 <=? size b) with true by (symmetry; apply Z.leb_le; lia).
      splits; try assumption; try reflexivity.
      intros a Ha. pose proof (Ha b Hb Fb). apply F'; simpl; try lia.
      apply Hfree_frame. assumption.
    + apply Z.leb_gt in Esp.
      destruct Hwhole as [s' [fl' (E' & W' & G' & F')]].
      exists l1, b, [], s', fl'. unfold malloc_blocks.
      replace (r + 24 <=? size b) with false by (symmetry; apply Z.leb_gt; lia).
      splits; try assumption; reflexivity.
    + destruct Hwhole as [s' [fl' (E' & W' & G' & F')]].
      exists l1, b, (nb :: l2'), s', fl'. unfold malloc_blocks.
      splits; try assumption; reflexivity.
Qed.

Lemma lseg_prev_nonzero m l : forall p c e y,
  lseg m p c l e -> p <> 0 -> In y l -> load64 m (y + 8) <> 0.
Proof.
  induction l as [|x l IH]; intros p c e y H Hp Hy; [destruct Hy|].
  destruct H as (-> & Hx & Hpr & H). destruct Hy as [<- | Hy].
  - rewrite Hpr. exact Hp.
  - eapply IH; [exact H | exact Hx | exact Hy].
Qed.

Lemma remove_freelist_keeps_head s x :
  prev_field s x <> 0 -> freelist_start (remove_freelist s x) = freelist_start s.
Proof.
  intros H. apply Z.eqb_neq in H. unfold remove_freelist. rewrite H.
  destruct (next_field s x =? 0); reflexivity.
Qed.

(** When the block is the head of the free list, it still is after
    [coalesce]. *)
Lemma coalesce_keeps_head s l1 b l2 fl :
  heap_wf s (l1 ++ b :: l2) fl -> freelist_start s = addr b ->
  freelist_start (coalesce s (addr b)) = addr b.
Proof.
  intros W Hh. pose proof W as [H Hfl].
  assert (Hb : In b (l1 ++ b :: l2)) by (apply in_or_app; right; left; reflexivity).
  unfold coalesce. rewrite (get_next_block_spec _ _ _ _ _ H).
  destruct l2 as [|nb l2']; [exact Hh|].
  assert (Hnb : In nb (l1 ++ b :: nb :: l2'))
    by (apply in_or_app; right; right; left; reflexivity).
  destruct (pre_block _ _ _ _ H Hnb) as (N1 & N2 & N3 & N4 & N5 & N6 & N7).
  destruct (pre_block _ _ _ _ H Hb) as (B1 & B2 & B3 & B4 & B5 & B6 & B7).
  replace (addr nb =? 0) with false by (symmetry; apply Z.eqb_neq; lia).
  rewrite (block_check_free _ _ _ _ H Hnb). cbn [orb].
  destruct (is_free nb) eqn:Fnb; cbn [negb]; [|exact Hh].
  simpl. rewrite remove_freelist_keeps_head; [exact Hh|].
  assert (Hin : In (addr nb) fl).
  { apply Hfl. apply in_free_addrs. exists nb. tauto. }
  pose proof (pre_list _ _ _ H) as L. rewrite Hh in L.
  destruct fl as [|x fl0]; [destruct Hin|].
  destruct L as (Ex & Hx & Hp & L).
  destruct Hin as [E | Hin].
  - pose proof (layout_mid _ _ _ _ _ _ (pre_layout _ _ _ H)) as (_ & _ & HE).
    destruct HE as (Ea & _). unfold next_addr in *. lia.
  - unfold prev_field. eapply lseg_prev_nonzero; [exact L | exact Hx | exact Hin].
Qed.

(** [myfree] on a used block of a well-formed heap; the block becomes the
    head of the free list. *)
Lemma myfree_full s l1 b l2 fl :
  heap_wf s (l1 ++ b :: l2) fl -> is_free b = false ->
  exists fl',
    heap_wf (myfree s (addr b + 8))
            (l1 ++ merge_next (mkBlock (addr b) (size b) true) l2) fl'
    /\ same_globals s (myfree s (addr b + 8))
    /\ (forall a,
          (forall c, In c (l1 ++ b :: l2) -> is_free c = true ->
             a < addr c + 8 \/ addr c + 24 <= a) ->
          a < addr b \/ addr b + 24 <= a ->
          mem (myfree s (addr b + 8)) a = mem s a)
    /\ freelist_start (myfree s (addr b + 8)) = addr b.
Proof.
  intros W Fb. pose proof W as [H Hfl].
  assert (Hb : In b (l1 ++ b :: l2)) by (apply in_or_app; right; left; reflexivity).
  destruct (pre_block _ _ _ _ H Hb) as (B1 & B2 & B3 & B4 & B5 & B6 & B7).
  pose proof (layout_mid _ _ _ _ _ _ (pre_layout _ _ _ H)) as (HA & HB & HE).
  destruct (layout_fresh _ _ _ _ _ _ (pre_layout _ _ _ H)) as [Fr1 Fr2].
  unfold myfree, ALIGNMENT, next_addr in *.
  replace (addr b + 8 =? 0) with false by (symmetry; apply Z.eqb_neq; lia).
  replace (addr b + 8 - 8) with (addr b) by lia.
  rewrite (wrap_small (addr b)) by lia.
  set (fb := mkBlock (addr b) (size b) true).
  assert (Eenc : wrap (payload_field s (addr b) - 1) = enc fb).
  { unfold payload_field. rewrite B7. unfold enc. rewrite Fb. simpl.
    rewrite wrap_small; lia. }
  rewrite Eenc.
  set (s1 := set_payload s (addr b) (enc fb)).
  assert (H1 : heap_pre s1 (l1 ++ [fb] ++ l2) fl).
  { apply (pre_replace s _ l1 [b] [fb] l2 fl (addr b) (addr b + 8 + size b));
      try assumption.
    - repeat split.
    - reflexivity.
    - intros x0 Hx0. simpl. apply store64_other. lia.
    - intros c [<- | []] _ x0 Hx0. simpl. apply store64_other. lia.
    - simpl. repeat split; try assumption.
      rewrite load64_store64_same. apply wrap_small.
      rewrite <- Eenc. apply wrap_range.
    - repeat constructor. simpl. lia.
    - intros c [<- | []] _. left. reflexivity. }
  simpl app in H1.
  assert (Hnin : ~ In (addr b) fl).
  { intros Hy. apply Hfl in Hy. apply in_free_addrs in Hy.
    destruct Hy as [c (Hc & E & Fc)].
    rewrite (layout_addr_inj _ _ _ _ _ _ (pre_layout _ _ _ H) Hc Hb E) in Fc. congruence. }
  assert (Hin : In (addr b) (map addr (l1 ++ fb :: l2))).
  { change (addr b) with (addr fb). apply in_map. apply in_or_app. right. left. reflexivity. }
  destruct (pre_add _ _ _ _ H1 Hin Hnin) as (H2 & HF2 & HG2).
  set (s2 := add_freelist s1 (addr b)) in *.
  assert (W2 : heap_wf s2 (l1 ++ fb :: l2) (addr b :: fl)).
  { split; [exact H2|]. intros y. simpl. rewrite Hfl.
    rewrite !free_addrs_app, !in_app_iff, (free_addrs_cons b), (free_addrs_cons fb), Fb.
    simpl. tauto. }
  destruct (coalesce_wf _ _ _ _ _ W2) as [fl' (W' & HG' & HF')].
  exists fl'. splits.
  - exact W'.
  - eapply same_globals_trans; [|exact HG'].
    eapply same_globals_trans; [|exact HG2]. repeat split.
  - intros a Ha Hab. change (addr fb) with (addr b) in HF'. rewrite HF'.
    + rewrite HF2.
      * simpl. apply store64_other. lia.
      * intros y [<- | Hy]; [lia|].
        destruct (wf_free_block _ _ _ _ W Hy) as [c (Hc & <- & Fc)].
        apply Ha; assumption.
    + intros c Hc Fc. apply in_app_or in Hc. destruct Hc as [Hc | [<- | Hc]].
      * apply Ha; [apply in_or_app; left; assumption | assumption].
      * simpl. lia.
      * apply Ha; [apply in_or_app; right; right; assumption | assumption].
    + lia.
  - change (addr b) with (addr fb).
    apply (coalesce_keeps_head _ _ _ _ _ W2).
    unfold s2. destruct (add_freelist_fields s1 (addr b)) as (_ & _ & _ & E). exact E.
Qed.

(** [myfree] on a used block of a well-formed heap. *)
Lemma myfree_wf s l1 b l2 fl :
  heap_wf s (l1 ++ b :: l2) fl -> is_free b = false ->
  exists fl',
    heap_wf (myfree s (addr b + 8))
            (l1 ++ merge_next (mkBlock (addr b) (size b) true) l2) fl'
    /\ same_globals s (myfree s (addr b + 8))
    /\ (forall a,
          (forall c, In c (l1 ++ b :: l2) -> is_free c = true ->
             a < addr c + 8 \/ addr c + 24 <= a) ->
          a < addr b \/ addr b + 24 <= a ->
          mem (myfree s (addr b + 8)) a = mem s a).
Proof.
  intros W Fb. destruct (myfree_full _ _ _ _ _ W Fb) as [fl' (W' & G & F & _)].
  exists fl'. splits; assumption.
Qed.

Lemma absorb_props req l2 : forall b,
  addr (fst (absorb req b l2)) = addr b
  /\ is_free (fst (absorb req b l2)) = is_free b
  /\ (req <= size b -> absorb req b l2 = (b, l2))
  /\ (Forall (fun c => 0 <= size c) l2 -> size b <= size (fst (absorb req b l2)))
  /\ used_ptrs (fst (absorb req b l2) :: snd (absorb req b l2)) = used_ptrs (b :: l2).
Proof.
  induction l2 as [|nb l2 IH]; intros b; simpl.
  - splits; try reflexivity; try lia; auto.
  - destruct (is_free nb && (size b <? req)) eqn:E.
    + apply andb_prop in E. destruct E as [E1 E2]. apply Z.ltb_lt in E2.
      destruct (IH (mkBlock (addr b) (size b + 8 + size nb) (is_free b)))
        as (I1 & I2 & I3 & I4 & I5).
      simpl in *. splits; try assumption.
      * lia.
      * intros Hf. apply Forall_cons_iff in Hf. destruct Hf as [Hn Hf].
        specialize (I4 Hf). lia.
      * rewrite I5. rewrite !used_ptrs_cons. simpl. rewrite E1. reflexivity.
    + splits; try reflexivity; try lia; auto.
Qed.

(** The loop of [coalesce_multiple_blocks] on a well-formed heap. *)
Lemma coalesce_multiple_wf req l2 : forall s l1 b fl fuel,
  heap_wf s (l1 ++ b :: l2) fl -> (length l2 < fuel)%nat ->
  exists s' fl',
    coalesce_multiple_blocks fuel s (addr b) req = Some s'
    /\ heap_wf s' (l1 ++ fst (absorb req b l2) :: snd (absorb req b l2)) fl'
    /\ same_globals s s'
    /\ (forall a,
          (forall c, In c (l1 ++ b :: l2) -> is_free c = true ->
             a < addr c + 8 \/ addr c + 24 <= a) ->
          a < addr b \/ addr b + 8 <= a ->
          mem s' a = mem s a).
Proof.
  induction l2 as [|nb l2 IH]; intros s l1 b fl fuel W Hfuel;
    (destruct fuel; [simpl in Hfuel; lia|]); simpl in Hfuel;
    pose proof W as [H Hfl];
    match type of H with heap_pre _ (_ ++ _ :: ?l) _ =>
      assert (Hb : In b (l1 ++ b :: l)) by (apply in_or_app; right; left; reflexivity)
    end;
    cbn [coalesce_multiple_blocks absorb];
    rewrite (get_next_block_spec _ _ _ _ _ H).
  - simpl. exists s, fl. splits; try assumption; try reflexivity.
    apply same_globals_refl.
  - assert (Hnb : In nb (l1 ++ b :: nb :: l2))
      by (apply in_or_app; right; right; left; reflexivity).
    rewrite (block_check_free _ _ _ _ H Hnb), (block_get_payload _ _ _ _ H Hb).
    destruct (is_free nb && (size b <? req)) eqn:E.
    + apply andb_prop in E. destruct E as [E1 E2].
      destruct (coalesce_wf _ _ _ _ _ W) as [fl1 (W1 & G1 & F1)].
      simpl merge_next in W1. rewrite E1 in W1.
      set (b' := mkBlock (addr b) (size b + 8 + size nb) (is_free b)) in *.
      destruct (IH (coalesce s (addr b)) l1 b' fl1 fuel W1 ltac:(lia))
        as [s' [fl' (E' & W' & G' & F')]].
      change (addr b') with (addr b) in E'.
      exists s', fl'. splits; try assumption.
      * eapply same_globals_trans; eassumption.
      * intros a Ha Hab. rewrite F'; [apply F1; assumption | | exact Hab].
        intros c Hc Fc. apply in_app_or in Hc. destruct Hc as [Hc | [<- | Hc]].
        { apply Ha; [apply in_or_app; left; assumption | assumption]. }
        { simpl in *. apply Ha; assumption. }
        { apply Ha; [apply in_or_app; right; right; right; assumption | assumption]. }
    + exists s, fl. splits; try assumption; try reflexivity.
      apply same_globals_refl.
Qed.

Lemma wf_length s bl fl : heap_wf s bl fl -> (length fl <= length bl)%nat.
Proof.
  intros [H _]. rewrite <- (length_map addr bl).
  apply NoDup_incl_length; [exact (pre_nodup _ _ _ H)|].
  intros x Hx. apply (pre_incl _ _ _ H). assumption.
Qed.

Lemma absorb_length req l2 : forall b,
  (length (snd (absorb req b l2)) <= length l2)%nat.
Proof.
  induction l2 as [|nb l2 IH]; intros b; simpl; [lia|].
  destruct (is_free nb && (size b <? req)); simpl; [|lia].
  specialize (IH (mkBlock (addr b) (size b + 8 + size nb) (is_free b))). lia.
Qed.

Lemma coalesce_multiple_noop fuel s block req :
  req <= get_payload s block ->
  coalesce_multiple_blocks (S fuel) s block req = Some s.
Proof.
  intros Hle. simpl.
  replace (get_payload s block <? req) with false by (symmetry; apply Z.ltb_ge; lia).
  rewrite andb_false_r. reflexivity.
Qed.

(** Writing into the payload of a used block keeps the heap well formed. *)
Lemma wf_payload_write s bl fl c s' :
  heap_wf s bl fl -> In c bl -> is_free c = false ->
  same_globals s s' -> freelist_start s' = freelist_start s ->
  (forall x, x < addr c + 8 \/ next_addr c <= x -> mem s' x = mem s x) ->
  heap_wf s' bl fl.
Proof.
  intros W Hc Fc (G1 & G2 & G3) Gh Hout. pose proof W as [H Hfl].
  split; [|exact Hfl].
  destruct (pre_block _ _ _ _ H Hc) as (_ & _ & _ & _ & Sc & _).
  constructor.
  - rewrite G1. exact (pre_base _ _ _ H).
  - rewrite G3. exact (pre_end _ _ _ H).
  - rewrite G1, G2, G3. exact (pre_size _ _ _ H).
  - rewrite G1, G3. eapply layout_frame_headers; [exact (pre_layout _ _ _ H)|].
    intros b i Hb Hi. apply Hout.
    destruct (pre_block _ _ _ _ H Hb) as (_ & _ & _ & _ & Sb & _).
    destruct (layout_sep _ _ _ _ _ _ (pre_layout _ _ _ H) Hb Hc) as [->|[|]];
      unfold next_addr in *; lia.
  - exact (pre_min _ _ _ H).
  - rewrite Gh. eapply lseg_frame; [exact (pre_list _ _ _ H)|].
    intros y Hy. destruct (wf_free_block _ _ _ _ W Hy) as [b (Hb & <- & Fb)].
    destruct (pre_block _ _ _ _ H Hb) as (_ & _ & _ & _ & Sb & _).
    assert (b <> c) by (intros ->; congruence).
    destruct (layout_sep _ _ _ _ _ _ (pre_layout _ _ _ H) Hb Hc) as [|[|]];
      [contradiction | |]; unfold next_addr in *;
      split; apply load64_ext; intros i Hi; apply Hout; lia.
  - exact (pre_nodup _ _ _ H).
  - exact (pre_incl _ _ _ H).
Qed.

(** The split of the tail block in [myrealloc]. *)
Lemma tail_split_wf s l1 b fl r :
  heap_wf s (l1 ++ [b]) fl -> is_free b = false ->
  16 <= r -> r mod 8 = 0 -> r + 24 < size b ->
  let new := addr b + 8 + r in
  let s1a := set_payload s new (size b - r - 8) in
  let s1b := set_payload s1a (addr b) (r + 1) in
  heap_wf (add_freelist s1b new)
          (l1 ++ [mkBlock (addr b) r false; mkBlock new (size b - r - 8) true])
          (new :: fl)
  /\ same_globals s (add_freelist s1b new).
Proof.
  intros W Fb Hr16 Hr8 Hrs new s1a s1b. pose proof W as [H Hfl].
  assert (Hb : In b (l1 ++ [b])) by (apply in_or_app; right; left; reflexivity).
  destruct (pre_block _ _ _ _ H Hb) as (B1 & B2 & B3 & B4 & B5 & B6 & B7).
  pose proof (layout_mid _ _ _ _ _ _ (pre_layout _ _ _ H)) as (HA & HB & HE).
  unfold next_addr in *.
  set (b1 := mkBlock (addr b) r false).
  set (b2 := mkBlock new (size b - r - 8) true).
  assert (H2 : heap_pre s1b (l1 ++ [b1; b2] ++ []) fl).
  { apply (pre_replace s _ l1 [b] [b1; b2] [] fl (addr b) (addr b + 8 + size b)).
    - exact H.
    - exact HA.
    - exact HB.
    - repeat split.
    - reflexivity.
    - intros x Hx. simpl. unfold new. rewrite !store64_other by lia. reflexivity.
    - intros c [<- | []] _ x Hx. simpl. unfold new.
      rewrite !store64_other by lia. reflexivity.
    - simpl. unfold new. repeat split; try assumption; try lia.
      + rewrite load64_store64_same. unfold enc; simpl. apply wrap_small. lia.
      + rewrite load64_store64_other by lia. rewrite load64_store64_same.
        unfold enc; simpl. rewrite wrap_small; lia.
      + apply mod8_diff; assumption.
    - repeat constructor; simpl; lia.
    - intros c [<- | []] _. left. reflexivity. }
  simpl app in H2.
  assert (Hnin : ~ In new fl).
  { intros Hy. destruct (pre_fl_block _ _ _ _ H Hy) as [c [Hc E]].
    destruct (pre_block _ _ _ _ H Hc) as (_ & _ & _ & _ & Sc & _).
    destruct (layout_sep _ _ _ _ _ _ (pre_layout _ _ _ H) Hb Hc) as [<-|[|]];
      unfold next_addr, new in *; lia. }
  assert (Hin : In new (map addr (l1 ++ [b1; b2]))).
  { change new with (addr b2). apply in_map. apply in_or_app. right. right. left. reflexivity. }
  destruct (pre_add _ _ _ _ H2 Hin Hnin) as (H3 & _ & HG3).
  split.
  - split; [exact H3|]. intros y. simpl. rewrite Hfl.
    rewrite !free_addrs_app, !in_app_iff, !free_addrs_cons, Fb. simpl. tauto.
  - eapply same_globals_trans; [|exact HG3]. repeat split.
Qed.

Lemma used_ptrs_incl l a : In (a + 8) (used_ptrs l) -> In a (map addr l).
Proof.
  intros H. apply in_used_ptrs in H. destruct H as [b (Hb & E & _)].
  apply in_map_iff. exists b. split; [lia | assumption].
Qed.

Lemma used_ptrs_merge_next b l2 : used_ptrs (merge_next b l2) = used_ptrs (b :: l2).
Proof.
  destruct l2 as [|nb l2]; [reflexivity|]. simpl.
  destruct (is_free nb) eqn:E; [|reflexivity].
  rewrite !used_ptrs_cons. simpl. rewrite E. reflexivity.
Qed.

Lemma used_ptrs_malloc r b l1 l2 q :
  is_free b = true ->
  In q (used_ptrs (l1 ++ malloc_blocks r b l2))
  <-> q = addr b + 8 \/ In q (used_ptrs (l1 ++ b :: l2)).
Proof.
  intros Fb. rewrite !used_ptrs_app, !in_app_iff, (used_ptrs_cons b), Fb.
  unfold malloc_blocks. destruct l2 as [|nb l2]; [destruct (r + 24 <=? size b)|];
    rewrite !used_ptrs_cons; simpl; intuition.
Qed.

Lemma used_ptrs_free m a e l1 b l2 q :
  layout m a (l1 ++ b :: l2) e -> is_free b = false ->
  In q (used_ptrs (l1 ++ merge_next (mkBlock (addr b) (size b) true) l2))
  <-> In q (used_ptrs (l1 ++ b :: l2)) /\ q <> addr b + 8.
Proof.
  intros HL Fb. destruct (layout_fresh _ _ _ _ _ _ HL) as [Fr1 Fr2].
  pose proof (used_ptrs_incl l1 (addr b)). pose proof (used_ptrs_incl l2 (addr b)).
  rewrite !used_ptrs_app, !in_app_iff, used_ptrs_merge_next, !used_ptrs_cons, Fb.
  simpl. intuition (try congruence; subst; tauto).
Qed.

Lemma used_ptrs_realloc r b l2 :
  is_free b = false -> used_ptrs (realloc_blocks r b l2) = used_ptrs (b :: l2).
Proof.
  intros Fb. destruct (absorb_props r l2 b) as (A1 & A2 & A3 & _ & A5).
  rewrite <- A5. unfold realloc_blocks.
  destruct (snd (absorb r b l2)) as [|nb l2'] eqn:E.
  - destruct (r + 24 <? size (fst (absorb r b l2)));
      rewrite !used_ptrs_cons; simpl; rewrite ?A2, ?Fb, ?A1; reflexivity.
  - destruct (r + 24 <=? size b); [|reflexivity].
    rewrite !used_ptrs_cons, used_ptrs_merge_next, !used_ptrs_cons. simpl.
    rewrite A2, Fb, A1. reflexivity.
Qed.

Lemma in_mid {A} (l1 : list A) b l2 : In b (l1 ++ b :: l2).
Proof. apply in_or_app. right. left. reflexivity. Qed.

(** Bytes of a used block lie outside every free block. *)
Lemma used_outside_free s bl fl c a :
  heap_pre s bl fl -> In c bl -> is_free c = false ->
  addr c <= a < next_addr c ->
  forall d, In d bl -> is_free d = true -> a < addr d \/ next_addr d <= a.
Proof.
  intros H Hc Fc Ha d Hd Fd.
  destruct (layout_sep _ _ _ _ _ _ (pre_layout _ _ _ H) Hc Hd) as [E | [E | E]];
    [subst; congruence | lia | lia].
Qed.

Lemma used_outside_links s bl fl c a :
  heap_pre s bl fl -> In c bl -> is_free c = false ->
  addr c <= a < next_addr c ->
  forall d, In d bl -> is_free d = true -> a < addr d + 8 \/ addr d + 24 <= a.
Proof.
  intros H Hc Fc Ha d Hd Fd.
  pose proof (used_outside_free _ _ _ _ _ H Hc Fc Ha d Hd Fd).
  destruct (pre_block _ _ _ _ H Hd) as (_ & _ & _ & _ & D5 & _).
  unfold next_addr in *. lia.
Qed.

Lemma block_outside s bl fl c b a :
  heap_pre s bl fl -> In c bl -> In b bl -> c <> b ->
  addr c <= a < next_addr c -> a < addr b \/ next_addr b <= a.
Proof.
  intros H Hc Hb Hne Ha.
  destruct (layout_sep _ _ _ _ _ _ (pre_layout _ _ _ H) Hc Hb) as [E | [E | E]];
    [contradiction | lia | lia].
Qed.

(** The blocks that [coalesce_multiple_blocks] absorbs are free ones. *)
Lemma absorb_keeps_used req l2 : forall b c,
  In c l2 -> is_free c = false -> In c (snd (absorb req b l2)).
Proof.
  induction l2 as [|nb l2 IH]; intros b c Hc Fc; [destruct Hc|].
  simpl. destruct (is_free nb && (size b <? req)) eqn:E.
  - destruct Hc as [-> | Hc].
    + rewrite Fc in E. discriminate E.
    + apply IH; assumption.
  - exact Hc.
Qed.

Lemma malloc_keeps_used r b l1 l2 c :
  In c (l1 ++ b :: l2) -> c <> b -> In c (l1 ++ malloc_blocks r b l2).
Proof.
  intros Hc Hne. apply in_app_or in Hc. apply in_or_app.
  destruct Hc as [Hc | [Hc | Hc]]; [left; assumption | congruence |].
  right. unfold malloc_blocks. destruct l2 as [|nb l2]; [destruct Hc|].
  right. exact Hc.
Qed.

(** [add_freelist] writes the link fields of the new node and the [prev]
    field of the old head. *)
Lemma add_freelist_footprint s new a :
  a < new + 8 \/ new + 24 <= a ->
  freelist_start s = 0 \/ a < freelist_start s + 8 \/ freelist_start s + 16 <= a ->
  mem (add_freelist s new) a = mem s a.
Proof.
  intros Hn Hf. unfold add_freelist.
  destruct (freelist_start s =? 0) eqn:E; simpl.
  - rewrite !store64_other by lia. reflexivity.
  - apply Z.eqb_neq in E. rewrite !store64_other by lia. reflexivity.
Qed.

Lemma head_in_list s bl fl :
  heap_pre s bl fl -> freelist_start s = 0 \/ In (freelist_start s) fl.
Proof.
  intros H. pose proof (pre_list _ _ _ H) as L.
  destruct fl as [|x fl]; simpl in L; [left; exact L|].
  right. left. symmetry. exact (proj1 L).
Qed.

(** [myrealloc] when the block, after absorbing free neighbours, is large
    enough: the pointer stays, the other used blocks are not written to, and
    the payload is kept up to the new size. *)
Lemma myrealloc_inplace_full max s l1 b l2 fl n fuel :
  heap_wf s (l1 ++ b :: l2) fl -> is_free b = false ->
  0 < n < 2 ^ 64 -> (length (l1 ++ b :: l2) < fuel)%nat ->
  let r := roundup n ALIGNMENT in
  r <= size (fst (absorb r b l2)) ->
  exists s' fl',
    myrealloc max fuel s (addr b + 8) n = Done (s', addr b + 8)
    /\ heap_wf s' (l1 ++ realloc_blocks r b l2) fl'
    /\ same_globals s s'
    /\ (forall c, In c (l1 ++ b :: l2) -> is_free c = false -> c <> b ->
          forall a, addr c <= a < addr c + 8 + size c -> mem s' a = mem s a)
    /\ (forall i, 0 <= i < Z.min (size b) r ->
          mem s' (addr b + 8 + i) = mem s (addr b + 8 + i)).
Proof.
  intros W Fb Hn Hfuel r Hfit. pose proof W as [H Hfl].
  destruct (roundup_props n ltac:(lia)) as [Hr Hr8]. fold r in Hr, Hr8.
  assert (Hb : In b (l1 ++ b :: l2)) by (apply in_or_app; right; left; reflexivity).
  destruct (pre_block _ _ _ _ H Hb) as (B1 & B2 & B3 & B4 & B5 & B6 & B7).
  rewrite length_app in Hfuel. simpl in Hfuel.
  destruct (coalesce_multiple_wf r l2 s l1 b fl fuel W ltac:(lia))
    as [s1 [fl1 (E1 & W1 & G1 & F1)]].
  destruct (absorb_props r l2 b) as (A1 & A2 & A3 & _ & A5).
  (* what the coalescing loop leaves alone *)
  assert (K1 : forall c, In c (l1 ++ b :: l2) -> is_free c = false -> c <> b ->
                 forall a, addr c <= a < addr c + 8 + size c -> mem s1 a = mem s a).
  { intros c Hc Fc Hne a Ha. apply F1.
    - intros d Hd Fd.
      exact (used_outside_links _ _ _ _ _ H Hc Fc Ha d Hd Fd).
    - pose proof (block_outside _ _ _ _ _ a H Hc Hb Hne Ha). unfold next_addr in *. lia. }
  assert (K2 : forall i, 0 <= i < size b ->
                 mem s1 (addr b + 8 + i) = mem s (addr b + 8 + i)).
  { intros i Hi. apply F1; [|lia]. intros d Hd Fd.
    eapply used_outside_links; [exact H | exact Hb | exact Fb | | exact Hd | exact Fd].
    unfold next_addr. lia. }
  assert (K3 : forall c, In c (l1 ++ b :: l2) -> is_free c = false -> c <> b ->
                 In c (l1 ++ fst (absorb r b l2) :: snd (absorb r b l2))
                 /\ c <> fst (absorb r b l2)).
  { intros c Hc Fc Hne. split.
    - apply in_app_or in Hc. apply in_or_app.
      destruct Hc as [Hc | [Hc | Hc]]; [left; assumption | congruence |].
      right. right. apply absorb_keeps_used; assumption.
    - intros ->. apply Hne.
      apply (layout_addr_inj _ _ _ _ _ _ (pre_layout _ _ _ H) Hc Hb). exact A1. }
  unfold myrealloc. fold r. unfold ALIGNMENT, next_addr in *.
  replace (addr b + 8 =? 0) with false by (symmetry; apply Z.eqb_neq; lia).
  replace (n =? 0) with false by (symmetry; apply Z.eqb_neq; lia).
  replace (addr b + 8 - 8) with (addr b) by lia.
  rewrite (wrap_small (addr b)) by lia.
  rewrite E1.
  set (b1 := fst (absorb r b l2)) in *. set (l2' := snd (absorb r b l2)) in *.
  pose proof W1 as [H1 Hfl1].
  assert (Hb1 : In b1 (l1 ++ b1 :: l2')) by (apply in_or_app; right; left; reflexivity).
  destruct (pre_block _ _ _ _ H1 Hb1) as (C1 & C2 & C3 & C4 & C5 & C6 & C7).
  pose proof (block_get_payload _ _ _ _ H1 Hb1) as P1. rewrite A1 in P1. rewrite P1.
  pose proof (block_get_payload _ _ _ _ H Hb) as P0. rewrite P0.
  replace (r <=? size b1) with true by (symmetry; apply Z.leb_le; lia).
  pose proof (tail_test _ _ _ _ _ H1) as TT. rewrite A1 in TT.
  unfold ALIGNMENT, next_addr in *.
  replace (size b1 + (addr b + 8)) with (addr b + size b1 + 8) by lia.
  rewrite TT. rewrite (wrap_small (r + 8 * 3)) by lia.
  unfold realloc_blocks. fold b1 l2'.
  destruct l2' as [|nb' l2''] eqn:El2.
  - (* the block reaches the end of the heap *)
    destruct (r + 8 * 3 <? size b1) eqn:Esp; simpl andb.
    + apply Z.ltb_lt in Esp.
      rewrite (wrap_small (addr b + 8 + r)) by lia.
      rewrite (wrap_small (size b1 - r - 8)) by lia.
      rewrite (wrap_small (r + 1)) by lia.
      assert (Fb1 : is_free b1 = false) by congruence.
      destruct (tail_split_wf s1 l1 b1 fl1 r W1 Fb1 ltac:(lia) Hr8 ltac:(lia)) as [W2 G2].
      rewrite A1 in W2, G2.
      (* the split writes inside the block, past the new size, and into the
         head of the free list *)
      assert (FS : forall a,
                 a < addr b \/ addr b + 8 <= a < addr b + 8 + r
                 \/ addr b + 8 + size b1 <= a ->
                 (forall d, In d (l1 ++ [b1]) -> is_free d = true ->
                    a < addr d + 8 \/ addr d + 24 <= a) ->
                 mem (add_freelist
                        (set_payload
                           (set_payload s1 (addr b + 8 + r) (size b1 - r - 8))
                           (addr b) (r + 1))
                        (addr b + 8 + r)) a = mem s1 a).
      { intros a Ha Hd. rewrite add_freelist_footprint.
        - simpl. rewrite !store64_other by lia. reflexivity.
        - lia.
        - simpl. destruct (head_in_list _ _ _ H1) as [E0 | Hin]; [left; exact E0|].
          right. destruct (wf_free_block _ _ _ _ W1 Hin) as [d (Hd1 & <- & Fd)].
          specialize (Hd d Hd1 Fd). lia. }
      match goal with
      | |- context [add_freelist ?x ?y] => set (s2 := add_freelist x y) in *
      end.
      replace (heap_end s2) with (heap_end s1) by (destruct G2 as (_ & _ & ->); reflexivity).
      rewrite TT. simpl.
      replace (r + 24 <? size b1) with true by (symmetry; apply Z.ltb_lt; lia).
      eexists s2, _. splits; [reflexivity | exact W2 | | |].
      * eapply same_globals_trans; eassumption.
      * intros c Hc Fc Hne a Ha.
        destruct (K3 c Hc Fc Hne) as [Hc1 Hne1].
        rewrite FS; [apply (K1 c); assumption | |].
        -- pose proof (block_outside _ _ _ _ _ a H1 Hc1 Hb1 Hne1) as Ho.
           unfold next_addr in Ho. rewrite A1 in Ho. lia.
        -- intros d Hd Fd. eapply used_outside_links;
             [exact H1 | exact Hc1 | exact Fc | unfold next_addr; lia | exact Hd | exact Fd].
      * intros i Hi. rewrite FS; [apply K2; lia | lia |].
        intros d Hd Fd.
        eapply used_outside_links;
          [exact H1 | exact Hb1 | exact Fb1 | unfold next_addr; rewrite A1 | exact Hd | exact Fd].
        assert (size b <= size b1); [|lia].
        destruct (Z_le_gt_dec r (size b)) as [Hle | Hgt].
        -- unfold b1. rewrite (A3 Hle). simpl. lia.
        -- lia.
    + rewrite TT. simpl.
      apply Z.ltb_ge in Esp.
      replace (r + 24 <? size b1) with false by (symmetry; apply Z.ltb_ge; lia).
      exists s1, fl1. splits; [reflexivity | exact W1 | exact G1 | exact K1 |].
      intros i Hi. apply K2. lia.
  - simpl andb. rewrite TT. simpl negb. simpl andb.
    destruct (r + 8 * 3 <=? size b) eqn:Esp.
    + apply Z.leb_le in Esp.
      assert (Eabs : absorb r b l2 = (b, l2)) by (apply A3; lia).
      assert (Es1 : s1 = s).
      { destruct fuel; [lia|]. rewrite coalesce_multiple_noop in E1 by (rewrite P0; lia).
        congruence. }
      subst s1.
      assert (l2 = nb' :: l2'') by (unfold l2' in El2; rewrite Eabs in El2; exact El2).
      destruct (add_block_wf s l1 b l2 fl r W ltac:(lia) Hr8 ltac:(lia))
        as [fl' (W' & G' & F')].
      replace (r + 24 <=? size b) with true by (symmetry; apply Z.leb_le; lia).
      subst l2.
      exists (add_block s (addr b) r), fl'.
      splits; [reflexivity | exact W' | exact G' | |].
      * intros c Hc Fc Hne a Ha.
        pose proof (block_outside _ _ _ _ _ a H Hc Hb Hne Ha) as Ho. unfold next_addr in Ho.
        apply F'; simpl; [|lia|lia].
        intros d Hd Fd. eapply used_outside_links;
          [exact H | exact Hc | exact Fc | unfold next_addr; lia | exact Hd | exact Fd].
      * intros i Hi. apply F'; simpl; [|lia|lia].
        intros d Hd Fd. eapply used_outside_links;
          [exact H | exact Hb | exact Fb | unfold next_addr; lia | exact Hd | exact Fd].
    + apply Z.leb_gt in Esp.
      replace (r + 24 <=? size b) with false by (symmetry; apply Z.leb_gt; lia).
      exists s1, fl1. splits; [reflexivity | exact W1 | exact G1 | exact K1 |].
      intros i Hi. apply K2. lia.
Qed.

Lemma myrealloc_inplace_wf max s l1 b l2 fl n fuel :
  heap_wf s (l1 ++ b :: l2) fl -> is_free b = false ->
  0 < n < 2 ^ 64 -> (length (l1 ++ b :: l2) < fuel)%nat ->
  let r := roundup n ALIGNMENT in
  r <= size (fst (absorb r b l2)) ->
  exists s' fl',
    myrealloc max fuel s (addr b + 8) n = Done (s', addr b + 8)
    /\ heap_wf s' (l1 ++ realloc_blocks r b l2) fl'
    /\ same_globals s s'.
Proof.
  intros W Fb Hn Hfuel r Hfit.
  destruct (myrealloc_inplace_full max s l1 b l2 fl n fuel W Fb Hn Hfuel Hfit)
    as [s' [fl' (E & W' & G & _)]].
  exists s', fl'. splits; assumption.
Qed.

(** [myrealloc] when the block cannot grow enough in place: the program stops
    if no free block fits, otherwise the payload moves to a fresh block. *)
Lemma myrealloc_move_full max s l1 b l2 fl n fuel :
  heap_wf s (l1 ++ b :: l2) fl -> is_free b = false ->
  0 < n < 2 ^ 64 -> (length (l1 ++ b :: l2) < fuel)%nat ->
  let r := roundup n ALIGNMENT in
  size (fst (absorb r b l2)) < r ->
  myrealloc max fuel s (addr b + 8) n = Crash
  \/ exists s' p' bl' fl',
       myrealloc max fuel s (addr b + 8) n = Done (s', p')
       /\ p' <> addr b + 8 /\ p' <> 0
       /\ heap_wf s' bl' fl' /\ same_globals s s'
       /\ (forall q, In q (used_ptrs bl')
             <-> q = p' \/ (In q (used_ptrs (l1 ++ b :: l2)) /\ q <> addr b + 8))
       /\ (forall i, 0 <= i < size b -> mem s' (p' + i) = mem s (addr b + 8 + i))
       /\ (forall d, In d (l1 ++ b :: l2) -> is_free d = false -> d <> b ->
             forall a, addr d <= a < addr d + 8 + size d -> mem s' a = mem s a).
Proof.
  intros W Fb Hn Hfuel r Hsmall. pose proof W as [H Hfl].
  destruct (roundup_props n ltac:(lia)) as [Hr Hr8]. fold r in Hr, Hr8.
  assert (Hb : In b (l1 ++ b :: l2)) by (apply in_or_app; right; left; reflexivity).
  destruct (pre_block _ _ _ _ H Hb) as (B1 & B2 & B3 & B4 & B5 & B6 & B7).
  pose proof (wf_length _ _ _ W) as Hlen.
  rewrite length_app in Hfuel, Hlen. simpl in Hfuel, Hlen.
  destruct (coalesce_multiple_wf r l2 s l1 b fl fuel W ltac:(lia))
    as [s1 [fl1 (E1 & W1 & G1 & F1)]].
  destruct (absorb_props r l2 b) as (A1 & A2 & A3 & A4 & A5).
  pose proof (absorb_length r l2 b) as AL.
  assert (KA : forall d, In d (l1 ++ b :: l2) -> is_free d = false -> d <> b ->
                 forall a, addr d <= a < addr d + 8 + size d -> mem s1 a = mem s a).
  { intros d Hd Fd Hne a Ha. apply F1.
    - intros d' Hd' Fd'.
      exact (used_outside_links _ _ _ _ _ H Hd Fd Ha d' Hd' Fd').
    - pose proof (block_outside _ _ _ _ _ a H Hd Hb Hne Ha). unfold next_addr in *. lia. }
  assert (KB : forall d, In d (l1 ++ b :: l2) -> is_free d = false -> d <> b ->
                 In d (l1 ++ fst (absorb r b l2) :: snd (absorb r b l2))
                 /\ d <> fst (absorb r b l2)).
  { intros d Hd Fd Hne. split.
    - apply in_app_or in Hd. apply in_or_app.
      destruct Hd as [Hd | [Hd | Hd]]; [left; assumption | congruence |].
      right. right. apply absorb_keeps_used; assumption.
    - intros ->. apply Hne.
      apply (layout_addr_inj _ _ _ _ _ _ (pre_layout _ _ _ H) Hd Hb). exact A1. }
  unfold myrealloc. fold r. unfold ALIGNMENT, next_addr in *.
  replace (addr b + 8 =? 0) with false by (symmetry; apply Z.eqb_neq; lia).
  replace (n =? 0) with false by (symmetry; apply Z.eqb_neq; lia).
  replace (addr b + 8 - 8) with (addr b) by lia.
  rewrite (wrap_small (addr b)) by lia.
  rewrite E1.
  set (b1 := fst (absorb r b l2)) in *. set (l2' := snd (absorb r b l2)) in *.
  pose proof W1 as [H1 Hfl1].
  assert (Hb1 : In b1 (l1 ++ b1 :: l2')) by (apply in_or_app; right; left; reflexivity).
  destruct (pre_block _ _ _ _ H1 Hb1) as (C1 & C2 & C3 & C4 & C5 & C6 & C7).
  pose proof (block_get_payload _ _ _ _ H1 Hb1) as P1. rewrite A1 in P1. rewrite P1.
  pose proof (block_get_payload _ _ _ _ H Hb) as P0. rewrite P0.
  replace (r <=? size b1) with false by (symmetry; apply Z.leb_gt; lia).
  assert (Fb1 : is_free b1 = false) by congruence.
  assert (Sb1 : size b <= size b1).
  { apply A4. apply Forall_forall. intros c Hc.
    assert (Hc' : In c (l1 ++ b :: l2)) by (apply in_or_app; right; right; assumption).
    destruct (pre_block _ _ _ _ H Hc') as (_ & _ & _ & _ & Sc & _). lia. }
  pose proof (wf_length _ _ _ W1) as Hlen1.
  rewrite length_app in Hlen1. simpl in Hlen1.
  (* the payload of the old block is untouched by the coalescing loop *)
  assert (D1 : forall i, 0 <= i < size b -> mem s1 (addr b + 8 + i) = mem s (addr b + 8 + i)).
  { intros i Hi. apply F1; [|lia]. intros c Hc Fc.
    destruct (pre_block _ _ _ _ H Hc) as (_ & _ & _ & _ & Sc & _).
    assert (b <> c) by (intros ->; congruence).
    destruct (layout_sep _ _ _ _ _ _ (pre_layout _ _ _ H) Hb Hc) as [|[|]];
      [contradiction | |]; unfold next_addr in *; lia. }
  destruct (mymalloc_wf max s1 _ fl1 n fuel W1 ltac:(lia) ltac:(lia))
    as [[EM _] | [m1 [c [m2 [s2 [fl2 (Ebl & Fc & Sc & Smax & _ & EM & W2 & G2 & F2)]]]]]];
    rewrite EM.
  { left. destruct (memcpy (mem s1) 0 (addr b + 8) (size b)); reflexivity. }
  right. change (roundup n ALIGNMENT) with r in *.
  assert (Hc1 : In c (l1 ++ b1 :: l2')) by (rewrite Ebl; apply in_or_app; right; left; reflexivity).
  destruct (pre_block _ _ _ _ H1 Hc1) as (K1 & K2 & K3 & K4 & K5 & K6 & K7).
  assert (Hcb : b1 <> c) by (intros ->; congruence).
  assert (Sep : next_addr b1 <= addr c \/ next_addr c <= addr b1).
  { destruct (layout_sep _ _ _ _ _ _ (pre_layout _ _ _ H1) Hb1 Hc1) as [|[|]];
      [contradiction | tauto | tauto]. }
  unfold next_addr in Sep. rewrite A1 in Sep.
  assert (Ecpy : memcpy (mem s2) (addr c + 8) (addr b + 8) (size b)
                 = Some (fun x => if (addr c + 8 <=? x) && (x <? addr c + 8 + size b)
                                  then mem s2 (addr b + 8 + (x - (addr c + 8)))
                                  else mem s2 x)).
  { unfold memcpy, next_addr in *.
    replace (addr c + 8 + size b <=? 2 ^ 64) with true by (symmetry; apply Z.leb_le; lia).
    replace (addr b + 8 + size b <=? 2 ^ 64) with true by (symmetry; apply Z.leb_le; lia).
    reflexivity. }
  rewrite Ecpy.
  replace (addr c + 8 =? 0) with false by (symmetry; apply Z.eqb_neq; lia).
  (* the block handed out by mymalloc *)
  set (bl2 := m1 ++ malloc_blocks r c m2) in *.
  assert (Hcu : exists cu, In cu bl2 /\ addr cu = addr c /\ is_free cu = false
                           /\ r <= size cu).
  { unfold bl2, malloc_blocks.
    destruct m2 as [|mb m2']; [destruct (r + 24 <=? size c)|].
    - exists (mkBlock (addr c) r false). splits; try reflexivity; simpl; try lia.
      apply in_or_app. right. left. reflexivity.
    - exists (mkBlock (addr c) (size c) false). splits; try reflexivity; simpl; try lia.
      apply in_or_app. right. left. reflexivity.
    - exists (mkBlock (addr c) (size c) false). splits; try reflexivity; simpl; try lia.
      apply in_or_app. right. left. reflexivity. }
  destruct Hcu as [cu (Hcu & Acu & Fcu & Scu)].
  assert (Hb2 : In b1 bl2).
  { unfold bl2. rewrite Ebl in Hb1. apply in_app_or in Hb1. apply in_or_app.
    destruct Hb1 as [Hb1 | [Hb1 | Hb1]]; [left; assumption | congruence |].
    right. unfold malloc_blocks. destruct m2 as [|mb m2']; [destruct Hb1|].
    right. assumption. }
  set (s3 := set_mem s2 (fun x => if (addr c + 8 <=? x) && (x <? addr c + 8 + size b)
                                  then mem s2 (addr b + 8 + (x - (addr c + 8)))
                                  else mem s2 x)).
  pose proof W2 as [H2 Hfl2].
  destruct (pre_block _ _ _ _ H2 Hcu) as (U1 & U2 & U3 & U4 & U5 & U6 & U7).
  assert (W3 : heap_wf s3 bl2 fl2).
  { apply (wf_payload_write s2 bl2 fl2 cu s3 W2 Hcu Fcu).
    - repeat split.
    - reflexivity.
    - intros x Hx. unfold s3. simpl.
      destruct ((addr c + 8 <=? x) && (x <? addr c + 8 + size b)) eqn:E; [|reflexivity].
      apply andb_prop in E. destruct E as [E3 E4].
      apply Z.leb_le in E3. apply Z.ltb_lt in E4.
      unfold next_addr in Hx. lia. }
  destruct (in_split _ _ Hb2) as [k1 [k2 Ek]].
  rewrite Ek in W3.
  destruct (myfree_wf _ _ _ _ _ W3 Fb1) as [fl' (W' & G' & F')].
  pose proof (fun q => used_ptrs_free _ _ _ _ _ _ q (pre_layout _ _ _ (proj1 W3)) Fb1) as U.
  rewrite A1 in W', G', F', U.
  eexists _, (addr c + 8), _, fl'. splits.
  - reflexivity.
  - lia.
  - lia.
  - exact W'.
  - eapply same_globals_trans; [exact G1|].
    eapply same_globals_trans; [exact G2|].
    eapply same_globals_trans; [|exact G']. repeat split.
  - intros q. rewrite U.
    rewrite <- Ek. unfold bl2. rewrite (used_ptrs_malloc r c m1 m2 q Fc).
    rewrite <- Ebl, used_ptrs_app, in_app_iff, A5, <- in_app_iff, <- used_ptrs_app.
    intuition lia.
  - intros i Hi. rewrite F'.
    + unfold s3. simpl.
      replace ((addr c + 8 <=? addr c + 8 + i) && (addr c + 8 + i <? addr c + 8 + size b))
        with true
        by (symmetry; apply andb_true_intro; split;
            [apply Z.leb_le | apply Z.ltb_lt]; lia).
      replace (addr b + 8 + (addr c + 8 + i - (addr c + 8))) with (addr b + 8 + i) by lia.
      rewrite F2; [apply D1; assumption|].
      intros d Hd Fd.
      assert (b1 <> d) by (intros ->; congruence).
      destruct (layout_sep _ _ _ _ _ _ (pre_layout _ _ _ H1) Hb1 Hd) as [|[|]];
        [contradiction | |]; unfold next_addr in *; rewrite ?A1 in *; lia.
    + intros d Hd Fd. rewrite <- Ek in Hd.
      destruct (pre_block _ _ _ _ H2 Hd) as (_ & _ & _ & _ & Sd & _).
      assert (cu <> d) by (intros ->; congruence).
      destruct (layout_sep _ _ _ _ _ _ (pre_layout _ _ _ H2) Hcu Hd) as [|[|]];
        [contradiction | |]; unfold next_addr in *; lia.
    + lia.
  - intros d0 Hd0 Fd0 Hne0 a Ha.
    destruct (KB d0 Hd0 Fd0 Hne0) as [Hd1 Hne1].
    assert (Hdc : d0 <> c) by (intros ->; congruence).
    assert (Hd2 : In d0 bl2).
    { unfold bl2. apply malloc_keeps_used; [rewrite <- Ebl; exact Hd1 | exact Hdc]. }
    assert (Hdcu : d0 <> cu).
    { intros ->. apply Hdc.
      apply (layout_addr_inj _ _ _ _ _ _ (pre_layout _ _ _ H1) Hd1 Hc1). exact Acu. }
    rewrite F'.
    + unfold s3. simpl.
      pose proof (block_outside _ _ _ _ _ a H2 Hd2 Hcu Hdcu Ha) as Ho.
      unfold next_addr in Ho.
      replace ((addr c + 8 <=? a) && (a <? addr c + 8 + size b)) with false
        by (symmetry; apply andb_false_iff; rewrite Z.leb_gt, Z.ltb_ge; lia).
      rewrite F2; [apply (KA d0); assumption|].
      intros d Hd Fd. exact (used_outside_free _ _ _ _ _ H1 Hd1 Fd0 Ha d Hd Fd).
    + intros d Hd Fd. rewrite <- Ek in Hd.
      exact (used_outside_links _ _ _ _ _ H2 Hd2 Fd0 Ha d Hd Fd).
    + pose proof (block_outside _ _ _ _ _ a H1 Hd1 Hb1 Hne1 Ha) as Ho.
      unfold next_addr in Ho. rewrite A1 in Ho. lia.
Qed.

Lemma myrealloc_move_wf max s l1 b l2 fl n fuel :
  heap_wf s (l1 ++ b :: l2) fl -> is_free b = false ->
  0 < n < 2 ^ 64 -> (length (l1 ++ b :: l2) < fuel)%nat ->
  let r := roundup n ALIGNMENT in
  size (fst (absorb r b l2)) < r ->
  myrealloc max fuel s (addr b + 8) n = Crash
  \/ exists s' p' bl' fl',
       myrealloc max fuel s (addr b + 8) n = Done (s', p')
       /\ p' <> addr b + 8 /\ p' <> 0
       /\ heap_wf s' bl' fl' /\ same_globals s s'
       /\ (forall q, In q (used_ptrs bl')
             <-> q = p' \/ (In q (used_ptrs (l1 ++ b :: l2)) /\ q <> addr b + 8))
       /\ (forall i, 0 <= i < size b -> mem s' (p' + i) = mem s (addr b + 8 + i)).
Proof.
  intros W Fb Hn Hfuel r Hsmall.
  destruct (myrealloc_move_full max s l1 b l2 fl n fuel W Fb Hn Hfuel Hsmall)
    as [E | [s' [p' [bl' [fl' (E & H1 & H2 & H3 & H4 & H5 & H6 & _)]]]]].
  - left. exact E.
  - right. exists s', p', bl', fl'. splits; assumption.
Qed.

End ExplicitHeap.

(** ** Fuel *)

Section ExplicitFuel.
Import Explicit.

Lemma search_from_mono s request : forall fuel fuel' curr r,
  search_from fuel s curr request = Some r -> (fuel <= fuel')%nat ->
  search_from fuel' s curr request = Some r.
Proof.
  induction fuel as [|k IH]; intros fuel' curr r H Hle; [discriminate|].
  destruct fuel' as [|k']; [lia|]. simpl in *.
  destruct (curr =? 0); [assumption|].
  destruct (check_free s curr && (request <=? get_payload s curr)); [assumption|].
  apply IH; [assumption | lia].
Qed.

Lemma mymalloc_mono max s n fuel fuel' r :
  mymalloc max fuel s n = Some r -> (fuel <= fuel')%nat ->
  mymalloc max fuel' s n = Some r.
Proof.
  unfold mymalloc, search_freelist. intros H Hle.
  destruct (search_from fuel s (freelist_start s) (roundup n ALIGNMENT)) as [x|] eqn:E;
    [|discriminate].
  rewrite (search_from_mono _ _ _ _ _ _ E Hle). exact H.
Qed.

Lemma coalesce_multiple_mono block req : forall fuel fuel' s s',
  coalesce_multiple_blocks fuel s block req = Some s' -> (fuel <= fuel')%nat ->
  coalesce_multiple_blocks fuel' s block req = Some s'.
Proof.
  induction fuel as [|k IH]; intros fuel' s s' H Hle; [discriminate|].
  destruct fuel' as [|k']; [lia|]. simpl in *.
  destruct (check_free s (get_next_block s block) && (get_payload s block <? req));
    [|assumption].
  apply IH; [assumption | lia].
Qed.

Lemma myrealloc_mono max s p n fuel fuel' r :
  myrealloc max fuel s p n = Done r -> (fuel <= fuel')%nat ->
  myrealloc max fuel' s p n = Done r.
Proof.
  unfold myrealloc. intros H Hle.
  destruct (p =? 0).
  { destruct (mymalloc max fuel s n) as [x|] eqn:E; [|discriminate].
    rewrite (mymalloc_mono _ _ _ _ _ _ E Hle). exact H. }
  destruct (n =? 0); [assumption|].
  destruct (coalesce_multiple_blocks fuel s (wrap (p - ALIGNMENT)) (roundup n ALIGNMENT))
    as [s1|] eqn:E; [|discriminate].
  rewrite (coalesce_multiple_mono _ _ _ _ _ _ E Hle).
  destruct (roundup n ALIGNMENT <=? get_payload s1 (wrap (p - ALIGNMENT))); [assumption|].
  destruct (mymalloc max fuel s1 n) as [x|] eqn:E2; [|discriminate].
  rewrite (mymalloc_mono _ _ _ _ _ _ E2 Hle). exact H.
Qed.

End ExplicitFuel.

(** ** The invariant holds along every run *)

Section ExplicitInvariant.
Import Explicit.

Lemma in_remove_iff (l : list Z) p q :
  In q (remove Z.eq_dec p l) <-> In q l /\ q <> p.
Proof.
  split; [apply in_remove|]. intros [H1 H2]. apply in_in_remove; assumption.
Qed.

Lemma used_ptr_block s bl fl p :
  heap_wf s bl fl -> In p (used_ptrs bl) ->
  exists l1 b l2, bl = l1 ++ b :: l2 /\ p = addr b + 8 /\ is_free b = false.
Proof.
  intros W Hp. apply in_used_ptrs in Hp. destruct Hp as [b (Hb & E & Fb)].
  destruct (in_split _ _ Hb) as [l1 [l2 ->]]. exists l1, b, l2. auto.
Qed.

Lemma myinit_inv s heap_start heap_size s' :
  valid_region heap_start heap_size ->
  myinit s heap_start heap_size = (s', true) ->
  heap_wf s' [mkBlock heap_start (heap_size - 8) true] [heap_start].
Proof.
  intros (Hs & Hm & He). unfold myinit, ALIGNMENT.
  destruct (heap_size <? 8 * 3) eqn:E; [discriminate|].
  apply Z.ltb_ge in E. intros Heq. inversion Heq; subst s'; clear Heq.
  assert (Hsz : (heap_size - 8) mod 8 = 0).
  { pose proof (Z.div_mod heap_size 8 ltac:(lia)).
    replace (heap_size - 8) with ((heap_size / 8 - 1) * 8) by lia.
    apply Z.mod_mul. lia. }
  split.
  - constructor; simpl.
    + lia.
    + rewrite wrap_small by lia. lia.
    + rewrite wrap_small by lia. lia.
    + rewrite !load64_store64_other by lia. rewrite load64_store64_same.
      rewrite (wrap_small (heap_start + heap_size)) by lia.
      rewrite (wrap_small (heap_size - 8)) by lia.
      unfold enc. simpl. rewrite wrap_small by lia.
      splits; try reflexivity; try lia; try assumption.
    + repeat constructor. simpl. lia.
    + splits; try reflexivity; try lia.
      * rewrite load64_store64_other by lia. rewrite load64_store64_same. reflexivity.
      * rewrite load64_store64_same. reflexivity.
    + repeat constructor. intros [].
    + intros x Hx. exact Hx.
  - intros x. rewrite free_addrs_cons. simpl. tauto.
Qed.

Lemma mymalloc_inv max s live fuel n s' p :
  Inv s live -> 0 <= n < 2 ^ 64 ->
  mymalloc max fuel s n = Some (s', p) ->
  Inv s' (if p =? 0 then live else p :: live).
Proof.
  intros [bl [fl [W Hlive]]] Hn E.
  apply (mymalloc_mono _ _ _ _ (Nat.max fuel (S (length fl)))) in E;
    [|apply Nat.le_max_l].
  destruct (mymalloc_wf max s bl fl n _ W Hn (Nat.le_max_r fuel (S (length fl))))
    as [[E' _] | [l1 [b [l2 [s2 [fl' (Ebl & Fb & _ & _ & _ & E' & W' & _)]]]]]];
    rewrite E' in E; inversion E; subst; clear E.
  - simpl. exists bl, fl. split; assumption.
  - assert (Hb : In b (l1 ++ b :: l2)) by (apply in_or_app; right; left; reflexivity).
    destruct (pre_block _ _ _ _ (proj1 W) Hb) as (_ & _ & B3 & _).
    replace (addr b + 8 =? 0) with false by (symmetry; apply Z.eqb_neq; lia).
    exists (l1 ++ malloc_blocks (roundup n ALIGNMENT) b l2), fl'.
    split; [assumption|]. intros q.
    rewrite used_ptrs_malloc by assumption. simpl. rewrite Hlive.
    intuition congruence.
Qed.

Lemma myfree_inv s live p :
  Inv s live -> p = 0 \/ In p live ->
  Inv (myfree s p) (remove Z.eq_dec p live).
Proof.
  intros [bl [fl [W Hlive]]] Hp.
  assert (H0 : ~ In 0 live).
  { intros H0. apply Hlive in H0.
    destruct (used_ptr_block _ _ _ _ W H0) as [l1 [b [l2 (-> & E & _)]]].
    assert (Hb : In b (l1 ++ b :: l2)) by (apply in_or_app; right; left; reflexivity).
    destruct (pre_block _ _ _ _ (proj1 W) Hb) as (_ & _ & B3 & _). lia. }
  destruct Hp as [-> | Hp].
  - unfold myfree. simpl. exists bl, fl. split; [assumption|].
    intros q. rewrite in_remove_iff, <- Hlive. split; [tauto|].
    intros Hq. split; [assumption|]. intros ->. contradiction.
  - apply Hlive in Hp.
    destruct (used_ptr_block _ _ _ _ W Hp) as [l1 [b [l2 (-> & -> & Fb)]]].
    destruct (myfree_wf _ _ _ _ _ W Fb) as [fl' (W' & _)].
    eexists _, fl'. split; [exact W'|]. intros q.
    rewrite (used_ptrs_free _ _ _ _ _ _ q (pre_layout _ _ _ (proj1 W)) Fb).
    rewrite in_remove_iff, Hlive. reflexivity.
Qed.

Lemma myrealloc_inv max s live fuel p n s' p' :
  Inv s live -> p = 0 \/ In p live -> 0 <= n < 2 ^ 64 ->
  myrealloc max fuel s p n = Done (s', p') ->
  Inv s' (realloc_live live p n p').
Proof.
  intros HI Hp Hn E. unfold realloc_live.
  destruct Hp as [-> | Hp].
  { unfold myrealloc in E. simpl in E.
    destruct (mymalloc max fuel s n) as [[s2 q]|] eqn:EM; [|discriminate].
    simpl in E. inversion E; subst. eapply mymalloc_inv; eassumption. }
  pose proof HI as [bl [fl [W Hlive]]].
  apply Hlive in Hp.
  destruct (used_ptr_block _ _ _ _ W Hp) as [l1 [b [l2 (-> & -> & Fb)]]].
  assert (Hb : In b (l1 ++ b :: l2)) by (apply in_or_app; right; left; reflexivity).
  destruct (pre_block _ _ _ _ (proj1 W) Hb) as (_ & _ & B3 & _).
  replace (addr b + 8 =? 0) with false by (symmetry; apply Z.eqb_neq; lia).
  destruct (n =? 0) eqn:En.
  { unfold myrealloc in E.
    replace (addr b + 8 =? 0) with false in E by (symmetry; apply Z.eqb_neq; lia).
    rewrite En in E. inversion E; subst.
    apply myfree_inv; [assumption|]. right. apply Hlive. assumption. }
  apply Z.eqb_neq in En.
  set (fuel' := Nat.max fuel (S (length (l1 ++ b :: l2)))).
  apply (myrealloc_mono _ _ _ _ _ fuel') in E; [|apply Nat.le_max_l].
  assert (Hfuel' : (length (l1 ++ b :: l2) < fuel')%nat) by apply Nat.le_max_r.
  set (r := roundup n ALIGNMENT).
  destruct (Z_le_gt_dec r (size (fst (absorb r b l2)))) as [Hfit | Hsmall].
  - destruct (myrealloc_inplace_wf max s l1 b l2 fl n fuel' W Fb ltac:(lia)
                Hfuel' Hfit) as [s2 [fl' (E' & W' & _)]].
    rewrite E' in E. inversion E; subst. rewrite Z.eqb_refl.
    eexists _, fl'. split; [exact W'|]. intros q. rewrite Hlive.
    rewrite !used_ptrs_app, !in_app_iff, used_ptrs_realloc by assumption. reflexivity.
  - destruct (myrealloc_move_wf max s l1 b l2 fl n fuel' W Fb ltac:(lia)
                Hfuel' ltac:(fold r; lia))
      as [E' | [s2 [q [bl' [fl' (E' & Hq & Hq0 & W' & _ & U & _)]]]]];
      rewrite E' in E; [discriminate|]. inversion E; subst.
    replace (p' =? addr b + 8) with false by (symmetry; apply Z.eqb_neq; assumption).
    exists bl', fl'. split; [exact W'|]. intros q. rewrite U. simpl.
    rewrite in_remove_iff, Hlive. intuition congruence.
Qed.

Lemma write_inv s live p i v :
  Inv s live -> In p live -> 0 <= i < get_payload s (p - 8) ->
  Inv (set_mem s (store8 (mem s) (p + i) v)) live.
Proof.
  intros [bl [fl [W Hlive]]] Hp Hi.
  apply Hlive in Hp.
  destruct (used_ptr_block _ _ _ _ W Hp) as [l1 [b [l2 (-> & -> & Fb)]]].
  assert (Hb : In b (l1 ++ b :: l2)) by (apply in_or_app; right; left; reflexivity).
  replace (addr b + 8 - 8) with (addr b) in Hi by lia.
  rewrite (block_get_payload _ _ _ _ (proj1 W) Hb) in Hi.
  exists (l1 ++ b :: l2), fl. split; [|assumption].
  apply (wf_payload_write s _ fl b _ W Hb Fb).
  - repeat split.
  - reflexivity.
  - intros x Hx. simpl. unfold store8, next_addr in *.
    replace (x =? addr b + 8 + i) with false by (symmetry; apply Z.eqb_neq; lia).
    reflexivity.
Qed.

Theorem reachable_inv max s live : reachable max s live -> Inv s live.
Proof.
  induction 1.
  - exists [mkBlock heap_start (heap_size - 8) true], [heap_start].
    split; [eapply myinit_inv; eassumption|]. intros p. simpl. tauto.
  - eapply mymalloc_inv; eassumption.
  - apply myfree_inv; assumption.
  - eapply myrealloc_inv; eassumption.
  - apply write_inv; assumption.
Qed.

End ExplicitInvariant.

(** ** Walking a well-formed heap *)

Section ExplicitWalk.
Import Explicit.

Lemma validate_blocks_layout s bl fl :
  heap_pre s bl fl ->
  forall l2 l1 fuel a total,
    bl = l1 ++ l2 -> layout (mem s) a l2 (heap_end s) ->
    (length l2 <= fuel)%nat -> 0 <= total -> total + total_size l2 < 2 ^ 64 ->
    validate_blocks fuel s a total = Some (Some (total + total_size l2)).
Proof.
  intros H. induction l2 as [|b l2 IH]; intros l1 fuel a total Ebl HL Hf Ht Hs.
  - simpl in HL. subst a. simpl. destruct fuel; simpl; rewrite Z.eqb_refl;
      rewrite Z.add_0_r; reflexivity.
  - assert (Hb : In b bl) by (subst bl; apply in_or_app; right; left; reflexivity).
    destruct (pre_block _ _ _ _ H Hb) as (B1 & B2 & B3 & B4 & B5 & B6 & B7).
    pose proof (block_get_payload _ _ _ _ H Hb) as P.
    pose proof HL as (Ea & _ & _ & HL'). subst a.
    pose proof (layout_total _ _ _ _ HL') as Tot.
    pose proof (layout_le _ _ _ _ HL') as Hle.
    destruct fuel; [simpl in Hf; lia|]. simpl in Hf. simpl in Hs.
    cbn [validate_blocks]. unfold next_addr, ALIGNMENT in *.
    replace (addr b =? heap_end s) with false by (symmetry; apply Z.eqb_neq; lia).
    replace (heap_end s <? addr b) with false by (symmetry; apply Z.ltb_ge; lia).
    rewrite P, B6. simpl.
    rewrite (wrap_small (addr b + (size b + 8))) by lia.
    assert (0 <= total_size l2) by lia.
    rewrite (wrap_small (total + (size b + 8))) by lia.
    replace (addr b + (size b + 8)) with (addr b + 8 + size b) by lia.
    rewrite (IH (l1 ++ [b]) fuel _ _); try lia.
    + f_equal. f_equal. simpl. lia.
    + rewrite <- app_assoc. exact Ebl.
    + exact HL'.
Qed.

Lemma block_addrs_layout s bl fl :
  heap_pre s bl fl ->
  forall l2 l1 fuel a,
    bl = l1 ++ l2 -> layout (mem s) a l2 (heap_end s) ->
    (length l2 <= fuel)%nat ->
    block_addrs fuel s a = Some (map addr l2).
Proof.
  intros H. induction l2 as [|b l2 IH]; intros l1 fuel a Ebl HL Hf.
  - simpl in HL. subst a. simpl. destruct fuel; simpl; rewrite Z.eqb_refl; reflexivity.
  - assert (Hb : In b bl) by (subst bl; apply in_or_app; right; left; reflexivity).
    destruct (pre_block _ _ _ _ H Hb) as (B1 & B2 & B3 & B4 & B5 & B6 & B7).
    pose proof (block_get_payload _ _ _ _ H Hb) as P.
    pose proof HL as (Ea & _ & _ & HL'). subst a.
    destruct fuel; [simpl in Hf; lia|]. simpl in Hf.
    cbn [block_addrs]. unfold next_addr, ALIGNMENT in *.
    replace (addr b =? heap_end s) with false by (symmetry; apply Z.eqb_neq; lia).
    replace (heap_end s <? addr b) with false by (symmetry; apply Z.ltb_ge; lia).
    rewrite P. rewrite (IH (l1 ++ [b]) fuel _); try lia.
    + reflexivity.
    + rewrite <- app_assoc. exact Ebl.
    + exact HL'.
Qed.

Lemma validate_freelist_wf s bl fl :
  heap_wf s bl fl ->
  forall l p c fuel,
    lseg (mem s) p c l 0 -> (forall y, In y l -> In y fl) ->
    (length l <= fuel)%nat ->
    validate_freelist fuel s c = Some true.
Proof.
  intros W. induction l as [|x l IH]; intros p c fuel HL Hsub Hf.
  - simpl in HL. subst c. destruct fuel; reflexivity.
  - destruct HL as (-> & Hx & Hp & HL).
    destruct fuel; [simpl in Hf; lia|]. simpl in Hf.
    cbn [validate_freelist].
    replace (x =? 0) with false by (symmetry; apply Z.eqb_neq; assumption).
    destruct (wf_free_block _ _ _ _ W (Hsub x (or_introl eq_refl))) as [b (Hb & <- & Fb)].
    destruct (pre_block _ _ _ _ (proj1 W) Hb) as (_ & _ & _ & _ & _ & B6 & _).
    rewrite (block_check_free _ _ _ _ (proj1 W) Hb), Fb.
    rewrite (block_get_payload _ _ _ _ (proj1 W) Hb). unfold ALIGNMENT. rewrite B6.
    simpl. apply (IH (addr b)); [exact HL | | lia].
    intros y Hy. apply Hsub. right. assumption.
Qed.

Lemma freelist_nodes_lseg s l : forall p c fuel,
  lseg (mem s) p c l 0 -> (length l <= fuel)%nat ->
  freelist_nodes fuel s c = Some l.
Proof.
  induction l as [|x l IH]; intros p c fuel HL Hf.
  - simpl in HL. subst c. destruct fuel; reflexivity.
  - destruct HL as (-> & Hx & Hp & HL).
    destruct fuel; [simpl in Hf; lia|]. simpl in Hf.
    cbn [freelist_nodes].
    replace (x =? 0) with false by (symmetry; apply Z.eqb_neq; assumption).
    unfold next_field. rewrite (IH x _ fuel HL ltac:(lia)). reflexivity.
Qed.

Lemma lseg_links m l : forall p c a,
  lseg m p c l 0 -> In a l -> load64 m (a + 16) <> 0 ->
  load64 m (load64 m (a + 16) + 8) = a.
Proof.
  induction l as [|x l IH]; intros p c a HL Ha Hn; [destruct Ha|].
  destruct HL as (-> & Hx & Hp & HL).
  destruct Ha as [<- | Ha].
  - destruct l as [|y l]; [simpl in HL; contradiction|].
    destruct HL as (E & _ & Hpy & _). rewrite E. exact Hpy.
  - eapply IH; eassumption.
Qed.

Lemma total_size_addrs s bl fl :
  heap_pre s bl fl ->
  forall l2, incl l2 bl ->
    fold_right (fun a acc => get_payload s a + ALIGNMENT + acc) 0 (map addr l2)
    = total_size l2.
Proof.
  intros H. induction l2 as [|b l2 IH]; intros Hi; [reflexivity|].
  simpl. rewrite IH by (intros x Hx; apply Hi; right; assumption).
  rewrite (block_get_payload _ _ _ _ H (Hi b (or_introl eq_refl))).
  unfold ALIGNMENT. lia.
Qed.

End ExplicitWalk.

(** ** The invariants of the explicit allocator *)

Section ExplicitClaims.
Import Explicit.

(** C1 (partition invariant).  In every state reached from a successful
    [myinit] by [mymalloc], [myfree] and [myrealloc] calls with valid
    arguments, walking the blocks from [segment_start], advancing each time by
    the header size plus the payload size, stops exactly at [heap_end] without
    ever passing it; the payload-plus-header sizes of the blocks met add up to
    [segment_size]; and [validate_heap] returns true. *)
Theorem partition_invariant max s live :
  reachable max s live ->
  exists addrs,
    block_addrs (length addrs) s (segment_start s) = Some addrs
    /\ fold_right (fun a acc => get_payload s a + ALIGNMENT + acc) 0 addrs
       = segment_size s
    /\ validate_heap (length addrs) s = Some true.
Proof.
  intros R. destruct (reachable_inv _ _ _ R) as [bl [fl [W _]]].
  pose proof W as [H _].
  pose proof (layout_total _ _ _ _ (pre_layout _ _ _ H)) as Tot.
  pose proof (pre_size _ _ _ H) as Sz. pose proof (pre_base _ _ _ H).
  pose proof (pre_end _ _ _ H).
  exists (map addr bl). rewrite length_map. splits.
  - apply (block_addrs_layout s bl fl H bl []); [reflexivity | | lia].
    exact (pre_layout _ _ _ H).
  - rewrite (total_size_addrs s bl fl H bl) by (intros x Hx; exact Hx). lia.
  - unfold validate_heap.
    rewrite (validate_blocks_layout s bl fl H bl [] (length bl) _ 0 eq_refl
               (pre_layout _ _ _ H)) by lia.
    replace (0 + total_size bl =? segment_size s) with true
      by (symmetry; apply Z.eqb_eq; lia).
    simpl. apply (validate_freelist_wf s bl fl W fl 0).
    + exact (pre_list _ _ _ H).
    + intros y Hy. exact Hy.
    + apply (wf_length _ _ _ W).
Qed.

(** C2 (free-list membership invariant).  In every state reached from a
    successful [myinit] by calls with valid arguments: following [next] from
    [freelist_start] reaches the null pointer within as many steps as there are
    blocks, without visiting a node twice; a block of the region has its free
    flag set if and only if it is one of the nodes visited; and whenever the
    [next] of a node is a block, the [prev] of that block is the node. *)
Theorem freelist_invariant max s live :
  reachable max s live ->
  exists addrs nodes,
    block_addrs (length addrs) s (segment_start s) = Some addrs
    /\ freelist_nodes (length addrs) s (freelist_start s) = Some nodes
    /\ NoDup nodes
    /\ (forall a, In a addrs -> (check_free s a = true <-> In a nodes))
    /\ (forall a, In a nodes -> In a addrs)
    /\ (forall a b, In a nodes -> next_field s a = b -> b <> 0 ->
          prev_field s b = a).
Proof.
  intros R. destruct (reachable_inv _ _ _ R) as [bl [fl [W _]]].
  pose proof W as [H Hfl].
  exists (map addr bl), fl. rewrite length_map. splits.
  - apply (block_addrs_layout s bl fl H bl []); [reflexivity | | lia].
    exact (pre_layout _ _ _ H).
  - apply (freelist_nodes_lseg s fl 0); [exact (pre_list _ _ _ H)|].
    apply (wf_length _ _ _ W).
  - exact (pre_nodup _ _ _ H).
  - intros a Ha. apply in_map_iff in Ha. destruct Ha as [b [<- Hb]].
    rewrite (block_check_free _ _ _ _ H Hb), Hfl, in_free_addrs. split.
    + intros Fb. exists b. auto.
    + intros [c (Hc & E & Fc)].
      rewrite <- (layout_addr_inj _ _ _ _ _ _ (pre_layout _ _ _ H) Hc Hb E).
      exact Fc.
  - exact (pre_incl _ _ _ H).
  - intros a b Ha <- Hn. unfold prev_field, next_field in *.
    eapply lseg_links; [exact (pre_list _ _ _ H) | exact Ha | exact Hn].
Qed.

Lemma wf_not_free s bl fl b :
  heap_wf s bl fl -> In b bl -> is_free b = false -> ~ In (addr b) fl.
Proof.
  intros [H Hfl] Hb Fb Hin. apply Hfl in Hin. apply in_free_addrs in Hin.
  destruct Hin as [c (Hc & E & Fc)].
  rewrite (layout_addr_inj _ _ _ _ _ _ (pre_layout _ _ _ H) Hc Hb E) in Fc.
  congruence.
Qed.

Lemma wf_nodes s bl fl :
  heap_wf s bl fl -> freelist_nodes (length bl) s (freelist_start s) = Some fl.
Proof.
  intros W. apply (freelist_nodes_lseg s fl 0).
  - exact (pre_list _ _ _ (proj1 W)).
  - apply (wf_length _ _ _ W).
Qed.

(** C6 (tail split in [mymalloc]), amended.  In a reachable state, when the
    first-fit search finds a block and the rounded request does not exceed
    [MAX_REQUEST_SIZE], [mymalloc] returns the address one header past the
    block.  It splits the block if and only if the block is the last one in
    address order and its payload is at least the request plus three header
    sizes (equality included): the block then keeps a payload of exactly the
    request and the rest becomes a new free block that replaces it on the free
    list.  Otherwise the whole block is marked used and taken off the free
    list. *)
Theorem mymalloc_split_condition max s live n fuel block :
  reachable max s live -> 0 <= n < 2 ^ 64 ->
  let request := roundup n ALIGNMENT in
  search_freelist fuel s request = Some block -> block <> 0 -> request <= max ->
  let split :=
    (block + get_payload s block + ALIGNMENT =? heap_end s)
    && (request + 3 * ALIGNMENT <=? get_payload s block) in
  exists s' k nodes k' nodes',
    mymalloc max fuel s n = Some (s', block + ALIGNMENT)
    /\ check_free s' block = false
    /\ freelist_nodes k s (freelist_start s) = Some nodes
    /\ freelist_nodes k' s' (freelist_start s') = Some nodes'
    /\ In block nodes /\ ~ In block nodes'
    /\ if split
       then get_payload s' block = request
            /\ check_free s' (block + ALIGNMENT + request) = true
            /\ get_payload s' (block + ALIGNMENT + request)
               = get_payload s block - request - ALIGNMENT
            /\ (forall y, In y nodes'
                  <-> y = block + ALIGNMENT + request \/ (In y nodes /\ y <> block))
       else get_payload s' block = get_payload s block
            /\ (forall y, In y nodes' <-> In y nodes /\ y <> block).
Proof.
  intros R Hn request Es Hb0 Hmax split.
  destruct (reachable_inv _ _ _ R) as [bl [fl [W _]]].
  pose proof W as [H Hfl].
  set (fuel' := Nat.max fuel (S (length fl))).
  assert (Es' : search_freelist fuel' s request = Some block).
  { unfold search_freelist in *. eapply search_from_mono; [exact Es|]. apply Nat.le_max_l. }
  destruct (mymalloc_wf max s bl fl n fuel' W Hn (Nat.le_max_r fuel (S (length fl))))
    as [[_ [Hc | [Hc _]]] | [l1 [b [l2 [s' [fl' (Ebl & Fb & Sb & _ & Eb & EM & W' & _ & _)]]]]]].
  { fold request in Hc. lia. }
  { fold request in Hc. rewrite Hc in Es'. congruence. }
  fold request in Sb, Eb, W'. rewrite Eb in Es'. inversion Es'; subst block bl.
  assert (EM0 : mymalloc max fuel s n = mymalloc max fuel' s n).
  { unfold mymalloc. fold request. rewrite Es, Eb. reflexivity. }
  assert (Hb : In b (l1 ++ b :: l2)) by (apply in_or_app; right; left; reflexivity).
  destruct (pre_block _ _ _ _ H Hb) as (B1 & B2 & B3 & B4 & B5 & B6 & B7).
  pose proof (tail_test _ _ _ _ _ H) as TT.
  unfold split. rewrite (block_get_payload _ _ _ _ H Hb).
  unfold ALIGNMENT, next_addr in *. rewrite wrap_small in TT by lia. rewrite TT.
  pose proof W' as [H' Hfl'].
  destruct (layout_fresh _ _ _ _ _ _ (pre_layout _ _ _ H)) as [Fr1 Fr2].
  pose proof (free_addrs_incl l1 (addr b)) as I1.
  pose proof (free_addrs_incl l2 (addr b)) as I2.
  exists s', (length (l1 ++ b :: l2)), fl, (length (l1 ++ malloc_blocks request b l2)), fl'.
  assert (Hub : exists ub, In ub (l1 ++ malloc_blocks request b l2)
                  /\ addr ub = addr b /\ is_free ub = false
                  /\ size ub = if match l2 with [] => true | _ => false end
                                  && (request + 24 <=? size b)
                               then request else size b).
  { unfold malloc_blocks. destruct l2 as [|nb l2']; [destruct (request + 24 <=? size b)|];
      eexists; (split; [apply in_or_app; right; left; reflexivity|]); simpl; auto. }
  destruct Hub as [ub (Hub & Aub & Fub & Sub)].
  splits.
  - rewrite EM0. exact EM.
  - rewrite <- Aub. rewrite (block_check_free _ _ _ _ H' Hub). exact Fub.
  - apply wf_nodes. exact W.
  - apply wf_nodes. exact W'.
  - apply Hfl. apply in_free_addrs. exists b. auto.
  - rewrite <- Aub. apply (wf_not_free _ _ _ _ W' Hub Fub).
  - replace (request + 3 * 8) with (request + 24) by lia.
    unfold malloc_blocks in *.
    destruct l2 as [|nb l2']; simpl andb in *;
      [destruct (request + 24 <=? size b) eqn:Esp|].
    + assert (Hnew : In (mkBlock (addr b + 8 + request) (size b - request - 8) true)
                        (l1 ++ [mkBlock (addr b) request false;
                                mkBlock (addr b + 8 + request) (size b - request - 8) true]))
        by (apply in_or_app; right; right; left; reflexivity).
      pose proof (block_get_payload _ _ _ _ H' Hub) as P1.
      pose proof (block_get_payload _ _ _ _ H' Hnew) as P2.
      pose proof (block_check_free _ _ _ _ H' Hnew) as P3.
      rewrite Aub, Sub in P1. simpl in P2, P3.
      splits; try assumption.
      intros y. rewrite Hfl', Hfl.
      rewrite !free_addrs_app, !in_app_iff, !free_addrs_cons, Fb. simpl.
      intuition (try congruence; subst; tauto).
    + pose proof (block_get_payload _ _ _ _ H' Hub) as P1. rewrite Aub, Sub in P1.
      split; [assumption|].
      intros y. rewrite Hfl', Hfl.
      rewrite !free_addrs_app, !in_app_iff, !free_addrs_cons, Fb. simpl.
      intuition (try congruence; subst; tauto).
    + pose proof (block_get_payload _ _ _ _ H' Hub) as P1. rewrite Aub, Sub in P1.
      split; [assumption|].
      intros y. rewrite Hfl', Hfl.
      rewrite !free_addrs_app, !in_app_iff, (free_addrs_cons b),
        (free_addrs_cons (mkBlock (addr b) (size b) false)), Fb. simpl.
      intuition (try congruence; subst; tauto).
Qed.

(** C7 (coalesce on release).  In a reachable state, releasing an owned
    pointer whose block has a free block immediately to its right leaves one
    free block in place of the two, whose payload is the sum of both payloads
    plus one header size; the absorbed neighbour leaves the free list and the
    released block enters it.  Nothing is merged leftward: every block to the
    left, free or not, keeps its place, payload and status. *)
Theorem myfree_coalesces_right max s live p nb :
  reachable max s live -> In p live ->
  get_next_block s (p - ALIGNMENT) = nb -> check_free s nb = true ->
  let block := p - ALIGNMENT in
  let s' := myfree s p in
  exists left right k nodes k' nodes',
    block_addrs (length (left ++ block :: nb :: right)) s (segment_start s)
    = Some (left ++ block :: nb :: right)
    /\ block_addrs (length (left ++ block :: right)) s' (segment_start s')
       = Some (left ++ block :: right)
    /\ check_free s' block = true
    /\ get_payload s' block = get_payload s block + get_payload s nb + ALIGNMENT
    /\ (forall a, In a left ->
          get_payload s' a = get_payload s a /\ check_free s' a = check_free s a)
    /\ freelist_nodes k s (freelist_start s) = Some nodes
    /\ freelist_nodes k' s' (freelist_start s') = Some nodes'
    /\ (forall y, In y nodes' <-> y = block \/ (In y nodes /\ y <> nb)).
Proof.
  intros R Hp Enb Fnb block s'.
  destruct (reachable_inv _ _ _ R) as [bl [fl [W Hlive]]].
  pose proof W as [H Hfl]. apply Hlive in Hp.
  destruct (used_ptr_block _ _ _ _ W Hp) as [l1 [b [l2 (-> & -> & Fb)]]].
  unfold block, s', ALIGNMENT in *. clear block s'.
  replace (addr b + 8 - 8) with (addr b) in * by lia.
  rewrite (get_next_block_spec _ _ _ _ _ H) in Enb.
  destruct l2 as [|nbk l2']; [subst nb; discriminate Fnb|]. subst nb.
  assert (Hb : In b (l1 ++ b :: nbk :: l2')) by (apply in_or_app; right; left; reflexivity).
  assert (Hnb : In nbk (l1 ++ b :: nbk :: l2'))
    by (apply in_or_app; right; right; left; reflexivity).
  rewrite (block_check_free _ _ _ _ H Hnb) in Fnb.
  destruct (myfree_wf _ _ _ _ _ W Fb) as [fl' (W' & (G1 & G2 & G3) & _)].
  cbn [merge_next] in W'. rewrite Fnb in W'. simpl in W'.
  set (mb := mkBlock (addr b) (size b + 8 + size nbk) true) in *.
  pose proof W' as [H' Hfl'].
  assert (Hmb : In mb (l1 ++ mb :: l2')) by (apply in_or_app; right; left; reflexivity).
  exists (map addr l1), (map addr l2'),
    (length (l1 ++ b :: nbk :: l2')), fl, (length (l1 ++ mb :: l2')), fl'.
  splits.
  - replace (map addr l1 ++ addr b :: addr nbk :: map addr l2')
      with (map addr (l1 ++ b :: nbk :: l2')) by (rewrite map_app; reflexivity).
    rewrite length_map.
    apply (block_addrs_layout s _ fl H _ []); [reflexivity | | lia].
    exact (pre_layout _ _ _ H).
  - replace (map addr l1 ++ addr b :: map addr l2')
      with (map addr (l1 ++ mb :: l2')) by (rewrite map_app; reflexivity).
    rewrite length_map.
    apply (block_addrs_layout _ _ fl' H' _ []); [reflexivity | | lia].
    exact (pre_layout _ _ _ H').
  - apply (block_check_free _ _ _ _ H' Hmb).
  - rewrite (block_get_payload _ _ _ _ H Hb), (block_get_payload _ _ _ _ H Hnb).
    pose proof (block_get_payload _ _ _ _ H' Hmb) as P. simpl in P. rewrite P. lia.
  - intros a Ha. apply in_map_iff in Ha. destruct Ha as [c [<- Hc]].
    assert (Hc1 : In c (l1 ++ b :: nbk :: l2')) by (apply in_or_app; left; assumption).
    assert (Hc2 : In c (l1 ++ mb :: l2')) by (apply in_or_app; left; assumption).
    rewrite (block_get_payload _ _ _ _ H Hc1), (block_get_payload _ _ _ _ H' Hc2).
    rewrite (block_check_free _ _ _ _ H Hc1), (block_check_free _ _ _ _ H' Hc2).
    split; reflexivity.
  - apply wf_nodes. exact W.
  - apply wf_nodes. exact W'.
  - intros y. rewrite Hfl', Hfl.
    assert (HL : layout (mem s) (segment_start s) ((l1 ++ [b]) ++ nbk :: l2') (heap_end s)).
    { rewrite <- app_assoc. exact (pre_layout _ _ _ H). }
    destruct (layout_fresh _ _ _ _ _ _ HL) as [Fr1 Fr2].
    rewrite map_app, in_app_iff in Fr1.
    pose proof (free_addrs_incl l1 (addr nbk)) as I1.
    pose proof (free_addrs_incl l2' (addr nbk)) as I2.
    rewrite !free_addrs_app, !in_app_iff, (free_addrs_cons mb), (free_addrs_cons b),
      (free_addrs_cons nbk), Fb, Fnb. simpl.
    intuition (try congruence; subst; tauto).
Qed.

Lemma merge_next_head b l2 :
  exists hd tl, merge_next b l2 = hd :: tl /\ addr hd = addr b /\ is_free hd = is_free b.
Proof.
  destruct l2 as [|nb l2']; simpl; [eexists _, _; splits; reflexivity|].
  destruct (is_free nb); eexists _, _; splits; reflexivity.
Qed.

(** X20 (the split of the in-place resize away from the end of the heap).  In a
    reachable state, when [myrealloc] of an owned pointer can be served in
    place after the coalescing loop and the block does not end at [heap_end],
    the original pointer is returned, and the block is split by [add_block]
    if and only if its payload as it stood before the coalescing loop
    ([old_size]) is at least the request plus three header sizes. *)
Theorem myrealloc_inplace_split max s live p n fuel s1 :
  reachable max s live -> In p live -> 0 < n < 2 ^ 64 ->
  let request := roundup n ALIGNMENT in
  let block := p - ALIGNMENT in
  coalesce_multiple_blocks fuel s block request = Some s1 ->
  request <= get_payload s1 block ->
  block + ALIGNMENT + get_payload s1 block <> heap_end s1 ->
  exists s',
    myrealloc max fuel s p n = Done (s', p)
    /\ (get_payload s block < get_payload s1 block -> s' = s1)
    /\ if request + 3 * ALIGNMENT <=? get_payload s block
       then s1 = s /\ s' = add_block s block request
            /\ get_payload s' block = request
            /\ check_free s' block = false
            /\ check_free s' (block + ALIGNMENT + request) = true
       else s' = s1.
Proof.
  intros R Hp Hn request block E1 Hfit Hnt.
  destruct (reachable_inv _ _ _ R) as [bl [fl [W Hlive]]].
  pose proof W as [H Hfl]. apply Hlive in Hp.
  destruct (used_ptr_block _ _ _ _ W Hp) as [l1 [b [l2 (-> & -> & Fb)]]].
  unfold block, ALIGNMENT in *. clear block.
  replace (addr b + 8 - 8) with (addr b) in * by lia.
  destruct (roundup_props n ltac:(lia)) as [Hr Hr8]. fold request in Hr, Hr8.
  assert (Hb : In b (l1 ++ b :: l2)) by (apply in_or_app; right; left; reflexivity).
  destruct (pre_block _ _ _ _ H Hb) as (B1 & B2 & B3 & B4 & B5 & B6 & B7).
  set (fuel' := Nat.max fuel (S (length l2))).
  pose proof (coalesce_multiple_mono _ _ _ fuel' _ _ E1 (Nat.le_max_l _ _)) as E1'.
  destruct (coalesce_multiple_wf request l2 s l1 b fl fuel' W (Nat.le_max_r _ _))
    as [s1' [fl1 (E1'' & W1 & G1 & _)]].
  rewrite E1' in E1''. inversion E1''; subst s1'; clear E1''.
  destruct (absorb_props request l2 b) as (A1 & A2 & A3 & _ & _).
  set (b1 := fst (absorb request b l2)) in *. set (l2' := snd (absorb request b l2)) in *.
  pose proof W1 as [H1 Hfl1].
  assert (Hb1 : In b1 (l1 ++ b1 :: l2')) by (apply in_or_app; right; left; reflexivity).
  destruct (pre_block _ _ _ _ H1 Hb1) as (C1 & C2 & C3 & C4 & C5 & C6 & C7).
  pose proof (block_get_payload _ _ _ _ H1 Hb1) as P1. rewrite A1 in P1.
  pose proof (block_get_payload _ _ _ _ H Hb) as P0.
  rewrite P1 in *. rewrite P0.
  unfold myrealloc. change (roundup n ALIGNMENT) with request.
  unfold ALIGNMENT, next_addr in *.
  replace (addr b + 8 =? 0) with false by (symmetry; apply Z.eqb_neq; lia).
  replace (n =? 0) with false by (symmetry; apply Z.eqb_neq; lia).
  replace (addr b + 8 - 8) with (addr b) by lia.
  rewrite (wrap_small (addr b)) by lia.
  rewrite E1, P1, P0. rewrite A1 in *.
  replace (request <=? size b1) with true by (symmetry; apply Z.leb_le; lia).
  rewrite (wrap_small (size b1 + (addr b + 8))) by lia.
  assert (Eeq : (size b1 + (addr b + 8) =? heap_end s1) = false)
    by (apply Z.eqb_neq; lia).
  rewrite Eeq. cbn [andb negb]. rewrite Eeq. cbn [andb negb].
  rewrite (wrap_small (request + 8 * 3)) by lia.
  replace (request + 3 * 8) with (request + 8 * 3) by lia.
  destruct (request + 8 * 3 <=? size b) eqn:Esp.
  - apply Z.leb_le in Esp.
    assert (Es1 : s1 = s).
    { destruct fuel; [discriminate E1|].
      rewrite coalesce_multiple_noop in E1 by (rewrite P0; lia). congruence. }
    subst s1.
    destruct (add_block_wf s l1 b l2 fl request W ltac:(lia) Hr8 ltac:(lia))
      as [fl' (W' & _ & _)].
    pose proof W' as [H' _].
    set (ub := mkBlock (addr b) request false) in *.
    assert (Hub : In ub (l1 ++ ub :: merge_next
                           (mkBlock (addr b + 8 + request) (size b - request - 8) true) l2))
      by (apply in_or_app; right; left; reflexivity).
    destruct (merge_next_head (mkBlock (addr b + 8 + request) (size b - request - 8) true) l2)
      as [hd [tl (Em & Ah & Fh)]].
    assert (Hhd : In hd (l1 ++ ub :: merge_next
                           (mkBlock (addr b + 8 + request) (size b - request - 8) true) l2))
      by (rewrite Em; apply in_or_app; right; right; left; reflexivity).
    eexists. splits; try reflexivity.
    + intros Hlt. lia.
    + exact (block_get_payload _ _ _ _ H' Hub).
    + exact (block_check_free _ _ _ _ H' Hub).
    + pose proof (block_check_free _ _ _ _ H' Hhd) as P. rewrite Ah, Fh in P. exact P.
  - eexists. splits; reflexivity.
Qed.

Lemma explicit_realloc_data max s live p n fuel s' p' :
  reachable max s live -> In p live -> 0 <= n < 2 ^ 64 ->
  myrealloc max fuel s p n = Done (s', p') -> p' <> p ->
  forall i, 0 <= i < Z.min (get_payload s (p - ALIGNMENT)) n ->
    mem s' (p' + i) = mem s (p + i).
Proof.
  intros R Hp Hn E Hne i Hi.
  destruct (reachable_inv _ _ _ R) as [bl [fl [W Hlive]]].
  apply Hlive in Hp.
  destruct (used_ptr_block _ _ _ _ W Hp) as [l1 [b [l2 (-> & -> & Fb)]]].
  assert (Hb : In b (l1 ++ b :: l2)) by (apply in_or_app; right; left; reflexivity).
  unfold ALIGNMENT in Hi. replace (addr b + 8 - 8) with (addr b) in Hi by lia.
  rewrite (block_get_payload _ _ _ _ (proj1 W) Hb) in Hi.
  assert (Hn0 : 0 < n) by lia.
  set (fuel' := Nat.max fuel (S (length (l1 ++ b :: l2)))).
  apply (myrealloc_mono _ _ _ _ _ fuel') in E; [|apply Nat.le_max_l].
  assert (Hfuel' : (length (l1 ++ b :: l2) < fuel')%nat) by apply Nat.le_max_r.
  set (r := roundup n ALIGNMENT).
  destruct (Z_le_gt_dec r (size (fst (absorb r b l2)))) as [Hfit | Hsmall].
  - destruct (myrealloc_inplace_wf max s l1 b l2 fl n fuel' W Fb ltac:(lia) Hfuel' Hfit)
      as [s2 [fl' (E' & _)]].
    rewrite E' in E. inversion E; subst. contradiction.
  - destruct (myrealloc_move_wf max s l1 b l2 fl n fuel' W Fb ltac:(lia) Hfuel'
                ltac:(fold r; lia))
      as [E' | [s2 [q [bl' [fl' (E' & _ & _ & _ & _ & _ & D)]]]]];
      rewrite E' in E; [discriminate|]. inversion E; subst.
    apply D. lia.
Qed.

End ExplicitClaims.

(** ** Scripts reach reachable states *)

Section Scripts.
Import Explicit.

Lemma owned_In live p : owned live p = true -> In p live.
Proof.
  unfold owned. intros H. apply existsb_exists in H.
  destruct H as [x [Hx E]]. apply Z.eqb_eq in E. subst. assumption.
Qed.

Lemma is_size_range n : is_size n = true -> 0 <= n < 2 ^ 64.
Proof.
  unfold is_size. intros H. apply andb_prop in H. destruct H as [H1 H2].
  apply Z.leb_le in H1. apply Z.ltb_lt in H2. lia.
Qed.

Lemma step_call_reachable max fuel s live c s' live' :
  reachable max s live -> step_call max fuel (s, live) c = Some (s', live') ->
  reachable max s' live'.
Proof.
  intros R E. destruct c as [n | p | p n | p i v]; simpl in E.
  - destruct (is_size n) eqn:En; [|discriminate]. apply is_size_range in En.
    destruct (mymalloc max fuel s n) as [[s2 q]|] eqn:EM; [|discriminate].
    inversion E; subst. eapply reach_malloc; eassumption.
  - destruct ((p =? 0) || owned live p) eqn:Ep; [|discriminate].
    inversion E; subst. apply reach_free; [assumption|].
    apply orb_prop in Ep. destruct Ep as [Ep | Ep].
    + left. apply Z.eqb_eq. assumption.
    + right. apply owned_In. assumption.
  - destruct (((p =? 0) || owned live p) && is_size n) eqn:Ep; [|discriminate].
    apply andb_prop in Ep. destruct Ep as [Ep En]. apply is_size_range in En.
    destruct (myrealloc max fuel s p n) as [[s2 q]| |] eqn:EM; try discriminate.
    inversion E; subst. eapply reach_realloc; try eassumption.
    apply orb_prop in Ep. destruct Ep as [Ep | Ep].
    + left. apply Z.eqb_eq. assumption.
    + right. apply owned_In. assumption.
  - destruct (owned live p && (0 <=? i) && (i <? get_payload s (p - 8))) eqn:Ep;
      [|discriminate].
    apply andb_prop in Ep. destruct Ep as [Ep E3].
    apply andb_prop in Ep. destruct Ep as [E1 E2].
    apply Z.leb_le in E2. apply Z.ltb_lt in E3.
    inversion E; subst. apply reach_write; [assumption | | lia].
    apply owned_In. assumption.
Qed.

Lemma run_calls_reachable max fuel cs : forall s live s' live',
  reachable max s live -> run_calls max fuel (s, live) cs = Some (s', live') ->
  reachable max s' live'.
Proof.
  induction cs as [|c cs IH]; intros s live s' live' R E; cbn [run_calls] in E.
  - inversion E; subst. assumption.
  - destruct (step_call max fuel (s, live) c) as [[s2 live2]|] eqn:Ec; [|discriminate].
    eapply IH; [|exact E]. eapply step_call_reachable; eassumption.
Qed.

Lemma heap_after_reachable max fuel heap_start heap_size cs :
  valid_region heap_start heap_size ->
  returns (heap_after max fuel heap_start heap_size cs) = true ->
  reachable max (state_of (heap_after max fuel heap_start heap_size cs))
            (live_of (heap_after max fuel heap_start heap_size cs)).
Proof.
  intros V. unfold heap_after.
  destruct (myinit blank heap_start heap_size) as [s0 ok] eqn:E0.
  destruct ok; [|simpl; intros H; discriminate H].
  destruct (run_calls max fuel (s0, []) cs) as [[s' live']|] eqn:E;
    [|simpl; intros H; discriminate H].
  intros _. simpl. eapply run_calls_reachable; [|exact E].
  eapply reach_init; eassumption.
Qed.

End Scripts.

(** ** Rounding and zero-size requests *)

Lemma roundup_explicit_small sz :
  0 <= sz <= 2 ^ 64 - 8 ->
  Explicit.roundup sz 8 = Z.max 16 (8 * ((sz + 7) / 8)).
Proof.
  intros Hs. change 8 with ALIGNMENT at 1. rewrite roundup_eq by lia.
  rewrite (wrap_small (sz + 7)) by lia.
  pose proof (Z.div_mod (sz + 7) 8 ltac:(lia)). f_equal. lia.
Qed.

Lemma roundup_implicit_small sz :
  0 <= sz <= 2 ^ 64 - 8 ->
  Implicit.roundup sz 8 = 8 * ((sz + 7) / 8).
Proof.
  intros Hs. unfold Implicit.roundup.
  change (wrap (Z.lnot (wrap (8 - 1)))) with (2 ^ 64 - 8).
  replace (sz + 8 - 1) with (sz + 7) by lia.
  rewrite land_payload_mask by apply wrap_range.
  rewrite (wrap_small (sz + 7)) by lia.
  pose proof (Z.div_mod (sz + 7) 8 ltac:(lia)). lia.
Qed.

(** C9 (round-up), amended.  For every size [sz] up to [2^64 - 8] (beyond,
    [sz + 7] wraps around), with [m] the smallest multiple of 8 that is at
    least [sz]: the explicit variant's [roundup sz 8] is [m] raised to the
    floor of 16, and the implicit variant's [roundup sz 8] is [m] itself, with
    no floor. *)
Theorem roundup_spec sz :
  0 <= sz <= 2 ^ 64 - 8 ->
  let m := 8 * ((sz + 7) / 8) in
  (m mod 8 = 0 /\ sz <= m /\ forall k, k mod 8 = 0 -> sz <= k -> m <= k)
  /\ Explicit.roundup sz 8 = Z.max 16 m
  /\ Implicit.roundup sz 8 = m.
Proof.
  intros Hs m. splits.
  - unfold m. rewrite Z.mul_comm. apply Z.mod_mul. lia.
  - unfold m. pose proof (Z.div_mod (sz + 7) 8 ltac:(lia)).
    pose proof (Z.mod_pos_bound (sz + 7) 8 ltac:(lia)). lia.
  - intros k Hk Hle. unfold m.
    pose proof (Z.div_mod (sz + 7) 8 ltac:(lia)).
    pose proof (Z.mod_pos_bound (sz + 7) 8 ltac:(lia)).
    pose proof (Z.div_mod k 8 ltac:(lia)). lia.
  - apply roundup_explicit_small. assumption.
  - apply roundup_implicit_small. assumption.
Qed.

Lemma roundup_spec_witness :
  0 <= 17 <= 2 ^ 64 - 8
  /\ Explicit.roundup 17 8 = 24 /\ Implicit.roundup 17 8 = 24.
Proof.
  assert (H : 0 <= 17 <= 2 ^ 64 - 8) by (split; intro E; discriminate E).
  split; [exact H|]. exact (proj2 (roundup_spec 17 H)).
Defined.

(** The implicit variant rounds 1 up to 8, below 16; and the explicit
    variant rounds [2^64 - 1] to 16, below the size asked for. *)
Lemma roundup_cex :
  ~ (16 <= Implicit.roundup 1 8)
  /\ ~ (2 ^ 64 - 1 <= Explicit.roundup (2 ^ 64 - 1) 8).
Proof. split; intros H; apply H; reflexivity. Qed.

Lemma find_first {A} (f : A -> bool) l1 x l2 :
  (forall y, In y l1 -> f y = false) -> f x = true ->
  find f (l1 ++ x :: l2) = Some x.
Proof.
  intros H Hx. induction l1 as [|y l1 IH]; simpl.
  - rewrite Hx. reflexivity.
  - rewrite (H y) by (left; reflexivity). apply IH. intros z Hz. apply H. right. exact Hz.
Qed.

Lemma find_all_false {A} (f : A -> bool) l :
  (forall y, In y l -> f y = false) -> find f l = None.
Proof.
  intros H. induction l as [|y l IH]; simpl; [reflexivity|].
  rewrite (H y) by (left; reflexivity). apply IH. intros z Hz. apply H. right. exact Hz.
Qed.



(** C4 (resize failure).  On a 64-byte heap whose only block is in use,
    [myrealloc] of that block to 100 bytes finds no room in place and no free
    block: the copy to the null pointer and the [assert] stop the program,
    where the claim expects the null pointer back and the old block intact. *)
Theorem myrealloc_failure_aborts :
  owned (live_of heap64_full) 16 = true
  /\ Explicit.mymalloc example_max 8 (state_of heap64_full) 100
     = Some (state_of heap64_full, 0)
  /\ Explicit.myrealloc example_max 8 (state_of heap64_full) 16 100 = Crash.
Proof.
  splits.
  - vm_compute. reflexivity.
  - reflexivity.
  - vm_compute. reflexivity.
Qed.

(** ** The implicit allocator *)

Section ImplicitHeap.
Import Implicit.

Lemma iheap_block s bl b :
  iheap s bl -> In b bl ->
  0 < addr b /\ next_addr b <= 2 ^ 63 /\ 0 <= size b /\ size b mod 8 = 0
  /\ load64 (mem s) (addr b) = enc b.
Proof.
  intros (H1 & H2 & HL) Hb.
  destruct (layout_in _ _ _ _ _ HL Hb) as (B1 & B2 & B3 & B4 & B5).
  splits; try assumption; lia.
Qed.

Lemma iheap_header s bl b :
  iheap s bl -> In b bl ->
  Z.land (load64 (mem s) (addr b)) PAYLOAD_MASK = size b
  /\ (Z.land (load64 (mem s) (addr b)) FREE_MASK =? 0) = is_free b.
Proof.
  intros H Hb. destruct (iheap_block _ _ _ H Hb) as (_ & _ & _ & Hm & Hl).
  unfold PAYLOAD_MASK, FREE_MASK. rewrite payload_mask_val, Hl.
  pose proof (load64_range (mem s) (addr b)) as Hr. rewrite Hl in Hr. split.
  - apply enc_range_payload; assumption.
  - apply enc_range_free; [assumption | lia].
Qed.

(** What the loop of [mymalloc] returns on a well-formed heap: nothing, or a
    free block that fits, having written only inside that block. *)
Lemma malloc_loop_spec s bl request :
  iheap s bl -> 0 <= request ->
  forall l2 l1 fuel idx s' q,
    bl = l1 ++ l2 -> layout (mem s) idx l2 (heap_end s) ->
    malloc_loop fuel s request idx = Some (s', q) ->
    (s' = s /\ q = 0)
    \/ exists c,
         In c l2 /\ is_free c = true /\ request <= size c /\ q = addr c + 8
         /\ segment_start s' = segment_start s /\ heap_end s' = heap_end s
         /\ forall x, x < addr c \/ next_addr c <= x -> mem s' x = mem s x.
Proof.
  intros HI Hreq. induction l2 as [|c l2 IH]; intros l1 fuel idx s' q Ebl HL E.
  - simpl in HL. subst idx. left.
    destruct fuel; simpl in E; rewrite Z.eqb_refl in E; inversion E; auto.
  - assert (Hc : In c bl) by (subst bl; apply in_or_app; right; left; reflexivity).
    destruct (iheap_block _ _ _ HI Hc) as (C1 & C2 & C3 & C4 & C5).
    destruct (iheap_header _ _ _ HI Hc) as [P1 P2].
    pose proof HL as (Ea & _ & _ & HL'). subst idx.
    pose proof (layout_le _ _ _ _ HL') as Hle.
    destruct HI as (I1 & I2 & I3).
    unfold next_addr, ALIGNMENT in *.
    destruct fuel; cbn [malloc_loop] in E;
      replace (addr c =? heap_end s) with false in E
        by (symmetry; apply Z.eqb_neq; lia); [discriminate|].
    rewrite P1, P2 in E. unfold ALIGNMENT in E.
    rewrite (wrap_small (addr c + size c + 8)) in E by lia.
    rewrite (wrap_small (addr c + 8)) in E by lia.
    destruct l2 as [|d l2'].
    + simpl in HL'.
      replace (addr c + size c + 8 =? heap_end s) with true in E
        by (symmetry; apply Z.eqb_eq; lia).
      destruct (is_free c) eqn:Fc; cbn [negb orb andb] in E;
        [|left; inversion E; auto].
      destruct (size c <? request) eqn:Elt; [left; inversion E; auto|].
      apply Z.ltb_ge in Elt.
      rewrite (wrap_small (request + 8 * 2)) in E by lia.
      destruct (request + 8 * 2 <=? size c) eqn:Esp.
      * apply Z.leb_le in Esp. inversion E; subst. right. exists c.
        splits; try reflexivity; try assumption; try (left; reflexivity).
        intros x Hx. simpl.
        rewrite (wrap_small (addr c + request + 8)) by lia.
        rewrite !store64_other by lia. reflexivity.
      * inversion E; subst. right. exists c.
        splits; try reflexivity; try assumption; try (left; reflexivity).
        intros x Hx. simpl. rewrite store64_other by lia. reflexivity.
    + pose proof (layout_head_size _ _ _ _ _ HL') as [Sd _].
      pose proof HL' as (Ed & _ & _ & HL'').
      pose proof (layout_le _ _ _ _ HL'') as Hle2.
      replace (addr c + size c + 8 =? heap_end s) with false in E
        by (symmetry; apply Z.eqb_neq; lia).
      destruct (is_free c && (request <=? size c)) eqn:Efit.
      * apply andb_prop in Efit. destruct Efit as [Fc Efit]. apply Z.leb_le in Efit.
        inversion E; subst. right. exists c.
        splits; try reflexivity; try assumption; try (left; reflexivity).
        intros x Hx. simpl. rewrite store64_other by lia. reflexivity.
      * rewrite (wrap_small (addr c + (size c + 8))) in E by lia.
        replace (addr c + (size c + 8)) with (addr c + 8 + size c) in E by lia.
        destruct (IH (l1 ++ [c]) fuel (addr c + 8 + size c) s' q) as [L | [c' (R1 & R2)]].
        { rewrite <- app_assoc. exact Ebl. }
        { exact HL'. }
        { exact E. }
        { left. exact L. }
        { right. exists c'. split; [right; exact R1 | exact R2]. }
Qed.

(** Data preservation of the implicit [myrealloc] on a well-formed heap. *)
Lemma implicit_realloc_data s bl p n fuel s' p' :
  iheap s bl -> In p (used_ptrs bl) -> 0 <= n < 2 ^ 64 ->
  myrealloc fuel s p n = Done (s', p') -> p' <> p ->
  forall i,
    0 <= i < Z.min (Z.land (load64 (mem s) (p - ALIGNMENT)) PAYLOAD_MASK) n ->
    mem s' (p' + i) = mem s (p + i).
Proof.
  intros HI Hp Hn E Hne i Hi.
  apply in_used_ptrs in Hp. destruct Hp as [b (Hb & <- & Fb)].
  destruct (iheap_block _ _ _ HI Hb) as (B1 & B2 & B3 & B4 & B5).
  unfold ALIGNMENT in *. replace (addr b + 8 - 8) with (addr b) in Hi by lia.
  rewrite (proj1 (iheap_header _ _ _ HI Hb)) in Hi.
  unfold myrealloc in E.
  replace (addr b + 8 =? 0) with false in E by (symmetry; apply Z.eqb_neq; lia).
  cbn [negb andb] in E.
  destruct (n =? 0) eqn:En; [apply Z.eqb_eq in En; lia|]. apply Z.eqb_neq in En.
  destruct (mymalloc fuel s n) as [[s1 q]|] eqn:EM; [|discriminate].
  destruct (memcpy (mem s1) q (addr b + 8) n) as [m2|] eqn:EC; [|discriminate].
  destruct (q =? 0) eqn:Eq; [discriminate|]. apply Z.eqb_neq in Eq.
  inversion E; subst s' p'; clear E.
  unfold memcpy in EC.
  destruct ((q + n <=? 2 ^ 64) && (addr b + 8 + n <=? 2 ^ 64)) eqn:Er; [|discriminate].
  apply andb_prop in Er. destruct Er as [Er1 Er2].
  apply Z.leb_le in Er1. apply Z.leb_le in Er2.
  inversion EC; subst m2; clear EC.
  unfold mymalloc in EM.
  replace (n =? 0) with false in EM by (symmetry; apply Z.eqb_neq; lia).
  assert (Hround : n <= roundup n ALIGNMENT).
  { unfold ALIGNMENT. rewrite roundup_implicit_small by lia.
    pose proof (Z.div_mod (n + 7) 8 ltac:(lia)).
    pose proof (Z.mod_pos_bound (n + 7) 8 ltac:(lia)). lia. }
  destruct (malloc_loop_spec s bl (roundup n ALIGNMENT) HI ltac:(lia)
              bl [] fuel (segment_start s) s1 q eq_refl (proj2 (proj2 HI)) EM)
    as [[_ Hq] | [c (Hc & Fc & Sc & Hq & _ & _ & Fr)]]; [contradiction|].
  subst q.
  destruct (iheap_block _ _ _ HI Hc) as (C1 & C2 & C3 & C4 & C5).
  assert (Hcb : b <> c) by (intros ->; congruence).
  assert (Sep : next_addr b <= addr c \/ next_addr c <= addr b).
  { destruct (layout_sep _ _ _ _ _ _ (proj2 (proj2 HI)) Hb Hc) as [|[|]];
      [contradiction | tauto | tauto]. }
  unfold myfree, next_addr, ALIGNMENT in *.
  replace (addr b + 8 =? 0) with false by (symmetry; apply Z.eqb_neq; lia).
  replace (addr b + 8 - 8) with (addr b) by lia.
  rewrite (wrap_small (addr b)) by lia. simpl.
  rewrite store64_other by lia.
  replace ((addr c + 8 <=? addr c + 8 + i) && (addr c + 8 + i <? addr c + 8 + n))
    with true
    by (symmetry; apply andb_true_intro; split; [apply Z.leb_le | apply Z.ltb_lt]; lia).
  replace (addr b + 8 + (addr c + 8 + i - (addr c + 8))) with (addr b + 8 + i) by lia.
  apply Fr. lia.
Qed.

End ImplicitHeap.

(** ** Data preservation and the implicit release *)

(** X21 (data preservation when [myrealloc] moves a block).  Explicit variant:
    in every reachable state, when [myrealloc] of an owned pointer [p] returns
    a pointer other than [p], the first [min(old payload, n)] bytes at the new
    pointer are the bytes that were at [p].  Implicit variant: the same on
    every well-formed heap, for [p] the payload of a used block. *)
Theorem realloc_preserves_data :
  (forall max s live p n fuel s' p',
     reachable max s live -> In p live -> 0 <= n < 2 ^ 64 ->
     Explicit.myrealloc max fuel s p n = Done (s', p') -> p' <> p ->
     forall i,
       0 <= i < Z.min (Explicit.get_payload s (p - ALIGNMENT)) n ->
       Explicit.mem s' (p' + i) = Explicit.mem s (p + i))
  /\ (forall s bl p n fuel s' p',
        iheap s bl -> In p (used_ptrs bl) -> 0 <= n < 2 ^ 64 ->
        Implicit.myrealloc fuel s p n = Done (s', p') -> p' <> p ->
        forall i,
          0 <= i < Z.min (Z.land (load64 (Implicit.mem s) (p - ALIGNMENT))
                                 Implicit.PAYLOAD_MASK) n ->
          Implicit.mem s' (p' + i) = Implicit.mem s (p + i)).
Proof.
  split.
  - intros. eapply explicit_realloc_data; eassumption.
  - intros. eapply implicit_realloc_data; eassumption.
Qed.

(** C5 (round-trip data preservation): the implicit variant loses data.
    On the heap [igap_heap], reached by [myinit], [mymalloc], [myfree] and
    writes into owned payloads only, the block at 40 is in use with a payload
    of 88 bytes and holds the byte 77 at offset 8.  [myrealloc] of it to 16
    bytes walks past the last block into the eight bytes that [mymalloc] left
    outside every block, takes the word found there for a header, and ends up
    returning 24, a pointer into the block at 16; the byte at offset 8 of the
    returned pointer is 76, not 77. *)
Theorem implicit_realloc_loses_data :
  option_map snd (Implicit.mymalloc 8 igap_init 120) = Some 16
  /\ option_map snd (Implicit.mymalloc 8 igap_stale 16) = Some 16
  /\ option_map snd (Implicit.mymalloc 8 igap_one 88) = Some 40
  /\ load64 (Implicit.mem igap_heap) (40 - ALIGNMENT) = 88 + 1
  /\ Implicit.mem igap_heap (40 + 8) = 77
  /\ is_done (Implicit.myrealloc 8 igap_heap 40 16) = true
  /\ done_ptr (Implicit.myrealloc 8 igap_heap 40 16) = 24
  /\ Implicit.mem (done_state iblank (Implicit.myrealloc 8 igap_heap 40 16)) (24 + 8)
     = 76.
Proof. vm_compute. repeat split. Qed.


(** ** Concrete runs *)

Lemma valid_region_8_64 : valid_region 8 64.
Proof.
  unfold valid_region. splits; [reflexivity | reflexivity | intro H; discriminate H].
Qed.

Lemma valid_region_8_128 : valid_region 8 128.
Proof.
  unfold valid_region. splits; [reflexivity | reflexivity | intro H; discriminate H].
Qed.

Lemma done_eta {S : Type} (d : S) (o : outcome (S * Z)) :
  is_done o = true -> o = Done (done_state d o, done_ptr o).
Proof. destruct o as [[s p]| |]; simpl; intros H; [reflexivity | discriminate H ..]. Qed.

Lemma iheap128_wf : iheap iheap128 iheap128_blocks.
Proof.
  unfold iheap, iheap128_blocks. splits.
  - vm_compute. reflexivity.
  - vm_compute. intro H. discriminate H.
  - cbn [layout addr size is_free enc]. splits; vm_compute; reflexivity.
Qed.

Lemma reach_heap64 :
  reachable example_max (state_of heap64) (live_of heap64).
Proof.
  unfold heap64. apply heap_after_reachable;
    [exact valid_region_8_64 | vm_compute; reflexivity].
Qed.

Lemma reach_heap128_one :
  reachable example_max (state_of heap128_one) (live_of heap128_one).
Proof.
  unfold heap128_one. apply heap_after_reachable;
    [exact valid_region_8_128 | vm_compute; reflexivity].
Qed.

Lemma reach_heap128_two :
  reachable example_max (state_of heap128_two) (live_of heap128_two).
Proof.
  unfold heap128_two. apply heap_after_reachable;
    [exact valid_region_8_128 | vm_compute; reflexivity].
Qed.

Lemma reach_heap128_busy :
  reachable example_max (state_of heap128_busy) (live_of heap128_busy).
Proof.
  unfold heap128_busy. apply heap_after_reachable;
    [exact valid_region_8_128 | vm_compute; reflexivity].
Qed.

Lemma reach_heap128_wide :
  reachable example_max (state_of heap128_wide) (live_of heap128_wide).
Proof.
  unfold heap128_wide. apply heap_after_reachable;
    [exact valid_region_8_128 | vm_compute; reflexivity].
Qed.

Lemma partition_invariant_witness :
  reachable example_max (state_of heap128_busy) (live_of heap128_busy)
  /\ exists addrs,
       block_addrs (length addrs) (state_of heap128_busy)
                   (Explicit.segment_start (state_of heap128_busy)) = Some addrs
       /\ fold_right
            (fun a acc => Explicit.get_payload (state_of heap128_busy) a + ALIGNMENT + acc)
            0 addrs
          = Explicit.segment_size (state_of heap128_busy)
       /\ Explicit.validate_heap (length addrs) (state_of heap128_busy) = Some true.
Proof.
  split; [exact reach_heap128_busy|].
  exact (partition_invariant example_max _ _ reach_heap128_busy).
Defined.


Lemma freelist_invariant_witness :
  reachable example_max (state_of heap128_busy) (live_of heap128_busy)
  /\ exists addrs nodes,
       block_addrs (length addrs) (state_of heap128_busy)
                   (Explicit.segment_start (state_of heap128_busy)) = Some addrs
       /\ freelist_nodes (length addrs) (state_of heap128_busy)
                         (Explicit.freelist_start (state_of heap128_busy)) = Some nodes
       /\ NoDup nodes.
Proof.
  split; [exact reach_heap128_busy|].
  destruct (freelist_invariant example_max _ _ reach_heap128_busy)
    as [addrs [nodes (H1 & H2 & H3 & _)]].
  exists addrs, nodes. splits; assumption.
Defined.

Lemma mymalloc_split_condition_witness :
  exists s',
    Explicit.mymalloc example_max 8 (state_of heap64) 32 = Some (s', 8 + ALIGNMENT)
    /\ Explicit.get_payload s' 8 = 32.
Proof.
  assert (Hn : 0 <= 32 < 2 ^ 64) by (split; [intro H; discriminate H | reflexivity]).
  assert (Hs : Explicit.search_freelist 8 (state_of heap64) (Explicit.roundup 32 ALIGNMENT)
               = Some 8) by (vm_compute; reflexivity).
  assert (Hb : 8 <> 0) by (intro H; discriminate H).
  assert (Hm : Explicit.roundup 32 ALIGNMENT <= example_max)
    by (vm_compute; intro H; discriminate H).
  destruct (mymalloc_split_condition example_max (state_of heap64) (live_of heap64)
              32 8 8 reach_heap64 Hn Hs Hb Hm)
    as [s' [k [nodes [k' [nodes' (E & _ & _ & _ & _ & _ & C)]]]]].
  match type of C with
  | (if ?c then _ else _) =>
    assert (Hc : c = true) by (vm_compute; reflexivity); rewrite Hc in C
  end.
  destruct C as (P & _). exists s'. split; [exact E | exact P].
Defined.

(** On the fresh 64-byte heap the only block has a payload of 56, exactly the
    rounded request 32 plus three headers, not more: [mymalloc 32] splits it
    all the same, leaving a used block of 32 and a free block of 16 at 48. *)
Lemma mymalloc_split_cex :
  Explicit.get_payload (state_of heap64) 8
  = Explicit.roundup 32 ALIGNMENT + 3 * ALIGNMENT
  /\ Explicit.search_freelist 8 (state_of heap64) (Explicit.roundup 32 ALIGNMENT)
     = Some 8
  /\ option_map (fun r => (snd r, Explicit.get_payload (fst r) 8))
       (Explicit.mymalloc example_max 8 (state_of heap64) 32) = Some (16, 32)
  /\ option_map (fun r => (Explicit.check_free (fst r) 48, Explicit.get_payload (fst r) 48))
       (Explicit.mymalloc example_max 8 (state_of heap64) 32) = Some (true, 16).
Proof. vm_compute. repeat split. Qed.

Lemma myfree_coalesces_right_witness :
  Explicit.get_payload (Explicit.myfree (state_of heap128_one) 16) (16 - ALIGNMENT)
  = Explicit.get_payload (state_of heap128_one) (16 - ALIGNMENT)
    + Explicit.get_payload (state_of heap128_one) 32 + ALIGNMENT.
Proof.
  assert (Hin : In 16 (live_of heap128_one)) by (vm_compute; auto).
  assert (Enb : Explicit.get_next_block (state_of heap128_one) (16 - ALIGNMENT) = 32)
    by (vm_compute; reflexivity).
  assert (Fnb : Explicit.check_free (state_of heap128_one) 32 = true)
    by (vm_compute; reflexivity).
  destruct (myfree_coalesces_right example_max _ _ 16 32 reach_heap128_one Hin Enb Fnb)
    as [left [right [k [nodes [k' [nodes' (_ & _ & _ & P & _)]]]]]].
  exact P.
Defined.

Lemma myrealloc_inplace_split_witness :
  exists s',
    Explicit.myrealloc example_max 8 (state_of heap128_wide) 16 16 = Done (s', 16)
    /\ Explicit.get_payload s' (16 - ALIGNMENT) = 16.
Proof.
  assert (Hin : In 16 (live_of heap128_wide)) by (vm_compute; auto).
  assert (Hn : 0 < 16 < 2 ^ 64) by (split; reflexivity).
  assert (Hle : Explicit.roundup 16 ALIGNMENT
                <= Explicit.get_payload (state_of heap128_wide) (16 - ALIGNMENT))
    by (vm_compute; intro H; discriminate H).
  assert (Hnt : 16 - ALIGNMENT + ALIGNMENT
                + Explicit.get_payload (state_of heap128_wide) (16 - ALIGNMENT)
                <> Explicit.heap_end (state_of heap128_wide))
    by (vm_compute; intro H; discriminate H).
  destruct (myrealloc_inplace_split example_max _ _ 16 16 8 (state_of heap128_wide)
              reach_heap128_wide Hin Hn
              (coalesce_multiple_noop 7 _ _ _ Hle) Hle Hnt)
    as [s' (E & _ & C)].
  match type of C with
  | (if ?c then _ else _) =>
    assert (Hc : c = true) by (vm_compute; reflexivity); rewrite Hc in C
  end.
  destruct C as (_ & _ & P & _). exists s'. split; [exact E | exact P].
Defined.

(** C8 (split threshold of the in-place resize): the test reads a stale
    size.  On [heap128_gap] the block at 8 is owned, has a payload of 16 and
    a free right neighbour of 48.  [myrealloc] to 24 bytes absorbs the
    neighbour and is served in place with a payload of 72, which is at least
    the request plus three headers, and the block is not the last one; yet
    nothing is split off: the payload stays 72 and the next block is the used
    block at 88.  The test compares [old_size], read before the coalescing
    loop, where the branch for the last block reads the payload again. *)
Lemma myrealloc_inplace_cex :
  owned (live_of heap128_gap) 16 = true
  /\ Explicit.get_payload (state_of heap128_gap) 8 = 16
  /\ done_ptr (Explicit.myrealloc example_max 8 (state_of heap128_gap) 16 24) = 16
  /\ Explicit.get_payload
       (done_state blank (Explicit.myrealloc example_max 8 (state_of heap128_gap) 16 24)) 8
     = 72
  /\ Explicit.roundup 24 ALIGNMENT + 3 * ALIGNMENT <= 72
  /\ Explicit.get_next_block
       (done_state blank (Explicit.myrealloc example_max 8 (state_of heap128_gap) 16 24)) 8
     = 88
  /\ Explicit.check_free
       (done_state blank (Explicit.myrealloc example_max 8 (state_of heap128_gap) 16 24)) 88
     = false.
Proof. vm_compute. splits; try reflexivity. intro H; discriminate H. Qed.

Lemma realloc_preserves_data_witness :
  Explicit.mem
    (done_state blank (Explicit.myrealloc example_max 8 (state_of heap128_two) 16 40))
    (done_ptr (Explicit.myrealloc example_max 8 (state_of heap128_two) 16 40) + 3)
  = Explicit.mem (state_of heap128_two) (16 + 3)
  /\ Implicit.mem
       (done_state iblank (Implicit.myrealloc 8 iheap128 16 40))
       (done_ptr (Implicit.myrealloc 8 iheap128 16 40) + 3)
     = Implicit.mem iheap128 (16 + 3).
Proof.
  assert (Hn : 0 <= 40 < 2 ^ 64) by (split; [intro H; discriminate H | reflexivity]).
  split.
  - apply (proj1 realloc_preserves_data example_max (state_of heap128_two)
             (live_of heap128_two) 16 40 8%nat).
    + exact reach_heap128_two.
    + vm_compute. auto.
    + exact Hn.
    + apply done_eta. vm_compute. reflexivity.
    + vm_compute. intro H. discriminate H.
    + vm_compute. split; [intro H; discriminate H | reflexivity].
  - apply (proj2 realloc_preserves_data iheap128 iheap128_blocks 16 40 8%nat).
    + exact iheap128_wf.
    + simpl. auto.
    + exact Hn.
    + apply done_eta. vm_compute. reflexivity.
    + vm_compute. intro H. discriminate H.
    + vm_compute. split; [intro H; discriminate H | reflexivity].
Defined.


(** * Further properties of the two allocators *)

Section ExplicitSafety.
Import Explicit.

Lemma layout_aligned m bl : forall a e b,
  layout m a bl e -> In b bl -> (addr b - a) mod 8 = 0.
Proof.
  induction bl as [|c bl IH]; intros a e b H Hin; [destruct Hin|].
  destruct H as (Ha & Hl & Hm & H). destruct Hin as [<- | Hin].
  - rewrite Ha, Z.sub_diag. reflexivity.
  - pose proof (IH _ _ _ H Hin) as Hb.
    replace (addr b - a) with ((addr b - (a + 8 + size c)) + 8 + size c) by lia.
    apply mod8_sum; assumption.
Qed.

(** The block behind a pointer the caller owns. *)
Lemma live_block s bl fl live p :
  heap_wf s bl fl -> (forall q, In q live <-> In q (used_ptrs bl)) -> In p live ->
  exists b, In b bl /\ p = addr b + 8 /\ is_free b = false
            /\ get_payload s (p - ALIGNMENT) = size b
            /\ check_free s (p - ALIGNMENT) = false.
Proof.
  intros W Hlive Hp. apply Hlive in Hp.
  destruct (used_ptr_block _ _ _ _ W Hp) as [l1 [b [l2 (-> & -> & Fb)]]].
  assert (Hb : In b (l1 ++ b :: l2)) by (apply in_or_app; right; left; reflexivity).
  exists b. unfold ALIGNMENT. replace (addr b + 8 - 8) with (addr b) by lia.
  rewrite (block_get_payload _ _ _ _ (proj1 W) Hb).
  rewrite (block_check_free _ _ _ _ (proj1 W) Hb). auto.
Qed.

(** X1 (owned blocks never overlap).  In every state reached from a successful [myinit] by valid calls, two
    different pointers that the caller owns have disjoint blocks: the payload
    of one ends at or before the header of the other. *)
Theorem live_blocks_disjoint max s live p q :
  reachable max s live -> In p live -> In q live -> p <> q ->
  p + get_payload s (p - ALIGNMENT) <= q - ALIGNMENT
  \/ q + get_payload s (q - ALIGNMENT) <= p - ALIGNMENT.
Proof.
  intros R Hp Hq Hne. destruct (reachable_inv _ _ _ R) as [bl [fl [W Hlive]]].
  destruct (live_block _ _ _ _ _ W Hlive Hp) as [b (Hb & Eb & _ & Pb & _)].
  destruct (live_block _ _ _ _ _ W Hlive Hq) as [c (Hc & Ec & _ & Pc & _)].
  rewrite Pb, Pc. unfold ALIGNMENT.
  destruct (layout_sep _ _ _ _ _ _ (pre_layout _ _ _ (proj1 W)) Hb Hc) as [E | [H | H]];
    unfold next_addr in *; [subst; congruence | lia | lia].
Qed.

(** X2 (shape of an owned block).  In every reachable state, a pointer that the caller owns is not null,
    lies a multiple of 8 bytes from [segment_start] and at least one header
    past it; its payload ends inside the region, has at least 16 bytes and a
    size that is a multiple of 8; and its header is marked used. *)
Theorem live_pointer_block max s live p :
  reachable max s live -> In p live ->
  p <> 0
  /\ (p - segment_start s) mod ALIGNMENT = 0
  /\ segment_start s + ALIGNMENT <= p
  /\ p + get_payload s (p - ALIGNMENT) <= heap_end s
  /\ 16 <= get_payload s (p - ALIGNMENT)
  /\ get_payload s (p - ALIGNMENT) mod ALIGNMENT = 0
  /\ check_free s (p - ALIGNMENT) = false.
Proof.
  intros R Hp. destruct (reachable_inv _ _ _ R) as [bl [fl [W Hlive]]].
  destruct (live_block _ _ _ _ _ W Hlive Hp) as [b (Hb & Eb & _ & Pb & Cb)].
  destruct (pre_block _ _ _ _ (proj1 W) Hb) as (B1 & B2 & B3 & B4 & B5 & B6 & _).
  pose proof (layout_aligned _ _ _ _ _ (pre_layout _ _ _ (proj1 W)) Hb) as Al.
  rewrite Pb, Cb. unfold ALIGNMENT, next_addr in *. subst p. splits; try lia; try reflexivity.
  replace (addr b + 8 - segment_start s) with ((addr b - segment_start s) + 8 + 0) by lia.
  apply mod8_sum; [assumption | reflexivity].
Qed.

End ExplicitSafety.

Section ExplicitSafety2.
Import Explicit.

Lemma roundup_ge n : 0 <= n <= 2 ^ 64 - 8 -> n <= roundup n ALIGNMENT.
Proof.
  intros Hn. rewrite roundup_eq by lia.
  rewrite (wrap_small (n + 7)) by lia.
  pose proof (Z.mod_pos_bound (n + 7) 8 ltac:(lia)). lia.
Qed.

(** A state that agrees with [s] on the whole block keeps its header. *)
Lemma same_header s s' a :
  (forall x, a <= x < a + 8 -> mem s' x = mem s x) ->
  get_payload s' a = get_payload s a /\ check_free s' a = check_free s a.
Proof.
  intros H. unfold get_payload, check_free, payload_field.
  rewrite (load64_ext (mem s) (mem s') a) by (intros i Hi; apply H; lia).
  split; reflexivity.
Qed.

(** X3 (first fit over the free list).  In every reachable state the walk along the free list ends: with fuel
    above the length of the list, [mymalloc n] returns.  It returns the null
    pointer and leaves the state as it is when no node of the list has a
    payload of at least the rounded request, or when the rounded request
    exceeds [MAX_REQUEST_SIZE]; otherwise it returns the payload pointer of the
    first node, in list order, whose payload is at least the rounded request. *)
Theorem mymalloc_first_fit max s live n :
  reachable max s live -> 0 <= n < 2 ^ 64 ->
  exists nodes,
    freelist_nodes (length nodes) s (freelist_start s) = Some nodes
    /\ forall fuel, (length nodes < fuel)%nat ->
       match find (fun a => roundup n ALIGNMENT <=? get_payload s a) nodes with
       | None => mymalloc max fuel s n = Some (s, 0)
       | Some a =>
         if max <? roundup n ALIGNMENT then mymalloc max fuel s n = Some (s, 0)
         else exists s', mymalloc max fuel s n = Some (s', a + ALIGNMENT)
       end.
Proof.
  intros R Hn. destruct (reachable_inv _ _ _ R) as [bl [fl [W _]]].
  pose proof W as [H _].
  exists fl. split.
  { apply (freelist_nodes_lseg s fl 0); [exact (pre_list _ _ _ H) | lia]. }
  intros fuel Hf. set (r := roundup n ALIGNMENT).
  destruct (search_from_spec s bl fl r W fl 0 (freelist_start s) fuel
              (pre_list _ _ _ H) (fun y Hy => Hy) Hf)
    as [[E Hall] | [l1 [x [l2 (Efl & E & Hx & Hall)]]]].
  - rewrite find_all_false.
    + unfold mymalloc, search_freelist. fold r. rewrite E. reflexivity.
    + intros y Hy. apply Z.leb_gt. apply Hall. exact Hy.
  - rewrite Efl, (find_first _ l1 x l2).
    + unfold mymalloc, search_freelist. fold r. rewrite E.
      assert (Hxin : In x fl) by (rewrite Efl; apply in_mid).
      destruct (pre_fl_block _ _ _ _ H Hxin) as [b [Hb <-]].
      destruct (pre_block _ _ _ _ H Hb) as (_ & B2 & B3 & B4 & B5 & _).
      unfold next_addr in *.
      replace (addr b =? 0) with false by (symmetry; apply Z.eqb_neq; lia).
      destruct (max <? r); [reflexivity|].
      unfold ALIGNMENT. rewrite (wrap_small (addr b + 8)) by lia.
      match goal with |- context [if ?c then _ else _] => destruct c end;
        eexists; reflexivity.
    + intros y Hy. apply Z.leb_gt. apply Hall. exact Hy.
    + apply Z.leb_le. exact Hx.
Qed.

(** X4 (a block handed out is new).  In a reachable state, when [mymalloc n], for [n] up to [2^64 - 8],
    returns a pointer that is not null: the caller did not own it; its block
    was free and is now used; its payload is at least [n] bytes and no more
    than the block had; and it overlaps none of the blocks the caller owns. *)
Theorem mymalloc_block_fresh max s live fuel n s' p :
  reachable max s live -> 0 <= n <= 2 ^ 64 - 8 ->
  mymalloc max fuel s n = Some (s', p) -> p <> 0 ->
  ~ In p live
  /\ check_free s (p - ALIGNMENT) = true
  /\ check_free s' (p - ALIGNMENT) = false
  /\ n <= get_payload s' (p - ALIGNMENT) <= get_payload s (p - ALIGNMENT)
  /\ forall q, In q live ->
       q + get_payload s' (q - ALIGNMENT) <= p - ALIGNMENT
       \/ p + get_payload s' (p - ALIGNMENT) <= q - ALIGNMENT.
Proof.
  intros R Hn E Hp0.
  assert (R' : reachable max s' (p :: live)).
  { pose proof (reach_malloc max s live fuel n s' p R ltac:(lia) E) as R'.
    replace (p =? 0) with false in R' by (symmetry; apply Z.eqb_neq; assumption).
    exact R'. }
  destruct (reachable_inv _ _ _ R) as [bl [fl [W Hlive]]].
  destruct (reachable_inv _ _ _ R') as [bl' [fl' [W' Hlive']]].
  apply (mymalloc_mono _ _ _ _ (Nat.max fuel (S (length fl)))) in E;
    [|apply Nat.le_max_l].
  destruct (mymalloc_wf max s bl fl n _ W ltac:(lia) (Nat.le_max_r fuel (S (length fl))))
    as [[E' _] | [l1 [b [l2 [s2 [fl2 (Ebl & Fb & Hr & _ & _ & E' & W2 & _)]]]]]];
    rewrite E' in E; inversion E; subst; clear E; [congruence|].
  pose proof (in_mid l1 b l2) as Hb.
  unfold ALIGNMENT in *. replace (addr b + 8 - 8) with (addr b) by lia.
  rewrite (block_get_payload _ _ _ _ (proj1 W) Hb).
  rewrite (block_check_free _ _ _ _ (proj1 W) Hb).
  assert (Hfresh : ~ In (addr b + 8) live).
  { intros Hin. apply Hlive in Hin. apply in_used_ptrs in Hin.
    destruct Hin as [c (Hc & Ec & Fc)].
    assert (c = b).
    { apply (layout_addr_inj _ _ _ _ _ _ (pre_layout _ _ _ (proj1 W)) Hc Hb). lia. }
    subst c. congruence. }
  set (r := roundup n 8) in *.
  assert (Hb' : exists b', In b' (l1 ++ malloc_blocks r b l2) /\ addr b' = addr b
                           /\ is_free b' = false /\ r <= size b' <= size b).
  { unfold malloc_blocks. destruct l2 as [|c l2]; [destruct (r + 24 <=? size b) eqn:Es|].
    - apply Z.leb_le in Es. eexists. split; [apply in_or_app; right; left; reflexivity|].
      simpl. splits; try reflexivity; lia.
    - eexists. split; [apply in_or_app; right; left; reflexivity|].
      simpl. splits; try reflexivity; lia.
    - eexists. split; [apply in_or_app; right; left; reflexivity|].
      simpl. splits; try reflexivity; lia. }
  destruct Hb' as [b' (Hb' & Ab & Fb' & Sb1 & Sb2)].
  assert (P' : get_payload s' (addr b) = size b').
  { rewrite <- Ab. apply (block_get_payload _ _ _ _ (proj1 W2) Hb'). }
  assert (C' : check_free s' (addr b) = false).
  { rewrite <- Ab, <- Fb'. apply (block_check_free _ _ _ _ (proj1 W2) Hb'). }
  rewrite P', C'.
  pose proof (roundup_ge n Hn) as Hge. unfold ALIGNMENT in Hge. fold r in Hge.
  splits; try assumption; try reflexivity; try lia.
  intros q Hq.
    assert (Hq' : In q (addr b + 8 :: live)) by (right; exact Hq).
    assert (Hp' : In (addr b + 8) (addr b + 8 :: live)) by (left; reflexivity).
    destruct (live_block _ _ _ _ _ W' Hlive' Hq') as [c (Hc & Ec & _ & Pc & _)].
    destruct (live_block _ _ _ _ _ W' Hlive' Hp') as [d (Hd & Ed & _ & Pd & _)].
    unfold ALIGNMENT in *.
    replace (addr b + 8 - 8) with (addr b) in Pd by lia.
    rewrite P' in Pd. rewrite Pc, Pd.
    destruct (layout_sep _ _ _ _ _ _ (pre_layout _ _ _ (proj1 W')) Hc Hd) as [E | [E | E]];
      unfold next_addr in *; [|lia|lia].
    subst d. exfalso. apply Hfresh. replace (addr b + 8) with q by lia. exact Hq.
Qed.

(** X5 ([mymalloc] leaves the owned blocks alone).  In a reachable state, whatever [mymalloc] returns, every block the
    caller owns keeps its payload size and every byte of its payload. *)
Theorem mymalloc_keeps_live_data max s live fuel n s' p q :
  reachable max s live -> 0 <= n < 2 ^ 64 ->
  mymalloc max fuel s n = Some (s', p) -> In q live ->
  get_payload s' (q - ALIGNMENT) = get_payload s (q - ALIGNMENT)
  /\ forall i, 0 <= i < get_payload s (q - ALIGNMENT) -> mem s' (q + i) = mem s (q + i).
Proof.
  intros R Hn E Hq.
  destruct (reachable_inv _ _ _ R) as [bl [fl [W Hlive]]].
  destruct (live_block _ _ _ _ _ W Hlive Hq) as [c (Hc & Ec & Fc & Pc & _)].
  apply (mymalloc_mono _ _ _ _ (Nat.max fuel (S (length fl)))) in E;
    [|apply Nat.le_max_l].
  destruct (mymalloc_wf max s bl fl n _ W Hn (Nat.le_max_r fuel (S (length fl))))
    as [[E' _] | [l1 [b [l2 [s2 [fl2 (Ebl & Fb & Hr & _ & _ & E' & W2 & _ & Fr)]]]]]];
    rewrite E' in E; inversion E; subst s' p; clear E.
  { split; [reflexivity | intros; reflexivity]. }
  destruct (pre_block _ _ _ _ (proj1 W) Hc) as (_ & _ & _ & _ & C5 & _).
  assert (Hfr : forall a, addr c <= a < next_addr c -> mem s2 a = mem s a).
  { intros a Ha. apply Fr. intros d Hd Fd.
    eapply used_outside_free; [exact (proj1 W) | exact Hc | exact Fc | exact Ha | exact Hd | exact Fd]. }
  rewrite Pc. unfold ALIGNMENT in *. subst q. replace (addr c + 8 - 8) with (addr c) in * by lia.
  split.
  - rewrite <- Pc. apply same_header. intros x Hx. apply Hfr. unfold next_addr. lia.
  - intros i Hi. apply Hfr. unfold next_addr. lia.
Qed.

(** X6 ([myfree] leaves the other owned blocks alone).  In a reachable state, releasing an owned pointer leaves the payload size
    and every payload byte of every other owned block as they were. *)
Theorem myfree_keeps_live_data max s live p q :
  reachable max s live -> In p live -> In q live -> q <> p ->
  get_payload (myfree s p) (q - ALIGNMENT) = get_payload s (q - ALIGNMENT)
  /\ forall i, 0 <= i < get_payload s (q - ALIGNMENT) ->
       mem (myfree s p) (q + i) = mem s (q + i).
Proof.
  intros R Hp Hq Hne.
  destruct (reachable_inv _ _ _ R) as [bl [fl [W Hlive]]].
  destruct (live_block _ _ _ _ _ W Hlive Hq) as [c (Hc & Ec & Fc & Pc & _)].
  apply Hlive in Hp.
  destruct (used_ptr_block _ _ _ _ W Hp) as [l1 [b [l2 (-> & -> & Fb)]]].
  pose proof (in_mid l1 b l2) as Hb.
  destruct (myfree_wf _ _ _ _ _ W Fb) as [fl' (_ & _ & Fr)].
  destruct (pre_block _ _ _ _ (proj1 W) Hc) as (_ & _ & _ & _ & C5 & _).
  destruct (pre_block _ _ _ _ (proj1 W) Hb) as (_ & _ & _ & _ & B5 & _).
  assert (Hfr : forall a, addr c <= a < next_addr c ->
                  mem (myfree s (addr b + 8)) a = mem s a).
  { intros a Ha. apply Fr.
    - intros d Hd Fd.
      pose proof (used_outside_free _ _ _ _ _ (proj1 W) Hc Fc Ha d Hd Fd) as Hs.
      destruct (pre_block _ _ _ _ (proj1 W) Hd) as (_ & _ & _ & _ & D5 & _).
      unfold next_addr in *. lia.
    - destruct (layout_sep _ _ _ _ _ _ (pre_layout _ _ _ (proj1 W)) Hc Hb) as [E | [E | E]];
        unfold next_addr in *; [subst; congruence | lia | lia]. }
  rewrite Pc. unfold ALIGNMENT in *. subst q. replace (addr c + 8 - 8) with (addr c) in * by lia.
  split.
  - rewrite <- Pc. apply same_header. intros x Hx. apply Hfr. unfold next_addr. lia.
  - intros i Hi. apply Hfr. unfold next_addr. lia.
Qed.

End ExplicitSafety2.

Section ExplicitResize.
Import Explicit.

(** A block whose bytes are the same in [s'] as in [s]. *)
Lemma kept_block s s' c :
  (forall a, addr c <= a < addr c + 8 + size c -> mem s' a = mem s a) ->
  0 <= size c -> get_payload s (addr c) = size c ->
  get_payload s' (addr c + 8 - ALIGNMENT) = get_payload s (addr c + 8 - ALIGNMENT)
  /\ forall i, 0 <= i < get_payload s (addr c + 8 - ALIGNMENT) ->
       mem s' (addr c + 8 + i) = mem s (addr c + 8 + i).
Proof.
  intros K Hs P. unfold ALIGNMENT. replace (addr c + 8 - 8) with (addr c) by lia.
  split.
  - apply same_header. intros x Hx. apply K. lia.
  - intros i Hi. apply K. lia.
Qed.

Lemma myfree_frame_used s l1 b l2 fl c a :
  heap_wf s (l1 ++ b :: l2) fl -> is_free b = false ->
  In c (l1 ++ b :: l2) -> is_free c = false -> c <> b ->
  addr c <= a < addr c + 8 + size c ->
  mem (myfree s (addr b + 8)) a = mem s a.
Proof.
  intros W Fb Hc Fc Hne Ha.
  destruct (myfree_wf _ _ _ _ _ W Fb) as [fl' (_ & _ & Fr)].
  pose proof (in_mid l1 b l2) as Hb.
  destruct (pre_block _ _ _ _ (proj1 W) Hb) as (_ & _ & _ & _ & B5 & _).
  apply Fr.
  - intros d Hd Fd. exact (used_outside_links _ _ _ _ _ (proj1 W) Hc Fc Ha d Hd Fd).
  - pose proof (block_outside _ _ _ _ _ a (proj1 W) Hc Hb Hne Ha) as Ho.
    unfold next_addr in Ho. lia.
Qed.

(** X7 ([myrealloc] leaves the other owned blocks alone).  In a reachable state, when [myrealloc] of an owned pointer returns, in
    place or after moving the block, every other owned block keeps its payload
    size and every byte of its payload. *)
Theorem myrealloc_keeps_other_data max s live fuel p n s' p' q :
  reachable max s live -> In p live -> 0 <= n < 2 ^ 64 ->
  myrealloc max fuel s p n = Done (s', p') ->
  In q live -> q <> p ->
  get_payload s' (q - ALIGNMENT) = get_payload s (q - ALIGNMENT)
  /\ forall i, 0 <= i < get_payload s (q - ALIGNMENT) -> mem s' (q + i) = mem s (q + i).
Proof.
  intros R Hp Hn E Hq Hne.
  destruct (reachable_inv _ _ _ R) as [bl [fl [W Hlive]]].
  destruct (live_block _ _ _ _ _ W Hlive Hq) as [c (Hc & Ec & Fc & Pc & _)].
  apply Hlive in Hp.
  destruct (used_ptr_block _ _ _ _ W Hp) as [l1 [b [l2 (-> & -> & Fb)]]].
  pose proof (in_mid l1 b l2) as Hb.
  destruct (pre_block _ _ _ _ (proj1 W) Hb) as (_ & _ & B3 & _).
  destruct (pre_block _ _ _ _ (proj1 W) Hc) as (_ & _ & _ & _ & C5 & _).
  assert (Hcb : c <> b) by (intros ->; apply Hne; exact Ec).
  subst q. unfold ALIGNMENT in Pc. replace (addr c + 8 - 8) with (addr c) in Pc by lia.
  apply kept_block; [| lia | exact Pc].
  intros a Ha.
  destruct (n =? 0) eqn:En.
  { unfold myrealloc in E.
    replace (addr b + 8 =? 0) with false in E by (symmetry; apply Z.eqb_neq; lia).
    rewrite En in E. inversion E; subst s' p'.
    exact (myfree_frame_used s l1 b l2 fl c a W Fb Hc Fc Hcb Ha). }
  apply Z.eqb_neq in En.
  set (fuel' := Nat.max fuel (S (length (l1 ++ b :: l2)))).
  apply (myrealloc_mono _ _ _ _ _ fuel') in E; [|apply Nat.le_max_l].
  assert (Hfuel' : (length (l1 ++ b :: l2) < fuel')%nat) by apply Nat.le_max_r.
  set (r := roundup n ALIGNMENT).
  destruct (Z_le_gt_dec r (size (fst (absorb r b l2)))) as [Hfit | Hsmall].
  - destruct (myrealloc_inplace_full max s l1 b l2 fl n fuel' W Fb ltac:(lia)
                Hfuel' Hfit) as [s2 [fl' (E' & _ & _ & K & _)]].
    rewrite E' in E. inversion E; subst s' p'.
    apply (K c); assumption.
  - destruct (myrealloc_move_full max s l1 b l2 fl n fuel' W Fb ltac:(lia)
                Hfuel' ltac:(fold r; lia))
      as [E' | [s2 [q [bl' [fl' (E' & _ & _ & _ & _ & _ & _ & K)]]]]];
      rewrite E' in E; [discriminate|]. inversion E; subst s' p'.
    apply (K c); assumption.
Qed.

(** X8 ([myrealloc] in place keeps the data and has room).  In a reachable state, when [myrealloc p n] with [n > 0] returns the same
    pointer [p], the payload of the block is now at least the rounded request,
    and the bytes of the payload below both the old payload size and the
    rounded request are unchanged. *)
Theorem myrealloc_in_place_data max s live fuel p n s' :
  reachable max s live -> In p live -> 0 < n < 2 ^ 64 ->
  myrealloc max fuel s p n = Done (s', p) ->
  roundup n ALIGNMENT <= get_payload s' (p - ALIGNMENT)
  /\ forall i, 0 <= i < Z.min (get_payload s (p - ALIGNMENT)) (roundup n ALIGNMENT) ->
       mem s' (p + i) = mem s (p + i).
Proof.
  intros R Hp Hn E.
  destruct (reachable_inv _ _ _ R) as [bl [fl [W Hlive]]].
  apply Hlive in Hp.
  destruct (used_ptr_block _ _ _ _ W Hp) as [l1 [b [l2 (-> & -> & Fb)]]].
  pose proof (in_mid l1 b l2) as Hb.
  unfold ALIGNMENT. replace (addr b + 8 - 8) with (addr b) by lia.
  rewrite (block_get_payload _ _ _ _ (proj1 W) Hb).
  set (fuel' := Nat.max fuel (S (length (l1 ++ b :: l2)))).
  apply (myrealloc_mono _ _ _ _ _ fuel') in E; [|apply Nat.le_max_l].
  assert (Hfuel' : (length (l1 ++ b :: l2) < fuel')%nat) by apply Nat.le_max_r.
  set (r := roundup n ALIGNMENT). change (roundup n 8) with r.
  destruct (Z_le_gt_dec r (size (fst (absorb r b l2)))) as [Hfit | Hsmall].
  - destruct (myrealloc_inplace_full max s l1 b l2 fl n fuel' W Fb Hn
                Hfuel' Hfit) as [s2 [fl' (E' & W' & _ & _ & K)]].
    rewrite E' in E. inversion E; subst s'. split; [|exact K].
    destruct (absorb_props r l2 b) as (A1 & _ & _ & _ & _).
    assert (Hh : exists h, In h (l1 ++ realloc_blocks r b l2) /\ addr h = addr b
                           /\ r <= size h).
    { unfold realloc_blocks.
      destruct (snd (absorb r b l2)) as [|nb l2'].
      - destruct (r + 24 <? size (fst (absorb r b l2))) eqn:Es.
        + eexists. split; [apply in_or_app; right; left; reflexivity|]. simpl. lia.
        + eexists. split; [apply in_or_app; right; left; reflexivity|]. split; [exact A1 | lia].
      - destruct (r + 24 <=? size b) eqn:Es.
        + eexists. split; [apply in_or_app; right; left; reflexivity|]. simpl. lia.
        + eexists. split; [apply in_or_app; right; left; reflexivity|]. split; [exact A1 | lia]. }
    destruct Hh as [h (Hh & Ah & Sh)]. rewrite <- Ah.
    rewrite (block_get_payload _ _ _ _ (proj1 W') Hh). exact Sh.
  - destruct (myrealloc_move_full max s l1 b l2 fl n fuel' W Fb Hn
                Hfuel' ltac:(fold r; lia))
      as [E' | [s2 [q [bl' [fl' (E' & Hq & _)]]]]];
      rewrite E' in E; [discriminate|]. inversion E; subst. contradiction.
Qed.

(** X9 ([myrealloc] returns a block or stops the program).  In a reachable state, [myrealloc] of an owned pointer to a size that is
    not zero does not run forever: with enough fuel it either stops the
    program or returns a pointer, and that pointer is never null. *)
Theorem myrealloc_returns_nonnull max s live p n :
  reachable max s live -> In p live -> 0 < n < 2 ^ 64 ->
  exists fuel0, forall fuel, (fuel0 <= fuel)%nat ->
    myrealloc max fuel s p n = Crash
    \/ exists s' p', myrealloc max fuel s p n = Done (s', p') /\ p' <> 0.
Proof.
  intros R Hp Hn.
  destruct (reachable_inv _ _ _ R) as [bl [fl [W Hlive]]].
  apply Hlive in Hp.
  destruct (used_ptr_block _ _ _ _ W Hp) as [l1 [b [l2 (-> & -> & Fb)]]].
  pose proof (in_mid l1 b l2) as Hb.
  destruct (pre_block _ _ _ _ (proj1 W) Hb) as (_ & _ & B3 & _).
  exists (S (length (l1 ++ b :: l2))). intros fuel Hfuel.
  set (r := roundup n ALIGNMENT).
  destruct (Z_le_gt_dec r (size (fst (absorb r b l2)))) as [Hfit | Hsmall].
  - destruct (myrealloc_inplace_full max s l1 b l2 fl n fuel W Fb Hn
                ltac:(lia) Hfit) as [s2 [fl' (E' & _)]].
    right. exists s2, (addr b + 8). split; [exact E' | lia].
  - destruct (myrealloc_move_full max s l1 b l2 fl n fuel W Fb Hn
                ltac:(lia) ltac:(fold r; lia))
      as [E' | [s2 [q [bl' [fl' (E' & _ & Hq0 & _)]]]]].
    + left. exact E'.
    + right. exists s2, q. split; assumption.
Qed.

(** X10 (a request that fits is served in place).  In a reachable state, [myrealloc p n] of an owned pointer with [n > 0]
    and a rounded request no larger than the payload of the block returns [p]
    itself: the block is not moved and the call cannot fail. *)
Theorem myrealloc_fitting_stays max s live p n fuel :
  reachable max s live -> In p live -> 0 < n < 2 ^ 64 ->
  roundup n ALIGNMENT <= get_payload s (p - ALIGNMENT) ->
  exists s', myrealloc max (S fuel) s p n = Done (s', p).
Proof.
  intros R Hp Hn Hfit.
  destruct (reachable_inv _ _ _ R) as [bl [fl [W Hlive]]].
  apply Hlive in Hp.
  destruct (used_ptr_block _ _ _ _ W Hp) as [l1 [b [l2 (-> & -> & Fb)]]].
  pose proof (in_mid l1 b l2) as Hb.
  destruct (pre_block _ _ _ _ (proj1 W) Hb) as (_ & B2 & B3 & B4 & B5 & _).
  unfold next_addr, ALIGNMENT in *.
  replace (addr b + 8 - 8) with (addr b) in Hfit by lia.
  unfold myrealloc.
  replace (addr b + 8 =? 0) with false by (symmetry; apply Z.eqb_neq; lia).
  replace (n =? 0) with false by (symmetry; apply Z.eqb_neq; lia).
  unfold ALIGNMENT. replace (addr b + 8 - 8) with (addr b) by lia.
  rewrite (wrap_small (addr b)) by lia.
  rewrite coalesce_multiple_noop by exact Hfit.
  replace (roundup n 8 <=? get_payload s (addr b)) with true
    by (symmetry; apply Z.leb_le; exact Hfit).
  eexists. reflexivity.
Qed.

End ExplicitResize.

Section ExplicitReuse.
Import Explicit.

(** X11 (the block just released is the first one tried).  In a reachable state, after [myfree p] of an owned pointer the block of
    [p] is the head of the free list, and a request whose rounded size is
    within [MAX_REQUEST_SIZE] and no larger than the payload the block had is
    served from it: [mymalloc] returns [p] again. *)
Theorem free_then_malloc_reuses max s live p n fuel :
  reachable max s live -> In p live -> 0 <= n < 2 ^ 64 ->
  roundup n ALIGNMENT <= get_payload s (p - ALIGNMENT) ->
  roundup n ALIGNMENT <= max ->
  freelist_start (myfree s p) = p - ALIGNMENT
  /\ exists s', mymalloc max (S fuel) (myfree s p) n = Some (s', p).
Proof.
  intros R Hp Hn Hfit Hmax.
  destruct (reachable_inv _ _ _ R) as [bl [fl [W Hlive]]].
  apply Hlive in Hp.
  destruct (used_ptr_block _ _ _ _ W Hp) as [l1 [b [l2 (-> & -> & Fb)]]].
  pose proof (in_mid l1 b l2) as Hb.
  destruct (pre_block _ _ _ _ (proj1 W) Hb) as (_ & B2 & B3 & B4 & B5 & _).
  unfold ALIGNMENT in *. replace (addr b + 8 - 8) with (addr b) in * by lia.
  rewrite (block_get_payload _ _ _ _ (proj1 W) Hb) in Hfit.
  destruct (myfree_full _ _ _ _ _ W Fb) as [fl' (W' & _ & _ & Hh)].
  split; [exact Hh|].
  set (s1 := myfree s (addr b + 8)) in *.
  set (fb := mkBlock (addr b) (size b) true) in *.
  assert (Hhb : exists hb, In hb (l1 ++ merge_next fb l2) /\ addr hb = addr b
                           /\ is_free hb = true /\ size b <= size hb).
  { unfold merge_next. destruct l2 as [|nb l2']; [|destruct (is_free nb) eqn:Fnb].
    - exists fb. split; [apply in_or_app; right; left; reflexivity|]. simpl. lia.
    - assert (Hnb : In nb (l1 ++ b :: nb :: l2'))
        by (apply in_or_app; right; right; left; reflexivity).
      destruct (pre_block _ _ _ _ (proj1 W) Hnb) as (_ & _ & _ & _ & N5 & _).
      eexists. split; [apply in_or_app; right; left; reflexivity|]. simpl. lia.
    - exists fb. split; [apply in_or_app; right; left; reflexivity|]. simpl. lia. }
  destruct Hhb as [hb (Hhb & Ah & Fh & Sh)].
  pose proof (block_get_payload _ _ _ _ (proj1 W') Hhb) as P1. rewrite Ah in P1.
  pose proof (block_check_free _ _ _ _ (proj1 W') Hhb) as C1. rewrite Ah, Fh in C1.
  unfold next_addr in *.
  unfold mymalloc, search_freelist. rewrite Hh. cbn [search_from].
  replace (addr b =? 0) with false by (symmetry; apply Z.eqb_neq; lia).
  rewrite C1, P1.
  replace (roundup n ALIGNMENT <=? size hb) with true by (symmetry; apply Z.leb_le; unfold ALIGNMENT; lia).
  cbn [andb].
  replace (addr b =? 0) with false by (symmetry; apply Z.eqb_neq; lia).
  replace (max <? roundup n ALIGNMENT) with false by (symmetry; apply Z.ltb_ge; unfold ALIGNMENT; lia).
  unfold ALIGNMENT. rewrite (wrap_small (addr b + 8)) by lia.
  match goal with |- context [if ?c then _ else _] => destruct c end;
    eexists; reflexivity.
Qed.

(** X12 (the first request on a fresh heap).  [myinit] accepts a valid region of at least 24 bytes.  On the heap it
    sets up, [mymalloc n] returns the first payload address, one header past
    the start of the region, when the rounded request is no larger than the
    region less one header and within [MAX_REQUEST_SIZE]; otherwise it returns
    the null pointer and leaves the heap as it is. *)
Theorem fresh_heap_first_malloc max s heap_start heap_size n fuel :
  valid_region heap_start heap_size -> ALIGNMENT * 3 <= heap_size ->
  0 <= n < 2 ^ 64 ->
  exists s0,
    myinit s heap_start heap_size = (s0, true)
    /\ if (roundup n ALIGNMENT <=? heap_size - ALIGNMENT) && (roundup n ALIGNMENT <=? max)
       then exists s', mymalloc max (S (S fuel)) s0 n = Some (s', heap_start + ALIGNMENT)
       else mymalloc max (S (S fuel)) s0 n = Some (s0, 0).
Proof.
  intros V Hsz Hn.
  assert (E : exists s0, myinit s heap_start heap_size = (s0, true)).
  { unfold myinit. replace (heap_size <? ALIGNMENT * 3) with false
      by (symmetry; apply Z.ltb_ge; lia). eexists. reflexivity. }
  destruct E as [s0 E]. exists s0. split; [exact E|].
  pose proof (myinit_inv _ _ _ _ V E) as W.
  set (b0 := mkBlock heap_start (heap_size - 8) true) in *.
  set (r := roundup n ALIGNMENT).
  destruct (mymalloc_wf max s0 [b0] [heap_start] n (S (S fuel)) W Hn ltac:(simpl; lia))
    as [[E' Hc] | [l1 [b [l2 [s2 [fl2 (Ebl & Fb & Hr & Hm & _ & E' & _)]]]]]].
  - fold r in Hc.
    replace ((r <=? heap_size - ALIGNMENT) && (r <=? max)) with false; [exact E'|].
    symmetry. apply andb_false_iff. rewrite !Z.leb_gt.
    destruct Hc as [Hc | [_ Hc]]; [right; lia|].
    left. specialize (Hc b0 (or_introl eq_refl) eq_refl). simpl in Hc.
    unfold ALIGNMENT. lia.
  - assert (Hb : In b [b0]) by (rewrite Ebl; apply in_mid).
    destruct Hb as [<- | []]. fold r in Hr, Hm. simpl in Hr.
    replace ((r <=? heap_size - ALIGNMENT) && (r <=? max)) with true.
    + exists s2. exact E'.
    + symmetry. apply andb_true_intro. rewrite !Z.leb_le. unfold ALIGNMENT. lia.
Qed.

Lemma wrap_eqm x : (wrap x - x) mod 2 ^ 64 = 0.
Proof.
  unfold wrap. rewrite Zminus_mod, Z.mod_mod by lia.
  rewrite Z.sub_diag. reflexivity.
Qed.

Lemma eqm_zero x y : (x - y) mod 2 ^ 64 = 0 -> 0 <= x < 2 ^ 64 -> 0 <= y < 2 ^ 64 -> x = y.
Proof.
  intros H Hx Hy. apply Z.mod_divide in H; [|lia]. destruct H as [k H]. lia.
Qed.

(** The running total of the first loop of [validate_heap] is the distance
    walked, modulo the word size. *)
Lemma validate_blocks_total s : forall fuel idx total t,
  validate_blocks fuel s idx total = Some (Some t) ->
  ((t - total) - (heap_end s - idx)) mod 2 ^ 64 = 0.
Proof.
  induction fuel as [|k IH]; intros idx total t H.
  - simpl in H. destruct (idx =? heap_end s) eqn:E; [|discriminate].
    apply Z.eqb_eq in E. inversion H; subst.
    replace (t - t - (heap_end s - heap_end s)) with 0 by lia. reflexivity.
  - simpl in H. destruct (idx =? heap_end s) eqn:E.
    + apply Z.eqb_eq in E. inversion H; subst.
      replace (t - t - (heap_end s - heap_end s)) with 0 by lia. reflexivity.
    + destruct (heap_end s <? idx); [discriminate|].
      destruct (negb (get_payload s idx mod ALIGNMENT =? 0)); [discriminate|].
      apply IH in H.
      set (d := get_payload s idx + ALIGNMENT) in *.
      pose proof (wrap_eqm (idx + d)) as W1. pose proof (wrap_eqm (total + d)) as W2.
      apply Z.mod_divide in H; [|lia]. apply Z.mod_divide in W1; [|lia].
      apply Z.mod_divide in W2; [|lia]. apply Z.mod_divide; [lia|].
      destruct H as [a H]. destruct W1 as [b W1]. destruct W2 as [c W2].
      exists (a + c - b). lia.
Qed.

Lemma validate_blocks_range s : forall fuel idx total t,
  0 <= total < 2 ^ 64 ->
  validate_blocks fuel s idx total = Some (Some t) -> 0 <= t < 2 ^ 64.
Proof.
  induction fuel as [|k IH]; intros idx total t Ht H; simpl in H.
  - destruct (idx =? heap_end s); [|discriminate]. inversion H; subst. exact Ht.
  - destruct (idx =? heap_end s); [inversion H; subst; exact Ht|].
    destruct (heap_end s <? idx); [discriminate|].
    destruct (negb (get_payload s idx mod ALIGNMENT =? 0)); [discriminate|].
    eapply IH; [|exact H]. apply wrap_range.
Qed.

(** X13 (two tests of [validate_heap] cannot fail).  With the globals as [myinit] sets them and any contents of memory:
    [get_payload] is always a multiple of 8, so the alignment tests never fire;
    and whenever the walk over the blocks ends, the total it has added up is
    [segment_size], so the size comparison never fires.  The result
    of [validate_heap] is that of the walk over the blocks followed by the
    walk over the free list. *)
Theorem validate_heap_dead_tests s0 heap_start heap_size m fuel :
  0 <= heap_start < 2 ^ 64 -> ALIGNMENT * 3 <= heap_size < 2 ^ 64 ->
  let s := set_mem (fst (myinit s0 heap_start heap_size)) m in
  (forall x, get_payload s x mod ALIGNMENT = 0)
  /\ (forall t, validate_blocks fuel s (segment_start s) 0 = Some (Some t) ->
                t = segment_size s)
  /\ validate_heap fuel s
     = match validate_blocks fuel s (segment_start s) 0 with
       | None => None
       | Some None => Some false
       | Some (Some _) => validate_freelist fuel s (freelist_start s)
       end.
Proof.
  intros Hs Hsz s.
  assert (G : segment_start s = heap_start /\ segment_size s = heap_size
              /\ heap_end s = wrap (heap_start + heap_size)).
  { unfold s, myinit. replace (heap_size <? ALIGNMENT * 3) with false
      by (symmetry; apply Z.ltb_ge; lia). simpl. auto. }
  destruct G as (G1 & G2 & G3).
  assert (T : forall t, validate_blocks fuel s (segment_start s) 0 = Some (Some t) ->
                        t = segment_size s).
  { intros t H.
    assert (Ht : 0 <= t < 2 ^ 64)
      by (eapply validate_blocks_range; [|exact H]; lia).
    apply validate_blocks_total in H. rewrite G1, G2, G3 in *.
    apply eqm_zero; [|exact Ht|unfold ALIGNMENT in Hsz; lia].
    pose proof (wrap_eqm (heap_start + heap_size)) as W1.
    apply Z.mod_divide in H; [|lia]. apply Z.mod_divide in W1; [|lia].
    apply Z.mod_divide; [lia|].
    destruct H as [a H]. destruct W1 as [b W1]. exists (a + b). lia. }
  splits; [|exact T|].
  - intros x. unfold get_payload, PAYLOAD_MASK, ALIGNMENT.
    rewrite payload_mask_val, land_payload_mask by apply load64_range.
    pose proof (Z.div_mod (payload_field s x) 8 ltac:(lia)) as D.
    replace (payload_field s x - payload_field s x mod 8)
      with ((payload_field s x / 8) * 8) by lia.
    apply Z.mod_mul. lia.
  - unfold validate_heap.
    destruct (validate_blocks fuel s (segment_start s) 0) as [[t|]|] eqn:E; try reflexivity.
    rewrite (T t eq_refl), Z.eqb_refl. reflexivity.
Qed.

End ExplicitReuse.

Section ImplicitSearch.
Import Implicit.

Lemma iroundup_eq n :
  0 <= n < 2 ^ 64 ->
  roundup n ALIGNMENT = wrap (n + 7) - wrap (n + 7) mod 8.
Proof.
  intros Hn. unfold roundup, ALIGNMENT.
  change (wrap (Z.lnot (wrap (8 - 1)))) with (2 ^ 64 - 8).
  replace (n + 8 - 1) with (n + 7) by lia.
  apply land_payload_mask. apply wrap_range.
Qed.

Lemma iroundup_props n :
  0 <= n < 2 ^ 64 ->
  0 <= roundup n ALIGNMENT < 2 ^ 64 /\ roundup n ALIGNMENT mod 8 = 0.
Proof.
  intros Hn. rewrite iroundup_eq by assumption.
  pose proof (wrap_range (n + 7)) as Hw.
  pose proof (Z.mod_pos_bound (wrap (n + 7)) 8 ltac:(lia)) as Hm.
  pose proof (Z.div_mod (wrap (n + 7)) 8 ltac:(lia)) as D.
  pose proof (Z.div_pos (wrap (n + 7)) 8 ltac:(lia) ltac:(lia)) as Dp.
  split; [lia|].
  replace (wrap (n + 7) - wrap (n + 7) mod 8) with ((wrap (n + 7) / 8) * 8) by lia.
  apply Z.mod_mul. lia.
Qed.

Lemma iroundup_ge n : 0 <= n <= 2 ^ 64 - 8 -> n <= roundup n ALIGNMENT.
Proof.
  intros Hn. rewrite iroundup_eq by lia. rewrite (wrap_small (n + 7)) by lia.
  pose proof (Z.mod_pos_bound (n + 7) 8 ltac:(lia)). lia.
Qed.

Lemma malloc_loop_mono s r : forall fuel fuel' idx res,
  malloc_loop fuel s r idx = Some res -> (fuel <= fuel')%nat ->
  malloc_loop fuel' s r idx = Some res.
Proof.
  induction fuel as [|k IH]; intros fuel' idx res H Hle.
  - simpl in H. destruct (idx =? heap_end s) eqn:E; [|discriminate].
    destruct fuel'; simpl; rewrite E; exact H.
  - destruct fuel' as [|k']; [lia|]. cbn [malloc_loop] in *.
    destruct (idx =? heap_end s); [exact H|].
    repeat match goal with
           | |- context [if ?c then _ else _] => destruct c; try exact H
           end.
    apply IH with (fuel' := k') in H; [exact H | lia].
Qed.

(** The loop of [mymalloc] on a well-formed heap: first fit in address
    order. *)
Lemma malloc_loop_first_fit s bl r :
  iheap s bl -> 0 <= r < 2 ^ 64 ->
  forall l2 l1 fuel idx,
    bl = l1 ++ l2 -> layout (mem s) idx l2 (heap_end s) ->
    (length l2 <= fuel)%nat ->
    match find (fits r) l2 with
    | None => malloc_loop fuel s r idx = Some (s, 0)
    | Some c =>
      exists k1 k2,
        l2 = k1 ++ c :: k2 /\ (forall d, In d k1 -> fits r d = false)
        /\ is_free c = true /\ r <= size c
        /\ malloc_loop fuel s r idx
           = Some (itake s r c (match k2 with [] => true | _ => false end),
                   addr c + 8)
    end.
Proof.
  intros HI Hr. induction l2 as [|c l2 IH]; intros l1 fuel idx Ebl HL Hf.
  - simpl in HL. subst idx. simpl.
    destruct fuel; simpl; rewrite Z.eqb_refl; reflexivity.
  - assert (Hc : In c bl) by (subst bl; apply in_or_app; right; left; reflexivity).
    destruct (iheap_block _ _ _ HI Hc) as (C1 & C2 & C3 & C4 & C5).
    destruct (iheap_header _ _ _ HI Hc) as [P1 P2].
    pose proof HL as (Ea & _ & _ & HL'). subst idx.
    pose proof (layout_le _ _ _ _ HL') as Hle.
    pose proof HI as (I1 & I2 & I3).
    unfold next_addr, ALIGNMENT in *.
    destruct fuel as [|k]; [simpl in Hf; lia|]. simpl in Hf.
    cbn [malloc_loop find].
    replace (addr c =? heap_end s) with false by (symmetry; apply Z.eqb_neq; lia).
    rewrite P1, P2. unfold ALIGNMENT.
    rewrite (wrap_small (addr c + size c + 8)) by lia.
    rewrite (wrap_small (addr c + 8)) by lia.
    unfold fits at 1.
    destruct l2 as [|d l2'].
    + simpl in HL'.
      replace (addr c + size c + 8 =? heap_end s) with true
        by (symmetry; apply Z.eqb_eq; lia).
      destruct (is_free c) eqn:Fc; cbn [negb orb andb]; [|reflexivity].
      rewrite Z.ltb_antisym.
      destruct (r <=? size c) eqn:Efit; cbn [negb]; [|reflexivity].
      apply Z.leb_le in Efit.
      exists [], []. splits; try reflexivity; try assumption.
      { intros d0 []. }
      rewrite (wrap_small (r + 8 * 2)) by lia.
      unfold itake. replace (r + 8 * 2) with (r + 16) by lia.
      destruct (r + 16 <=? size c) eqn:Esp.
      * apply Z.leb_le in Esp.
        rewrite (wrap_small (r + 1)) by lia.
        rewrite (wrap_small (addr c + r + 8)) by lia.
        rewrite (wrap_small (size c - r - 8)) by lia.
        replace (addr c + r + 8) with (addr c + 8 + r) by lia. reflexivity.
      * rewrite (wrap_small (r + 1)) by lia. reflexivity.
    + pose proof (layout_head_size _ _ _ _ _ HL') as [Sd _].
      pose proof HL' as (Ed & _ & _ & HL'').
      pose proof (layout_le _ _ _ _ HL'') as Hle2.
      replace (addr c + size c + 8 =? heap_end s) with false
        by (symmetry; apply Z.eqb_neq; lia).
      destruct (is_free c && (r <=? size c)) eqn:Efit.
      * apply andb_prop in Efit. destruct Efit as [Fc Efit]. apply Z.leb_le in Efit.
        exists [], (d :: l2'). splits; try reflexivity; try assumption.
        { intros d0 []. }
        unfold itake. rewrite C5. unfold enc. rewrite Fc.
        rewrite Z.add_0_r. rewrite (wrap_small (size c + 1)) by lia. reflexivity.
      * rewrite (wrap_small (addr c + (size c + 8))) by lia.
        replace (addr c + (size c + 8)) with (addr c + 8 + size c) by lia.
        specialize (IH (l1 ++ [c]) k (addr c + 8 + size c)).
        rewrite <- app_assoc in IH. specialize (IH Ebl HL' ltac:(lia)).
        destruct (find (fits r) (d :: l2')) as [c'|]; [|exact IH].
        destruct IH as [k1 [k2 (E1 & E2 & E3 & E4 & E5)]].
        exists (c :: k1), k2. splits; try assumption.
        -- simpl. rewrite E1. reflexivity.
        -- intros d0 [<- | Hd0]; [exact Efit | apply E2; exact Hd0].
Qed.

Lemma enc_decode b x :
  enc b = enc x -> size b mod 8 = 0 -> size x mod 8 = 0 -> size b = size x.
Proof.
  unfold enc. intros E Hb Hx.
  pose proof (Z.div_mod (size b) 8 ltac:(lia)). pose proof (Z.div_mod (size x) 8 ltac:(lia)).
  destruct (is_free b), (is_free x); lia.
Qed.

(** Two layouts over memories with the same headers agree block by block. *)
Lemma layout_sync m m' l1 : forall a bl' c rest e,
  layout m a (l1 ++ c :: rest) e -> layout m' a bl' e ->
  (forall b, In b l1 -> load64 m' (addr b) = load64 m (addr b)) ->
  exists c', In c' bl' /\ addr c' = addr c.
Proof.
  induction l1 as [|x l1 IH]; intros a bl' c rest e HL HL' Hsame.
  - simpl in HL. pose proof (layout_head_size _ _ _ _ _ HL) as [Sc _].
    destruct HL as (Ea & _ & _ & HL). pose proof (layout_le _ _ _ _ HL).
    destruct bl' as [|b' bl'']; simpl in HL'; [lia|].
    exists b'. split; [left; reflexivity | lia].
  - simpl in HL. pose proof (layout_head_size _ _ _ _ _ HL) as [Sx _].
    destruct HL as (Ea & El & Em & HL).
    pose proof (layout_le _ _ _ _ HL).
    destruct bl' as [|b' bl'']; simpl in HL'; [lia|].
    destruct HL' as (Ea' & El' & Em' & HL').
    assert (Es : size b' = size x).
    { apply enc_decode; try assumption.
      rewrite <- El', <- El, <- Ea. apply Hsame. left. reflexivity. }
    rewrite Es in HL'.
    destruct (IH _ bl'' c rest e HL HL') as [c' [Hc' Ec']].
    + intros b Hb. apply Hsame. right. exact Hb.
    + exists c'. split; [right; exact Hc' | exact Ec'].
Qed.

(** The block after a block that does not end the layout. *)
Lemma layout_next m bl : forall a e b,
  layout m a bl e -> In b bl -> next_addr b <> e ->
  exists b', In b' bl /\ addr b' = next_addr b.
Proof.
  induction bl as [|x bl IH]; intros a e b HL Hb Hne; [destruct Hb|].
  destruct HL as (Ea & El & Em & HL). destruct Hb as [<- | Hb].
  - destruct bl as [|y bl']; simpl in HL.
    + unfold next_addr in Hne. lia.
    + exists y. split; [right; left; reflexivity|]. unfold next_addr. lia.
  - destruct (IH _ _ _ HL Hb Hne) as [b' [Hb' Eb']].
    exists b'. split; [right; exact Hb' | exact Eb'].
Qed.

End ImplicitSearch.

Section ImplicitMore.
Import Implicit.

Lemma sizes_close a r :
  a mod 8 = 0 -> r mod 8 = 0 -> r <= a < r + 16 -> a <> r + 8 -> a = r.
Proof.
  intros Ha Hr Hl Hne.
  pose proof (Z.div_mod a 8 ltac:(lia)). pose proof (Z.div_mod r 8 ltac:(lia)). lia.
Qed.

(** Handing out a block keeps the heap well formed, except when the last
    block has exactly one header more than the request. *)
Lemma itake_wf s l1 c l2 r :
  iheap s (l1 ++ c :: l2) -> is_free c = true ->
  0 <= r -> r mod 8 = 0 -> r <= size c ->
  (l2 = [] -> size c <> r + 8) ->
  iheap (itake s r c (match l2 with [] => true | _ => false end))
        (l1 ++ imalloc_blocks r c l2).
Proof.
  intros (I1 & I2 & HL) Fc Hr Hr8 Hfit Hgap.
  pose proof (layout_mid _ _ _ _ _ _ HL) as (HA & HB & HE).
  pose proof (layout_head_size _ _ _ _ _ HB) as [Sc _].
  pose proof (layout_le _ _ _ _ HA) as LA. pose proof (layout_le _ _ _ _ HE) as LE.
  destruct HB as (_ & Hl & Hm & _). unfold next_addr in *.
  unfold itake, imalloc_blocks.
  destruct l2 as [|d l2'].
  - simpl in HE. specialize (Hgap eq_refl).
    destruct (r + 16 <=? size c) eqn:Esp.
    + apply Z.leb_le in Esp. unfold iheap. splits; try assumption. simpl.
      apply layout_app. exists (addr c). split.
      * eapply layout_frame; [exact HA|]. intros x Hx.
        rewrite !store64_other by lia. reflexivity.
      * cbn [layout addr size]. splits; try reflexivity; try assumption.
        -- rewrite load64_store64_other by lia. rewrite load64_store64_same.
           unfold enc. simpl. apply wrap_small. lia.
        -- rewrite load64_store64_same. unfold enc. simpl.
           rewrite Z.add_0_r. apply wrap_small. lia.
        -- apply mod8_diff; assumption.
        -- lia.
    + apply Z.leb_gt in Esp.
      assert (Es : size c = r) by (apply sizes_close; try assumption; lia).
      unfold iheap. splits; try assumption. simpl.
      apply layout_app. exists (addr c). split.
      * eapply layout_frame; [exact HA|]. intros x Hx.
        rewrite !store64_other by lia. reflexivity.
      * cbn [layout addr size]. splits; try reflexivity; try assumption.
        -- rewrite load64_store64_same. unfold enc. simpl. apply wrap_small. lia.
        -- lia.
  - unfold iheap. splits; try assumption. simpl.
    apply layout_app. exists (addr c). split.
    + eapply layout_frame; [exact HA|]. intros x Hx.
      rewrite !store64_other by lia. reflexivity.
    + change (mkBlock (addr c) (size c) false :: d :: l2')
        with ([mkBlock (addr c) (size c) false] ++ d :: l2').
      apply layout_app. exists (addr c + 8 + size c). split.
      * cbn [layout addr size]. splits; try reflexivity; try assumption.
        rewrite load64_store64_same. unfold enc. simpl. apply wrap_small. lia.
      * apply layout_store; [exact HE | left; lia].
Qed.

Lemma used_ptrs_imalloc r b l1 l2 q :
  is_free b = true ->
  In q (used_ptrs (l1 ++ imalloc_blocks r b l2))
  <-> q = addr b + 8 \/ In q (used_ptrs (l1 ++ b :: l2)).
Proof.
  intros Fb. rewrite !used_ptrs_app, !in_app_iff, (used_ptrs_cons b), Fb.
  unfold imalloc_blocks. destruct l2 as [|nb l2]; [destruct (r + 16 <=? size b)|];
    rewrite !used_ptrs_cons; simpl; intuition.
Qed.

(** What [mymalloc] returns, for any fuel that lets it return. *)
Lemma imymalloc_result s bl n fuel s' p :
  iheap s bl -> 0 < n < 2 ^ 64 ->
  mymalloc fuel s n = Some (s', p) -> p <> 0 ->
  exists k1 c k2,
    bl = k1 ++ c :: k2 /\ (forall d, In d k1 -> fits (roundup n ALIGNMENT) d = false)
    /\ is_free c = true /\ roundup n ALIGNMENT <= size c
    /\ p = addr c + 8
    /\ s' = itake s (roundup n ALIGNMENT) c (match k2 with [] => true | _ => false end).
Proof.
  intros HI Hn E Hp. unfold mymalloc in E.
  replace (n =? 0) with false in E by (symmetry; apply Z.eqb_neq; lia).
  apply (malloc_loop_mono _ _ _ (Nat.max fuel (length bl))) in E; [|apply Nat.le_max_l].
  pose proof (malloc_loop_first_fit s bl (roundup n ALIGNMENT) HI
                (proj1 (iroundup_props n ltac:(lia))) bl [] _ (segment_start s) eq_refl
                (proj2 (proj2 HI)) (Nat.le_max_r fuel (length bl))) as F.
  destruct (find (fits (roundup n ALIGNMENT)) bl) as [c|].
  - destruct F as [k1 [k2 (E1 & E2 & E3 & E4 & E5)]].
    rewrite E5 in E. inversion E; subst s' p.
    exists k1, c, k2. splits; try assumption; reflexivity.
  - rewrite F in E. inversion E; subst. contradiction.
Qed.

(** X22 (first fit in address order).  On a well-formed implicit heap, with fuel for one step per block,
    [mymalloc n] with [n > 0] returns: the null pointer, and the heap as it is,
    when no block is free with a payload of at least the rounded request;
    otherwise the payload pointer of the first such block in address order. *)
Theorem implicit_mymalloc_first_fit s bl n fuel :
  iheap s bl -> 0 < n < 2 ^ 64 -> (length bl <= fuel)%nat ->
  match find (fits (roundup n ALIGNMENT)) bl with
  | None => mymalloc fuel s n = Some (s, 0)
  | Some c => exists s', mymalloc fuel s n = Some (s', addr c + ALIGNMENT)
  end.
Proof.
  intros HI Hn Hf. unfold mymalloc.
  replace (n =? 0) with false by (symmetry; apply Z.eqb_neq; lia).
  pose proof (malloc_loop_first_fit s bl (roundup n ALIGNMENT) HI
                (proj1 (iroundup_props n ltac:(lia))) bl [] fuel (segment_start s) eq_refl
                (proj2 (proj2 HI)) Hf) as F.
  destruct (find (fits (roundup n ALIGNMENT)) bl) as [c|]; [|exact F].
  destruct F as [k1 [k2 (_ & _ & _ & _ & E)]]. eexists. exact E.
Qed.

(** X23 (the implicit [mymalloc] keeps the heap well formed, one case apart).  On a well-formed implicit heap, when [mymalloc n] with [n > 0] returns a
    pointer that is not null, and it is not the case that the block taken is
    the last one with a payload of exactly the rounded request plus one
    header: the heap is well formed again, its used blocks are the ones before
    and the new one, and the payload of the new block is at least the rounded
    request. *)
Theorem implicit_mymalloc_keeps_heap s bl n fuel s' p :
  iheap s bl -> 0 < n < 2 ^ 64 ->
  mymalloc fuel s n = Some (s', p) -> p <> 0 ->
  ~ (p + Z.land (load64 (mem s) (p - ALIGNMENT)) PAYLOAD_MASK = heap_end s
     /\ Z.land (load64 (mem s) (p - ALIGNMENT)) PAYLOAD_MASK
        = roundup n ALIGNMENT + ALIGNMENT) ->
  exists bl',
    iheap s' bl'
    /\ (forall q, In q (used_ptrs bl') <-> q = p \/ In q (used_ptrs bl))
    /\ roundup n ALIGNMENT <= Z.land (load64 (mem s') (p - ALIGNMENT)) PAYLOAD_MASK.
Proof.
  intros HI Hn E Hp Hgap.
  destruct (imymalloc_result _ _ _ _ _ _ HI Hn E Hp)
    as [k1 [c [k2 (-> & _ & Fc & Hfit & -> & ->)]]].
  destruct (iroundup_props n ltac:(lia)) as [Hr Hr8].
  set (r := roundup n ALIGNMENT) in *.
  pose proof (in_mid k1 c k2) as Hc.
  destruct (iheap_block _ _ _ HI Hc) as (C1 & C2 & C3 & C4 & C5).
  unfold ALIGNMENT in *. replace (addr c + 8 - 8) with (addr c) in * by lia.
  rewrite (proj1 (iheap_header _ _ _ HI Hc)) in Hgap.
  assert (W' : iheap (itake s r c (match k2 with [] => true | _ => false end))
                     (k1 ++ imalloc_blocks r c k2)).
  { apply itake_wf; try assumption; try lia.
    intros -> Es. apply Hgap.
    destruct HI as (_ & _ & HL).
    pose proof (layout_mid _ _ _ _ _ _ HL) as (_ & _ & HE). simpl in HE.
    unfold next_addr in HE. lia. }
  exists (k1 ++ imalloc_blocks r c k2). splits.
  - exact W'.
  - intros q. apply used_ptrs_imalloc. exact Fc.
  - assert (Hh : exists h, In h (k1 ++ imalloc_blocks r c k2) /\ addr h = addr c
                           /\ r <= size h).
    { unfold imalloc_blocks. destruct k2 as [|d k2']; [destruct (r + 16 <=? size c)|];
        (eexists; split; [apply in_or_app; right; left; reflexivity|]; simpl; lia). }
    destruct Hh as [h (Hh & Ah & Sh)]. rewrite <- Ah.
    rewrite (proj1 (iheap_header _ _ _ W' Hh)). exact Sh.
Qed.

(** X24 (the last eight bytes are lost when the last block has one header more than the request).  On a well-formed implicit heap, when [mymalloc n] takes the last block
    and its payload is exactly the rounded request plus one header, the header
    written holds the rounded request: the block now ends eight bytes before
    [heap_end], nothing is written behind its header, and the heap is well
    formed afterwards only if the word that was in those last eight bytes is at
    most 1. *)
Theorem implicit_mymalloc_tail_gap s bl n fuel s' p :
  iheap s bl -> 0 < n < 2 ^ 64 ->
  mymalloc fuel s n = Some (s', p) -> p <> 0 ->
  p + Z.land (load64 (mem s) (p - ALIGNMENT)) PAYLOAD_MASK = heap_end s ->
  Z.land (load64 (mem s) (p - ALIGNMENT)) PAYLOAD_MASK
  = roundup n ALIGNMENT + ALIGNMENT ->
  Z.land (load64 (mem s') (p - ALIGNMENT)) PAYLOAD_MASK = roundup n ALIGNMENT
  /\ p + roundup n ALIGNMENT = heap_end s' - ALIGNMENT
  /\ (forall x, p <= x -> mem s' x = mem s x)
  /\ forall bl', iheap s' bl' -> load64 (mem s) (heap_end s - ALIGNMENT) <= 1.
Proof.
  intros HI Hn E Hp Hend Hsz.
  destruct (imymalloc_result _ _ _ _ _ _ HI Hn E Hp)
    as [k1 [c [k2 (-> & _ & Fc & Hfit & -> & ->)]]].
  destruct (iroundup_props n ltac:(lia)) as [Hr Hr8].
  set (r := roundup n ALIGNMENT) in *.
  pose proof (in_mid k1 c k2) as Hc.
  destruct (iheap_block _ _ _ HI Hc) as (C1 & C2 & C3 & C4 & C5).
  unfold ALIGNMENT in *. replace (addr c + 8 - 8) with (addr c) in * by lia.
  rewrite (proj1 (iheap_header _ _ _ HI Hc)) in Hend, Hsz.
  pose proof HI as (I1 & I2 & HL).
  pose proof (layout_mid _ _ _ _ _ _ HL) as (HA & _ & HE).
  unfold next_addr in *.
  assert (k2 = []).
  { destruct k2 as [|d k2']; [reflexivity|].
    pose proof (layout_head_size _ _ _ _ _ HE) as [Sd _].
    destruct HE as (_ & _ & _ & HE). pose proof (layout_le _ _ _ _ HE). lia. }
  subst k2. unfold itake.
  replace (r + 16 <=? size c) with false by (symmetry; apply Z.leb_gt; lia).
  cbn [mem set_mem heap_end].
  assert (El : load64 (store64 (mem s) (addr c) (r + 1)) (addr c) = r + 1).
  { rewrite load64_store64_same. apply wrap_small. lia. }
  splits.
  - rewrite El. unfold PAYLOAD_MASK. rewrite payload_mask_val.
    apply (enc_range_payload (mkBlock (addr c) r false)); unfold enc; simpl; [assumption | lia].
  - lia.
  - intros x Hx. apply store64_other. lia.
  - intros bl' (_ & _ & HL'). cbn [mem set_mem heap_end segment_start] in HL'.
    destruct (layout_sync (mem s) _ k1 _ bl' c [] _ HL HL') as [c' [Hc' Ec']].
    { intros b Hb. apply load64_store64_other.
      destruct (layout_in _ _ _ _ _ HA Hb) as (_ & Hn' & _ & _ & Sb).
      unfold next_addr in Hn'. lia. }
    destruct (layout_in _ _ _ _ _ HL' Hc') as (_ & _ & L1 & L2 & L3).
    rewrite Ec', El in L1.
    assert (Es : size c' = r).
    { apply (enc_decode c' (mkBlock (addr c) r false)); try assumption.
      rewrite <- L1. reflexivity. }
    destruct (layout_next _ _ _ _ _ HL' Hc') as [z [Hz Ez]].
    { unfold next_addr. lia. }
    destruct (layout_in _ _ _ _ _ HL' Hz) as (_ & Z2 & Z3 & Z4 & Z5).
    unfold next_addr in *.
    rewrite load64_store64_other in Z3 by lia.
    replace (heap_end s - 8) with (addr z) by lia.
    rewrite Z3. unfold enc. destruct (is_free z); lia.
Qed.

End ImplicitMore.

Section ImplicitOps.
Import Implicit.

Lemma find_before {A} (f : A -> bool) l1 x l2 :
  f x = true -> exists c, find f (l1 ++ x :: l2) = Some c /\ (In c l1 \/ c = x).
Proof.
  intros Hx. induction l1 as [|y l1 IH]; simpl.
  - rewrite Hx. exists x. auto.
  - destruct (f y) eqn:E.
    + exists y. auto.
    + destruct IH as [c [E1 E2]]. exists c. split; [exact E1 | tauto].
Qed.

(** The implicit [myfree] on a used block of a well-formed heap. *)
Lemma imyfree_wf s l1 b l2 :
  iheap s (l1 ++ b :: l2) -> is_free b = false ->
  iheap (myfree s (addr b + 8)) (l1 ++ mkBlock (addr b) (size b) true :: l2)
  /\ forall x, x < addr b \/ addr b + 8 <= x -> mem (myfree s (addr b + 8)) x = mem s x.
Proof.
  intros HI Fb. pose proof (in_mid l1 b l2) as Hb.
  destruct (iheap_block _ _ _ HI Hb) as (B1 & B2 & B3 & B4 & B5).
  destruct HI as (I1 & I2 & HL).
  pose proof (layout_mid _ _ _ _ _ _ HL) as (HA & _ & HE).
  pose proof (layout_le _ _ _ _ HA) as LA.
  unfold myfree, next_addr, ALIGNMENT in *.
  replace (addr b + 8 =? 0) with false by (symmetry; apply Z.eqb_neq; lia).
  replace (addr b + 8 - 8) with (addr b) by lia.
  rewrite (wrap_small (addr b)) by lia.
  assert (Ev : wrap (load64 (mem s) (addr b) - 1) = size b).
  { rewrite B5. unfold enc. rewrite Fb. rewrite wrap_small; lia. }
  rewrite Ev.
  split.
  - unfold iheap. splits; try assumption. simpl.
    apply layout_app. exists (addr b). split.
    + apply layout_store; [exact HA | right; lia].
    + change (mkBlock (addr b) (size b) true :: l2)
        with ([mkBlock (addr b) (size b) true] ++ l2).
      apply layout_app. exists (addr b + 8 + size b). split.
      * cbn [layout addr size]. splits; try reflexivity; try assumption.
        rewrite load64_store64_same. unfold enc. simpl.
        rewrite Z.add_0_r. apply wrap_small. lia.
      * apply layout_store; [exact HE | left; lia].
  - intros x Hx. simpl. apply store64_other. lia.
Qed.

(** X25 (the implicit [myrealloc] always moves the block).  On a well-formed implicit heap, when [myrealloc p n] of a used block with
    [n > 0] returns, the pointer returned is never [p] and never null: it is
    the payload pointer of a block that was free, and the block of [p] is
    marked free afterwards.  There is no resize in place, even to a smaller
    size. *)
Theorem implicit_realloc_always_moves s bl p n fuel s' p' :
  iheap s bl -> In p (used_ptrs bl) -> 0 < n < 2 ^ 64 ->
  myrealloc fuel s p n = Done (s', p') ->
  p' <> p /\ p' <> 0
  /\ In p' (map (fun c => addr c + ALIGNMENT) (filter is_free bl))
  /\ Z.land (load64 (mem s') (p - ALIGNMENT)) FREE_MASK = 0.
Proof.
  intros HI Hp Hn E.
  apply in_used_ptrs in Hp. destruct Hp as [b (Hb & <- & Fb)].
  destruct (iheap_block _ _ _ HI Hb) as (B1 & B2 & B3 & B4 & B5).
  unfold myrealloc in E.
  replace (addr b + 8 =? 0) with false in E by (symmetry; apply Z.eqb_neq; lia).
  cbn [negb andb] in E.
  replace (n =? 0) with false in E by (symmetry; apply Z.eqb_neq; lia).
  destruct (mymalloc fuel s n) as [[s1 q]|] eqn:EM; [|discriminate].
  destruct (memcpy (mem s1) q (addr b + 8) n) as [m2|] eqn:EC; [|discriminate].
  destruct (q =? 0) eqn:Eq; [discriminate|]. apply Z.eqb_neq in Eq.
  inversion E; subst s' p'; clear E.
  destruct (imymalloc_result _ _ _ _ _ _ HI Hn EM Eq)
    as [k1 [c [k2 (Ebl & _ & Fc & Hfit & -> & ->)]]].
  assert (Hc : In c bl) by (rewrite Ebl; apply in_mid).
  assert (Hcb : b <> c) by (intros ->; congruence).
  assert (Sep : next_addr b <= addr c \/ next_addr c <= addr b).
  { destruct (layout_sep _ _ _ _ _ _ (proj2 (proj2 HI)) Hb Hc) as [|[|]];
      [contradiction | tauto | tauto]. }
  destruct (iheap_block _ _ _ HI Hc) as (C1 & C2 & C3 & C4 & C5).
  unfold next_addr, ALIGNMENT in *.
  splits; try lia.
  - apply in_map_iff. exists c. split; [reflexivity|]. apply filter_In. auto.
  - unfold myfree.
    replace (addr b + 8 =? 0) with false by (symmetry; apply Z.eqb_neq; lia).
    unfold ALIGNMENT. replace (addr b + 8 - 8) with (addr b) by lia.
    rewrite (wrap_small (addr b)) by lia. cbn [mem set_mem].
    rewrite load64_store64_same.
    set (v := load64 m2 (addr b)).
    assert (Ev : v = size b + 1).
    { unfold v. unfold memcpy in EC.
      destruct ((addr c + 8 + n <=? 2 ^ 64) && (addr b + 8 + n <=? 2 ^ 64)) eqn:Er;
        [|discriminate].
      apply andb_prop in Er. destruct Er as [Er1 Er2].
      apply Z.leb_le in Er1. apply Z.leb_le in Er2.
      inversion EC; subst m2; clear EC.
      pose proof (iroundup_ge n ltac:(lia)) as Hge. unfold ALIGNMENT in Hge.
      transitivity (load64 (mem s) (addr b)); [|rewrite B5; unfold enc; rewrite Fb; simpl; lia].
      apply load64_ext. intros i Hi.
      replace ((addr c + 8 <=? addr b + i) && (addr b + i <? addr c + 8 + n)) with false
        by (symmetry; apply andb_false_iff; rewrite Z.leb_gt, Z.ltb_ge; lia).
      unfold itake.
      repeat match goal with |- context [if ?t then _ else _] => destruct t eqn:?Et end;
        simpl; rewrite ?store64_other; try reflexivity; try lia. }
    rewrite Ev. replace (size b + 1 - 1) with (size b) by lia.
    rewrite (wrap_small (size b)) by lia. rewrite wrap_small by lia.
    unfold FREE_MASK. rewrite land_free_mask by lia. exact B4.
Qed.

(** A heap walked by [validate_heap]. *)
Lemma ivalidate_layout s bl :
  iheap s bl ->
  forall l2 l1 fuel a,
    bl = l1 ++ l2 -> layout (mem s) a l2 (heap_end s) ->
    (length l2 <= fuel)%nat ->
    validate_heap fuel s a = Some true
    /\ dump_heap fuel s a = Some (map (fun b => (addr b, enc b, size b)) l2).
Proof.
  intros HI. induction l2 as [|b l2 IH]; intros l1 fuel a Ebl HL Hf.
  - simpl in HL. subst a. destruct fuel; simpl; rewrite Z.eqb_refl; auto.
  - assert (Hb : In b bl) by (subst bl; apply in_mid).
    destruct (iheap_block _ _ _ HI Hb) as (B1 & B2 & B3 & B4 & B5).
    destruct (iheap_header _ _ _ HI Hb) as [P1 _].
    pose proof HL as (Ea & _ & _ & HL'). subst a.
    pose proof (layout_le _ _ _ _ HL') as Hle.
    destruct fuel; [simpl in Hf; lia|]. simpl in Hf.
    cbn [validate_heap dump_heap map]. unfold next_addr, ALIGNMENT in *.
    replace (addr b =? heap_end s) with false by (symmetry; apply Z.eqb_neq; lia).
    replace (heap_end s <? addr b) with false by (symmetry; apply Z.ltb_ge; lia).
    rewrite P1, B5. rewrite (wrap_small (addr b + (size b + 8))) by lia.
    replace (addr b + (size b + 8)) with (addr b + 8 + size b) by lia.
    destruct (IH (l1 ++ [b]) fuel (addr b + 8 + size b)) as [V D].
    + rewrite <- app_assoc. exact Ebl.
    + exact HL'.
    + lia.
    + rewrite V, D. auto.
Qed.

(** X26 ([validate_heap] and [dump_heap] on a well-formed heap).  On a well-formed implicit heap, with one step of fuel per block,
    [validate_heap] returns true, [dump_heap] prints one line per block with
    its address, header word and payload size, and the payload sizes, each
    with one header added, sum to the size of the region. *)
Theorem implicit_walks s bl :
  iheap s bl ->
  validate_heap (length bl) s (segment_start s) = Some true
  /\ dump_heap (length bl) s (segment_start s)
     = Some (map (fun b => (addr b, enc b, size b)) bl)
  /\ fold_right (fun b acc => size b + ALIGNMENT + acc) 0 bl
     = heap_end s - segment_start s.
Proof.
  intros HI.
  destruct (ivalidate_layout s bl HI bl [] (length bl) (segment_start s) eq_refl
              (proj2 (proj2 HI)) (Nat.le_refl _)) as [V D].
  splits; [exact V | exact D |].
  pose proof (layout_total _ _ _ _ (proj2 (proj2 HI))) as T. unfold total_size in T.
  unfold ALIGNMENT. lia.
Qed.

(** X27 (a request no larger than a block just released succeeds).  On a well-formed implicit heap, after [myfree p] of a used block, a
    request with [n > 0] whose rounded size is no larger than the payload of
    that block succeeds, and the pointer returned is at or before [p]. *)
Theorem implicit_free_then_malloc s bl p n fuel :
  iheap s bl -> In p (used_ptrs bl) -> 0 < n < 2 ^ 64 ->
  roundup n ALIGNMENT <= Z.land (load64 (mem s) (p - ALIGNMENT)) PAYLOAD_MASK ->
  (length bl <= fuel)%nat ->
  exists s' q, mymalloc fuel (myfree s p) n = Some (s', q) /\ 0 < q <= p.
Proof.
  intros HI Hp Hn Hfit Hf.
  apply in_used_ptrs in Hp. destruct Hp as [b (Hb & <- & Fb)].
  unfold ALIGNMENT in Hfit. replace (addr b + 8 - 8) with (addr b) in Hfit by lia.
  rewrite (proj1 (iheap_header _ _ _ HI Hb)) in Hfit.
  destruct (in_split _ _ Hb) as [l1 [l2 ->]].
  destruct (imyfree_wf _ _ _ _ HI Fb) as [W' _].
  set (fb := mkBlock (addr b) (size b) true) in *.
  assert (Hfb : fits (roundup n ALIGNMENT) fb = true).
  { unfold fits. simpl. apply Z.leb_le. unfold ALIGNMENT. exact Hfit. }
  destruct (find_before (fits (roundup n ALIGNMENT)) l1 fb l2 Hfb) as [c [Ef Hc]].
  assert (Hlen : (length (l1 ++ fb :: l2) <= fuel)%nat).
  { rewrite length_app in *. simpl in *. exact Hf. }
  pose proof (malloc_loop_first_fit _ _ (roundup n ALIGNMENT) W'
                (proj1 (iroundup_props n ltac:(lia))) _ [] fuel
                (segment_start (myfree s (addr b + 8))) eq_refl
                (proj2 (proj2 W')) Hlen) as F.
  rewrite Ef in F. destruct F as [k1 [k2 (_ & _ & _ & _ & E)]].
  eexists _, (addr c + ALIGNMENT). split.
  { unfold mymalloc. replace (n =? 0) with false by (symmetry; apply Z.eqb_neq; lia).
    exact E. }
  assert (Hcin : In c (l1 ++ fb :: l2)).
  { destruct Hc as [Hc | ->]; [apply in_or_app; left; exact Hc | apply in_mid]. }
  destruct (iheap_block _ _ _ W' Hcin) as (C1 & _ & C3 & _).
  pose proof (layout_mid _ _ _ _ _ _ (proj2 (proj2 W'))) as (HA & _).
  unfold ALIGNMENT. destruct Hc as [Hc | ->]; [|unfold fb in *; simpl in *; lia].
  destruct (layout_in _ _ _ _ _ HA Hc) as (_ & Hn' & _).
  unfold next_addr in Hn'. unfold fb in Hn'. simpl in Hn'. lia.
Qed.

(** X28 (the implicit [mymalloc] leaves the used blocks alone).  On a well-formed implicit heap, whatever [mymalloc] returns, every used
    block keeps its header word and every byte of its payload. *)
Theorem implicit_mymalloc_keeps_data s bl n fuel s' p q :
  iheap s bl -> 0 <= n < 2 ^ 64 ->
  mymalloc fuel s n = Some (s', p) -> In q (used_ptrs bl) ->
  load64 (mem s') (q - ALIGNMENT) = load64 (mem s) (q - ALIGNMENT)
  /\ forall i, 0 <= i < Z.land (load64 (mem s) (q - ALIGNMENT)) PAYLOAD_MASK ->
       mem s' (q + i) = mem s (q + i).
Proof.
  intros HI Hn E Hq.
  apply in_used_ptrs in Hq. destruct Hq as [b (Hb & <- & Fb)].
  unfold ALIGNMENT. replace (addr b + 8 - 8) with (addr b) by lia.
  rewrite (proj1 (iheap_header _ _ _ HI Hb)).
  destruct (iheap_block _ _ _ HI Hb) as (B1 & B2 & B3 & B4 & B5).
  unfold mymalloc in E. destruct (n =? 0).
  { inversion E; subst. auto. }
  destruct (malloc_loop_spec s bl (roundup n ALIGNMENT) HI
              (proj1 (proj1 (iroundup_props n Hn)))
              bl [] fuel (segment_start s) s' p eq_refl (proj2 (proj2 HI)) E)
    as [[-> _] | [c (Hc & Fc & _ & _ & _ & _ & Fr)]]; [auto|].
  assert (Hcb : b <> c) by (intros ->; congruence).
  assert (Sep : next_addr b <= addr c \/ next_addr c <= addr b).
  { destruct (layout_sep _ _ _ _ _ _ (proj2 (proj2 HI)) Hb Hc) as [|[|]];
      [contradiction | tauto | tauto]. }
  destruct (iheap_block _ _ _ HI Hc) as (C1 & C2 & C3 & C4 & C5).
  unfold next_addr in *. split.
  - apply load64_ext. intros i Hi. apply Fr. lia.
  - intros i Hi. apply Fr. lia.
Qed.

(** X29 (the implicit [myrealloc] leaves the other used blocks alone).  On a well-formed implicit heap, when [myrealloc] of a used block
    returns, every other used block keeps its header word and every byte of
    its payload. *)
Theorem implicit_realloc_keeps_other_data s bl p n fuel s' p' q :
  iheap s bl -> In p (used_ptrs bl) -> 0 <= n < 2 ^ 64 ->
  myrealloc fuel s p n = Done (s', p') ->
  In q (used_ptrs bl) -> q <> p ->
  load64 (mem s') (q - ALIGNMENT) = load64 (mem s) (q - ALIGNMENT)
  /\ forall i, 0 <= i < Z.land (load64 (mem s) (q - ALIGNMENT)) PAYLOAD_MASK ->
       mem s' (q + i) = mem s (q + i).
Proof.
  intros HI Hp Hn E Hq Hne.
  apply in_used_ptrs in Hp. destruct Hp as [b (Hb & <- & Fb)].
  apply in_used_ptrs in Hq. destruct Hq as [d (Hd & <- & Fd)].
  destruct (iheap_block _ _ _ HI Hb) as (B1 & B2 & B3 & B4 & B5).
  destruct (iheap_block _ _ _ HI Hd) as (D1 & D2 & D3 & D4 & D5).
  assert (Hdb : d <> b) by (intros ->; apply Hne; reflexivity).
  assert (Sdb : next_addr d <= addr b \/ next_addr b <= addr d).
  { destruct (layout_sep _ _ _ _ _ _ (proj2 (proj2 HI)) Hd Hb) as [|[|]];
      [contradiction | tauto | tauto]. }
  unfold ALIGNMENT. replace (addr d + 8 - 8) with (addr d) by lia.
  rewrite (proj1 (iheap_header _ _ _ HI Hd)).
  assert (K : forall x, addr d <= x < addr d + 8 + size d -> mem s' x = mem s x).
  { intros x Hx. unfold myrealloc in E.
    replace (addr b + 8 =? 0) with false in E by (symmetry; apply Z.eqb_neq; lia).
    cbn [negb andb] in E.
    destruct (n =? 0) eqn:En.
    { inversion E; subst s' p'.
      destruct (in_split _ _ Hb) as [l1 [l2 Ebl]]. rewrite Ebl in HI.
      destruct (imyfree_wf _ _ _ _ HI Fb) as [_ Fr]. apply Fr.
      unfold next_addr in *. lia. }
    apply Z.eqb_neq in En.
    destruct (mymalloc fuel s n) as [[s1 r]|] eqn:EM; [|discriminate].
    destruct (memcpy (mem s1) r (addr b + 8) n) as [m2|] eqn:EC; [|discriminate].
    destruct (r =? 0) eqn:Eq; [discriminate|]. apply Z.eqb_neq in Eq.
    inversion E; subst s' p'; clear E.
    unfold memcpy in EC.
    destruct ((r + n <=? 2 ^ 64) && (addr b + 8 + n <=? 2 ^ 64)) eqn:Er; [|discriminate].
    apply andb_prop in Er. destruct Er as [Er1 Er2].
    apply Z.leb_le in Er1. apply Z.leb_le in Er2.
    inversion EC; subst m2; clear EC.
    unfold mymalloc in EM.
    replace (n =? 0) with false in EM by (symmetry; apply Z.eqb_neq; lia).
    pose proof (iroundup_ge n ltac:(lia)) as Hround.
    destruct (malloc_loop_spec s bl (roundup n ALIGNMENT) HI
                (proj1 (proj1 (iroundup_props n Hn)))
                bl [] fuel (segment_start s) s1 r eq_refl (proj2 (proj2 HI)) EM)
      as [[_ Hq] | [c (Hc & Fc & Sc & Hq & _ & _ & Fr)]]; [contradiction|].
    subst r.
    destruct (iheap_block _ _ _ HI Hc) as (C1 & C2 & C3 & C4 & C5).
    assert (Hdc : d <> c) by (intros ->; congruence).
    assert (Sdc : next_addr d <= addr c \/ next_addr c <= addr d).
    { destruct (layout_sep _ _ _ _ _ _ (proj2 (proj2 HI)) Hd Hc) as [|[|]];
        [contradiction | tauto | tauto]. }
    unfold myfree, next_addr, ALIGNMENT in *.
    replace (addr b + 8 =? 0) with false by (symmetry; apply Z.eqb_neq; lia).
    replace (addr b + 8 - 8) with (addr b) by lia.
    rewrite (wrap_small (addr b)) by lia. simpl.
    rewrite store64_other by lia.
    replace ((addr c + 8 <=? x) && (x <? addr c + 8 + n)) with false
      by (symmetry; apply andb_false_iff; rewrite Z.leb_gt, Z.ltb_ge; lia).
    apply Fr. lia. }
  split.
  - apply load64_ext. intros i Hi. apply K. lia.
  - intros i Hi. apply K. lia.
Qed.

End ImplicitOps.

Section ExplicitDump.
Import Explicit.

Lemma dump_heap_layout s bl fl :
  heap_pre s bl fl ->
  forall l2 l1 fuel a,
    bl = l1 ++ l2 -> layout (mem s) a l2 (heap_end s) ->
    (length l2 <= fuel)%nat ->
    dump_heap fuel s a = Some (map (fun b => (addr b, size b, is_free b)) l2).
Proof.
  intros H. induction l2 as [|b l2 IH]; intros l1 fuel a Ebl HL Hf.
  - simpl in HL. subst a. simpl. destruct fuel; simpl; rewrite Z.eqb_refl; reflexivity.
  - assert (Hb : In b bl) by (subst bl; apply in_mid).
    destruct (pre_block _ _ _ _ H Hb) as (B1 & B2 & B3 & B4 & B5 & B6 & B7).
    pose proof (block_get_payload _ _ _ _ H Hb) as P.
    pose proof (block_check_free _ _ _ _ H Hb) as C.
    pose proof HL as (Ea & _ & _ & HL'). subst a.
    destruct fuel; [simpl in Hf; lia|]. simpl in Hf.
    cbn [dump_heap map]. unfold next_addr, ALIGNMENT in *.
    replace (addr b =? heap_end s) with false by (symmetry; apply Z.eqb_neq; lia).
    rewrite P, C. rewrite (wrap_small (addr b + (size b + 8))) by lia.
    replace (addr b + (size b + 8)) with (addr b + 8 + size b) by lia.
    rewrite (IH (l1 ++ [b]) fuel _); try lia.
    + reflexivity.
    + rewrite <- app_assoc. exact Ebl.
    + exact HL'.
Qed.

(** X14 (what [dump_heap] prints).  In every reachable state [dump_heap] ends, having printed one line per
    block: the payload sizes printed, each with one header added, sum to
    [segment_size]; the lines marked used are exactly those of the blocks the
    caller owns; and every line shows the payload size and the status of its
    block, the size being at least 16 and a multiple of 8. *)
Theorem dump_heap_rows max s live :
  reachable max s live ->
  exists rows,
    dump_heap (length rows) s (segment_start s) = Some rows
    /\ fold_right (fun row acc => snd (fst row) + ALIGNMENT + acc) 0 rows
       = segment_size s
    /\ (forall p, In p live <-> exists pv, In (p - ALIGNMENT, pv, false) rows)
    /\ (forall a pv fr, In (a, pv, fr) rows ->
          pv = get_payload s a /\ fr = check_free s a
          /\ 16 <= pv /\ pv mod ALIGNMENT = 0).
Proof.
  intros R. destruct (reachable_inv _ _ _ R) as [bl [fl [W Hlive]]].
  pose proof W as [H _].
  exists (map (fun b => (addr b, size b, is_free b)) bl). rewrite length_map. splits.
  - apply (dump_heap_layout s bl fl H bl []); [reflexivity | | lia].
    exact (pre_layout _ _ _ H).
  - pose proof (layout_total _ _ _ _ (pre_layout _ _ _ H)) as Tot.
    pose proof (pre_size _ _ _ H) as Sz.
    assert (E : forall l, fold_right (fun row acc => snd (fst row) + ALIGNMENT + acc) 0
                            (map (fun b => (addr b, size b, is_free b)) l)
                          = total_size l).
    { induction l as [|b l IH]; [reflexivity|]. simpl. rewrite IH.
      unfold ALIGNMENT. lia. }
    rewrite E. lia.
  - intros p. rewrite Hlive, in_used_ptrs. unfold ALIGNMENT. split.
    + intros [b (Hb & <- & Fb)]. exists (size b). apply in_map_iff.
      exists b. split; [|exact Hb]. rewrite Fb. f_equal. f_equal. lia.
    + intros [pv Hin]. apply in_map_iff in Hin. destruct Hin as [b [E Hb]].
      inversion E. exists b. splits; [exact Hb | lia | reflexivity].
  - intros a pv fr Hin. apply in_map_iff in Hin. destruct Hin as [b [E Hb]].
    inversion E; subst.
    destruct (pre_block _ _ _ _ H Hb) as (_ & _ & _ & _ & B5 & B6 & _).
    rewrite (block_get_payload _ _ _ _ H Hb), (block_check_free _ _ _ _ H Hb). auto.
Qed.

(** X15 (a size within seven bytes of the top of the range wraps around).  For a size above [2^64 - 8] the sum in [roundup] wraps around: the
    explicit [roundup] gives 16 and [mymalloc] serves the request exactly as a
    request of 16 bytes, the test against [MAX_REQUEST_SIZE] being made on the
    rounded size; the implicit [roundup] gives 0. *)
Theorem mymalloc_oversize_wraps max fuel s n :
  2 ^ 64 - 8 < n < 2 ^ 64 ->
  roundup n ALIGNMENT = 16
  /\ mymalloc max fuel s n = mymalloc max fuel s 16
  /\ Implicit.roundup n ALIGNMENT = 0.
Proof.
  intros Hn.
  assert (Hw : wrap (n + 7) = n + 7 - 2 ^ 64).
  { unfold wrap. symmetry. apply (Z.mod_unique _ _ 1); lia. }
  assert (Hm : 0 <= wrap (n + 7) < 8) by (rewrite Hw; lia).
  assert (E1 : roundup n ALIGNMENT = 16).
  { rewrite roundup_eq by lia. rewrite (Z.mod_small (wrap (n + 7)) 8) by lia. lia. }
  assert (E2 : roundup 16 ALIGNMENT = 16) by reflexivity.
  splits.
  - exact E1.
  - unfold mymalloc. rewrite E1, E2. reflexivity.
  - rewrite iroundup_eq by lia. rewrite (Z.mod_small (wrap (n + 7)) 8) by lia. lia.
Qed.

(** X16 (rounding twice changes nothing; rounding keeps the order).  For sizes up to [2^64 - 8], in both variants, rounding a rounded size
    gives the same size, and a larger size never rounds to a smaller one. *)
Theorem roundup_idempotent_monotone n m :
  0 <= n <= m -> m <= 2 ^ 64 - 8 ->
  roundup (roundup n 8) 8 = roundup n 8
  /\ roundup n 8 <= roundup m 8
  /\ Implicit.roundup (Implicit.roundup n 8) 8 = Implicit.roundup n 8
  /\ Implicit.roundup n 8 <= Implicit.roundup m 8.
Proof.
  intros Hn Hm.
  pose proof (Z.div_le_mono (n + 7) (m + 7) 8 ltac:(lia) ltac:(lia)) as Hd.
  pose proof (Z.div_mod (n + 7) 8 ltac:(lia)) as Dn.
  pose proof (Z.mod_pos_bound (n + 7) 8 ltac:(lia)) as Mn.
  assert (Hk : (8 * ((n + 7) / 8) + 7) / 8 = (n + 7) / 8).
  { symmetry. apply (Z.div_unique _ 8 _ 7); lia. }
  rewrite (roundup_explicit_small n), (roundup_explicit_small m) by lia.
  rewrite (roundup_implicit_small n), (roundup_implicit_small m) by lia.
  splits.
  - rewrite roundup_explicit_small by lia.
    destruct (Z.max_spec 16 (8 * ((n + 7) / 8))) as [[Hlt ->] | [Hge ->]].
    + rewrite Hk. lia.
    + reflexivity.
  - lia.
  - rewrite roundup_implicit_small by lia. rewrite Hk. reflexivity.
  - lia.
Qed.

(** X17 (the header word: payload size and status).  For a payload size [v] that is a multiple of 8 below [2^64 - 8]: a
    header holding [v + 1] reads back as payload [v], used; a header holding
    [v] reads back as payload [v], free (for a block that is not the null
    pointer). *)
Theorem header_round_trip s h v :
  0 <= v < 2 ^ 64 - 8 -> v mod ALIGNMENT = 0 ->
  get_payload (set_payload s h (v + 1)) h = v
  /\ check_free (set_payload s h (v + 1)) h = false
  /\ get_payload (set_payload s h v) h = v
  /\ (h <> 0 -> check_free (set_payload s h v) h = true).
Proof.
  intros Hv Hm. unfold ALIGNMENT in Hm.
  unfold get_payload, check_free, payload_field, set_payload. cbn [mem set_mem].
  rewrite !load64_store64_same, !wrap_small by lia.
  unfold PAYLOAD_MASK, FREE_MASK. rewrite payload_mask_val.
  pose proof (enc_range_payload (mkBlock h v false) Hm) as P1.
  pose proof (enc_range_payload (mkBlock h v true) Hm) as P2.
  pose proof (enc_range_free (mkBlock h v false) Hm) as F1.
  pose proof (enc_range_free (mkBlock h v true) Hm) as F2.
  unfold enc in *. simpl in *. rewrite Z.add_0_r in *.
  splits.
  - apply P1. lia.
  - destruct (h =? 0); [reflexivity | apply F1; lia].
  - apply P2. lia.
  - intros Hh. replace (h =? 0) with false by (symmetry; apply Z.eqb_neq; exact Hh).
    apply F2. lia.
Qed.

(** X18 (pushing a node on the free list and unlinking it again).  On a well-formed doubly-linked free list, [add_freelist] of a node that
    is not on it puts the node in front, the others following in their order;
    and [remove_freelist] of that node then gives back the list as it was. *)
Theorem freelist_add_remove s fl x :
  lseg (mem s) 0 (freelist_start s) fl 0 ->
  0 < x < 2 ^ 64 -> 0 <= freelist_start s < 2 ^ 64 ->
  NoDup (x :: fl) -> spaced (x :: fl) ->
  freelist_nodes (S (length fl)) (add_freelist s x) (freelist_start (add_freelist s x))
  = Some (x :: fl)
  /\ freelist_nodes (length fl) (remove_freelist (add_freelist s x) x)
       (freelist_start (remove_freelist (add_freelist s x) x))
     = Some fl.
Proof.
  intros L Hx Hh ND SP.
  destruct (add_freelist_lseg s fl x L Hx Hh ND SP) as [L1 _].
  split.
  - apply (freelist_nodes_lseg _ (x :: fl) 0); [exact L1 | simpl; lia].
  - destruct (remove_freelist_lseg (add_freelist s x) [] x fl L1 ND SP) as [L2 _].
    apply (freelist_nodes_lseg _ fl 0); [exact L2 | lia].
Qed.

(** X19 (unlinking any node of the free list).  On a well-formed doubly-linked free list, [remove_freelist] of any of its
    nodes leaves the other nodes in their order, and writes only into link
    fields of the nodes that remain. *)
Theorem freelist_remove_any s l1 y l2 :
  lseg (mem s) 0 (freelist_start s) (l1 ++ y :: l2) 0 ->
  NoDup (l1 ++ y :: l2) -> spaced (l1 ++ y :: l2) ->
  freelist_nodes (length (l1 ++ l2)) (remove_freelist s y)
    (freelist_start (remove_freelist s y))
  = Some (l1 ++ l2)
  /\ forall a, (forall z, In z (l1 ++ l2) -> a < z + 8 \/ z + 24 <= a) ->
       mem (remove_freelist s y) a = mem s a.
Proof.
  intros L ND SP.
  destruct (remove_freelist_lseg s l1 y l2 L ND SP) as [L2 F].
  split; [|exact F].
  apply (freelist_nodes_lseg _ (l1 ++ l2) 0); [exact L2 | lia].
Qed.

End ExplicitDump.

Lemma some_eta {S : Type} (d : S) (o : option (S * Z)) :
  returns o = true -> o = Some (some_fst d o, some_snd o).
Proof. destruct o as [[s p]|]; simpl; intros H; [reflexivity | discriminate H]. Qed.

Lemma iheap32_wf : iheap iheap32 iheap32_blocks.
Proof.
  unfold iheap, iheap32_blocks. splits.
  - vm_compute. reflexivity.
  - vm_compute. intro H. discriminate H.
  - cbn [layout addr size is_free enc]. splits; vm_compute; reflexivity.
Qed.

Lemma size_16 : 0 <= 16 < 2 ^ 64.
Proof. split; [intro H; discriminate H | reflexivity]. Qed.

Lemma size_40 : 0 <= 40 < 2 ^ 64.
Proof. split; [intro H; discriminate H | reflexivity]. Qed.

Lemma live_two_16 : In 16 (live_of heap128_two).
Proof. vm_compute. right. left. reflexivity. Qed.

Lemma live_two_40 : In 40 (live_of heap128_two).
Proof. vm_compute. left. reflexivity. Qed.

Lemma live_wide_16 : In 16 (live_of heap128_wide).
Proof. vm_compute. right. left. reflexivity. Qed.

Lemma live_blocks_disjoint_witness :
  16 + Explicit.get_payload (state_of heap128_two) (16 - ALIGNMENT) <= 40 - ALIGNMENT
  \/ 40 + Explicit.get_payload (state_of heap128_two) (40 - ALIGNMENT) <= 16 - ALIGNMENT.
Proof.
  apply (live_blocks_disjoint example_max _ (live_of heap128_two) 16 40 reach_heap128_two).
  - exact live_two_16.
  - exact live_two_40.
  - intro H. discriminate H.
Defined.

Lemma live_pointer_block_witness :
  Explicit.check_free (state_of heap128_two) (40 - ALIGNMENT) = false.
Proof.
  pose proof live_two_40 as Hin.
  destruct (live_pointer_block example_max _ _ 40 reach_heap128_two Hin)
    as (_ & _ & _ & _ & _ & _ & H).
  exact H.
Defined.

Lemma mymalloc_first_fit_witness :
  exists nodes,
    freelist_nodes (length nodes) (state_of heap128_busy)
      (Explicit.freelist_start (state_of heap128_busy)) = Some nodes.
Proof.
  destruct (mymalloc_first_fit example_max _ _ 16 reach_heap128_busy size_16)
    as [nodes [H _]].
  exists nodes. exact H.
Defined.

Lemma mymalloc_block_fresh_witness :
  ~ In (some_snd (Explicit.mymalloc example_max 8 (state_of heap128_two) 16))
       (live_of heap128_two).
Proof.
  assert (Hn : 0 <= 16 <= 2 ^ 64 - 8) by (split; intro H; discriminate H).
  assert (E : Explicit.mymalloc example_max 8 (state_of heap128_two) 16
              = Some (some_fst blank (Explicit.mymalloc example_max 8 (state_of heap128_two) 16),
                      some_snd (Explicit.mymalloc example_max 8 (state_of heap128_two) 16)))
    by (apply some_eta; vm_compute; reflexivity).
  assert (Hp : some_snd (Explicit.mymalloc example_max 8 (state_of heap128_two) 16) <> 0)
    by (vm_compute; intro H; discriminate H).
  exact (proj1 (mymalloc_block_fresh example_max _ _ 8%nat 16 _ _ reach_heap128_two Hn E Hp)).
Defined.

Lemma mymalloc_keeps_live_data_witness :
  Explicit.mem (some_fst blank (Explicit.mymalloc example_max 8 (state_of heap128_two) 16))
               (16 + 3)
  = Explicit.mem (state_of heap128_two) (16 + 3).
Proof.
  assert (E : Explicit.mymalloc example_max 8 (state_of heap128_two) 16
              = Some (some_fst blank (Explicit.mymalloc example_max 8 (state_of heap128_two) 16),
                      some_snd (Explicit.mymalloc example_max 8 (state_of heap128_two) 16)))
    by (apply some_eta; vm_compute; reflexivity).
  pose proof live_two_16 as Hq.
  apply (proj2 (mymalloc_keeps_live_data example_max _ _ 8%nat 16 _ _ 16
                  reach_heap128_two size_16 E Hq)).
  vm_compute. split; [intro H; discriminate H | reflexivity].
Defined.

Lemma myfree_keeps_live_data_witness :
  Explicit.mem (Explicit.myfree (state_of heap128_two) 40) (16 + 3)
  = Explicit.mem (state_of heap128_two) (16 + 3).
Proof.
  pose proof live_two_40 as Hp.
  pose proof live_two_16 as Hq.
  assert (Hne : 16 <> 40) by (intro H; discriminate H).
  apply (proj2 (myfree_keeps_live_data example_max _ _ 40 16 reach_heap128_two Hp Hq Hne)).
  vm_compute. split; [intro H; discriminate H | reflexivity].
Defined.

Lemma myrealloc_keeps_other_data_witness :
  Explicit.get_payload
    (done_state blank (Explicit.myrealloc example_max 8 (state_of heap128_two) 40 64))
    (16 - ALIGNMENT)
  = Explicit.get_payload (state_of heap128_two) (16 - ALIGNMENT).
Proof.
  pose proof live_two_40 as Hp.
  pose proof live_two_16 as Hq.
  assert (Hne : 16 <> 40) by (intro H; discriminate H).
  assert (Hn : 0 <= 64 < 2 ^ 64) by (split; [intro H; discriminate H | reflexivity]).
  assert (E : Explicit.myrealloc example_max 8 (state_of heap128_two) 40 64
              = Done (done_state blank (Explicit.myrealloc example_max 8 (state_of heap128_two) 40 64),
                      done_ptr (Explicit.myrealloc example_max 8 (state_of heap128_two) 40 64)))
    by (apply done_eta; vm_compute; reflexivity).
  exact (proj1 (myrealloc_keeps_other_data example_max _ _ 8%nat 40 64 _ _ 16
                  reach_heap128_two Hp Hn E Hq Hne)).
Defined.

Lemma myrealloc_in_place_data_witness :
  Explicit.roundup 16 ALIGNMENT
  <= Explicit.get_payload
       (done_state blank (Explicit.myrealloc example_max 8 (state_of heap128_wide) 16 16))
       (16 - ALIGNMENT).
Proof.
  pose proof live_wide_16 as Hp.
  assert (Hn : 0 < 16 < 2 ^ 64) by (split; reflexivity).
  assert (E : Explicit.myrealloc example_max 8 (state_of heap128_wide) 16 16
              = Done (done_state blank (Explicit.myrealloc example_max 8 (state_of heap128_wide) 16 16),
                      done_ptr (Explicit.myrealloc example_max 8 (state_of heap128_wide) 16 16)))
    by (apply done_eta; vm_compute; reflexivity).
  assert (Eq : done_ptr (Explicit.myrealloc example_max 8 (state_of heap128_wide) 16 16) = 16)
    by (vm_compute; reflexivity).
  rewrite Eq in E.
  exact (proj1 (myrealloc_in_place_data example_max _ _ 8%nat 16 16 _
                  reach_heap128_wide Hp Hn E)).
Defined.

Lemma myrealloc_returns_nonnull_witness :
  exists fuel0, forall fuel, (fuel0 <= fuel)%nat ->
    Explicit.myrealloc example_max fuel (state_of heap128_two) 16 40 = Crash
    \/ exists s' p',
         Explicit.myrealloc example_max fuel (state_of heap128_two) 16 40 = Done (s', p')
         /\ p' <> 0.
Proof.
  pose proof live_two_16 as Hp.
  assert (Hn : 0 < 40 < 2 ^ 64) by (split; reflexivity).
  exact (myrealloc_returns_nonnull example_max _ _ 16 40 reach_heap128_two Hp Hn).
Defined.

Lemma myrealloc_fitting_stays_witness :
  exists s', Explicit.myrealloc example_max 1 (state_of heap128_wide) 16 16 = Done (s', 16).
Proof.
  pose proof live_wide_16 as Hp.
  assert (Hn : 0 < 16 < 2 ^ 64) by (split; reflexivity).
  assert (Hfit : Explicit.roundup 16 ALIGNMENT
                 <= Explicit.get_payload (state_of heap128_wide) (16 - ALIGNMENT))
    by (vm_compute; intro H; discriminate H).
  exact (myrealloc_fitting_stays example_max _ _ 16 16 0 reach_heap128_wide Hp Hn Hfit).
Defined.

Lemma free_then_malloc_reuses_witness :
  exists s',
    Explicit.mymalloc example_max 1 (Explicit.myfree (state_of heap128_two) 16) 16
    = Some (s', 16).
Proof.
  pose proof live_two_16 as Hp.
  assert (Hfit : Explicit.roundup 16 ALIGNMENT
                 <= Explicit.get_payload (state_of heap128_two) (16 - ALIGNMENT))
    by (vm_compute; intro H; discriminate H).
  assert (Hmax : Explicit.roundup 16 ALIGNMENT <= example_max)
    by (vm_compute; intro H; discriminate H).
  exact (proj2 (free_then_malloc_reuses example_max _ _ 16 16 0
                  reach_heap128_two Hp size_16 Hfit Hmax)).
Defined.

Lemma fresh_heap_first_malloc_witness :
  exists s0,
    Explicit.myinit blank 8 64 = (s0, true)
    /\ if (Explicit.roundup 40 ALIGNMENT <=? 64 - ALIGNMENT)
          && (Explicit.roundup 40 ALIGNMENT <=? example_max)
       then exists s', Explicit.mymalloc example_max 2 s0 40 = Some (s', 8 + ALIGNMENT)
       else Explicit.mymalloc example_max 2 s0 40 = Some (s0, 0).
Proof.
  assert (Hsz : ALIGNMENT * 3 <= 64) by (intro H; discriminate H).
  exact (fresh_heap_first_malloc example_max blank 8 64 40 0 valid_region_8_64 Hsz size_40).
Defined.

Lemma validate_heap_dead_tests_witness :
  forallb (fun x => Explicit.get_payload
                 (Explicit.set_mem (fst (Explicit.myinit blank 8 64)) (fun _ => 255)) x
               mod ALIGNMENT =? 0) [8; 16; 24] = true.
Proof.
  assert (Hs : 0 <= 8 < 2 ^ 64) by (split; [intro H; discriminate H | reflexivity]).
  assert (Hsz : ALIGNMENT * 3 <= 64 < 2 ^ 64) by (split; [intro H; discriminate H | reflexivity]).
  pose proof (proj1 (validate_heap_dead_tests blank 8 64 (fun _ => 255) 4 Hs Hsz)) as H.
  cbn [forallb]. rewrite !H. reflexivity.
Defined.

Lemma iused_16 : In 16 (used_ptrs iheap128_blocks).
Proof. simpl. left. reflexivity. Qed.

Lemma iused_40 : In 40 (used_ptrs iheap128_blocks).
Proof. simpl. right. left. reflexivity. Qed.

Lemma implicit_mymalloc_first_fit_witness :
  match find (fits (Implicit.roundup 16 ALIGNMENT)) iheap128_blocks with
  | None => Implicit.mymalloc 3 iheap128 16 = Some (iheap128, 0)
  | Some c => exists s', Implicit.mymalloc 3 iheap128 16 = Some (s', addr c + ALIGNMENT)
  end.
Proof.
  assert (Hn : 0 < 16 < 2 ^ 64) by (split; reflexivity).
  exact (implicit_mymalloc_first_fit iheap128 iheap128_blocks 16 3 iheap128_wf Hn (le_n 3)).
Defined.

Lemma implicit_mymalloc_keeps_heap_witness :
  exists bl', iheap (some_fst iblank (Implicit.mymalloc 8 iheap128 16)) bl'.
Proof.
  assert (Hn : 0 < 16 < 2 ^ 64) by (split; reflexivity).
  assert (E : Implicit.mymalloc 8 iheap128 16
              = Some (some_fst iblank (Implicit.mymalloc 8 iheap128 16),
                      some_snd (Implicit.mymalloc 8 iheap128 16)))
    by (apply some_eta; vm_compute; reflexivity).
  assert (Hp : some_snd (Implicit.mymalloc 8 iheap128 16) <> 0)
    by (vm_compute; intro H; discriminate H).
  assert (Hgap : ~ (some_snd (Implicit.mymalloc 8 iheap128 16)
                    + Z.land (load64 (Implicit.mem iheap128)
                                (some_snd (Implicit.mymalloc 8 iheap128 16) - ALIGNMENT))
                        Implicit.PAYLOAD_MASK
                    = Implicit.heap_end iheap128
                    /\ Z.land (load64 (Implicit.mem iheap128)
                                 (some_snd (Implicit.mymalloc 8 iheap128 16) - ALIGNMENT))
                         Implicit.PAYLOAD_MASK
                       = Implicit.roundup 16 ALIGNMENT + ALIGNMENT))
    by (vm_compute; intros [_ H]; discriminate H).
  destruct (implicit_mymalloc_keeps_heap iheap128 iheap128_blocks 16 8 _ _
              iheap128_wf Hn E Hp Hgap) as [bl' [H _]].
  exists bl'. exact H.
Defined.

Lemma implicit_mymalloc_tail_gap_witness :
  Z.land (load64 (Implicit.mem (some_fst iblank (Implicit.mymalloc 8 iheap32 16)))
            (some_snd (Implicit.mymalloc 8 iheap32 16) - ALIGNMENT))
         Implicit.PAYLOAD_MASK
  = Implicit.roundup 16 ALIGNMENT.
Proof.
  assert (Hn : 0 < 16 < 2 ^ 64) by (split; reflexivity).
  assert (E : Implicit.mymalloc 8 iheap32 16
              = Some (some_fst iblank (Implicit.mymalloc 8 iheap32 16),
                      some_snd (Implicit.mymalloc 8 iheap32 16)))
    by (apply some_eta; vm_compute; reflexivity).
  assert (Hp : some_snd (Implicit.mymalloc 8 iheap32 16) <> 0)
    by (vm_compute; intro H; discriminate H).
  assert (Hend : some_snd (Implicit.mymalloc 8 iheap32 16)
                 + Z.land (load64 (Implicit.mem iheap32)
                             (some_snd (Implicit.mymalloc 8 iheap32 16) - ALIGNMENT))
                     Implicit.PAYLOAD_MASK
                 = Implicit.heap_end iheap32)
    by (vm_compute; reflexivity).
  assert (Hsz : Z.land (load64 (Implicit.mem iheap32)
                          (some_snd (Implicit.mymalloc 8 iheap32 16) - ALIGNMENT))
                  Implicit.PAYLOAD_MASK
                = Implicit.roundup 16 ALIGNMENT + ALIGNMENT)
    by (vm_compute; reflexivity).
  exact (proj1 (implicit_mymalloc_tail_gap iheap32 iheap32_blocks 16 8 _ _
                  iheap32_wf Hn E Hp Hend Hsz)).
Defined.

Lemma implicit_realloc_always_moves_witness :
  done_ptr (Implicit.myrealloc 8 iheap128 16 40) <> 16.
Proof.
  assert (Hn : 0 < 40 < 2 ^ 64) by (split; reflexivity).
  assert (E : Implicit.myrealloc 8 iheap128 16 40
              = Done (done_state iblank (Implicit.myrealloc 8 iheap128 16 40),
                      done_ptr (Implicit.myrealloc 8 iheap128 16 40)))
    by (apply done_eta; vm_compute; reflexivity).
  exact (proj1 (implicit_realloc_always_moves iheap128 iheap128_blocks 16 40 8 _ _
                  iheap128_wf iused_16 Hn E)).
Defined.

Lemma implicit_walks_witness :
  Implicit.validate_heap (length iheap128_blocks) iheap128
    (Implicit.segment_start iheap128) = Some true.
Proof.
  exact (proj1 (implicit_walks iheap128 iheap128_blocks iheap128_wf)).
Defined.

Lemma implicit_free_then_malloc_witness :
  exists s' q,
    Implicit.mymalloc 3 (Implicit.myfree iheap128 16) 8 = Some (s', q) /\ 0 < q <= 16.
Proof.
  assert (Hn : 0 < 8 < 2 ^ 64) by (split; reflexivity).
  assert (Hfit : Implicit.roundup 8 ALIGNMENT
                 <= Z.land (load64 (Implicit.mem iheap128) (16 - ALIGNMENT))
                      Implicit.PAYLOAD_MASK)
    by (vm_compute; intro H; discriminate H).
  exact (implicit_free_then_malloc iheap128 iheap128_blocks 16 8 3
           iheap128_wf iused_16 Hn Hfit (le_n 3)).
Defined.

Lemma implicit_mymalloc_keeps_data_witness :
  load64 (Implicit.mem (some_fst iblank (Implicit.mymalloc 8 iheap128 16))) (16 - ALIGNMENT)
  = load64 (Implicit.mem iheap128) (16 - ALIGNMENT).
Proof.
  assert (E : Implicit.mymalloc 8 iheap128 16
              = Some (some_fst iblank (Implicit.mymalloc 8 iheap128 16),
                      some_snd (Implicit.mymalloc 8 iheap128 16)))
    by (apply some_eta; vm_compute; reflexivity).
  exact (proj1 (implicit_mymalloc_keeps_data iheap128 iheap128_blocks 16 8 _ _ 16
                  iheap128_wf size_16 E iused_16)).
Defined.

Lemma implicit_realloc_keeps_other_data_witness :
  load64 (Implicit.mem (done_state iblank (Implicit.myrealloc 8 iheap128 16 40)))
         (40 - ALIGNMENT)
  = load64 (Implicit.mem iheap128) (40 - ALIGNMENT).
Proof.
  assert (E : Implicit.myrealloc 8 iheap128 16 40
              = Done (done_state iblank (Implicit.myrealloc 8 iheap128 16 40),
                      done_ptr (Implicit.myrealloc 8 iheap128 16 40)))
    by (apply done_eta; vm_compute; reflexivity).
  assert (Hne : 40 <> 16) by (intro H; discriminate H).
  exact (proj1 (implicit_realloc_keeps_other_data iheap128 iheap128_blocks 16 40 8 _ _ 40
                  iheap128_wf iused_16 size_40 E iused_40 Hne)).
Defined.

Lemma dump_heap_rows_witness :
  exists rows,
    Explicit.dump_heap (length rows) (state_of heap128_busy)
      (Explicit.segment_start (state_of heap128_busy)) = Some rows.
Proof.
  destruct (dump_heap_rows example_max _ _ reach_heap128_busy) as [rows [H _]].
  exists rows. exact H.
Defined.

Lemma mymalloc_oversize_wraps_witness :
  Explicit.roundup (2 ^ 64 - 1) ALIGNMENT = 16.
Proof.
  assert (Hn : 2 ^ 64 - 8 < 2 ^ 64 - 1 < 2 ^ 64) by (split; reflexivity).
  exact (proj1 (mymalloc_oversize_wraps example_max 0 blank (2 ^ 64 - 1) Hn)).
Defined.

Lemma roundup_idempotent_monotone_witness :
  Explicit.roundup (Explicit.roundup 5 8) 8 = Explicit.roundup 5 8.
Proof.
  assert (Hn : 0 <= 5 <= 20) by (split; intro H; discriminate H).
  assert (Hm : 20 <= 2 ^ 64 - 8) by (intro H; discriminate H).
  exact (proj1 (roundup_idempotent_monotone 5 20 Hn Hm)).
Defined.

Lemma header_round_trip_witness :
  Explicit.get_payload (Explicit.set_payload blank 8 (16 + 1)) 8 = 16.
Proof.
  assert (Hv : 0 <= 16 < 2 ^ 64 - 8) by (split; [intro H; discriminate H | reflexivity]).
  assert (Hm : 16 mod ALIGNMENT = 0) by reflexivity.
  exact (proj1 (header_round_trip blank 8 16 Hv Hm)).
Defined.

Lemma spaced_two x y : x + 24 <= y -> spaced [x; y].
Proof.
  intros H a b Ha Hb. simpl in Ha, Hb.
  destruct Ha as [<- | [<- | []]]; destruct Hb as [<- | [<- | []]]; lia.
Qed.

Lemma nodup_two (x y : Z) : x <> y -> NoDup [x; y].
Proof.
  intros H. constructor; [intros [E | []]; congruence|].
  constructor; [intros [] | constructor].
Qed.

Lemma freelist_add_remove_witness :
  freelist_nodes 1 (Explicit.remove_freelist (Explicit.add_freelist (state_of heap64) 40) 40)
    (Explicit.freelist_start
       (Explicit.remove_freelist (Explicit.add_freelist (state_of heap64) 40) 40))
  = Some [8].
Proof.
  assert (L : lseg (Explicit.mem (state_of heap64)) 0
                (Explicit.freelist_start (state_of heap64)) [8] 0).
  { cbn [lseg]. splits.
    - vm_compute. reflexivity.
    - intro H. discriminate H.
    - vm_compute. reflexivity.
    - vm_compute. reflexivity. }
  assert (Hx : 0 < 40 < 2 ^ 64) by (split; reflexivity).
  assert (Hh : 0 <= Explicit.freelist_start (state_of heap64) < 2 ^ 64).
  { vm_compute. split; [intro H; discriminate H | reflexivity]. }
  assert (SP : spaced [40; 8]).
  { intros a b Ha Hb. apply (spaced_two 8 40 ltac:(lia) a b); simpl in *; tauto. }
  assert (ND : NoDup [40; 8]) by (apply nodup_two; intro H; discriminate H).
  exact (proj2 (freelist_add_remove (state_of heap64) [8] 40 L Hx Hh ND SP)).
Defined.

Lemma freelist_remove_any_witness :
  freelist_nodes (length ([32] ++ []))
    (Explicit.remove_freelist (state_of heap128_gap) 112)
    (Explicit.freelist_start (Explicit.remove_freelist (state_of heap128_gap) 112))
  = Some ([32] ++ []).
Proof.
  assert (L : lseg (Explicit.mem (state_of heap128_gap)) 0
                (Explicit.freelist_start (state_of heap128_gap)) ([32] ++ 112 :: []) 0).
  { cbn [lseg app]. splits.
    - vm_compute. reflexivity.
    - intro H. discriminate H.
    - vm_compute. reflexivity.
    - vm_compute. reflexivity.
    - intro H. discriminate H.
    - vm_compute. reflexivity.
    - vm_compute. reflexivity. }
  assert (SP : spaced ([32] ++ 112 :: [])) by (apply spaced_two; lia).
  assert (ND : NoDup ([32] ++ 112 :: [])) by (apply nodup_two; intro H; discriminate H).
  exact (proj1 (freelist_remove_any (state_of heap128_gap) [32] 112 [] L ND SP)).
Defined.
